(** * Text-Formatter: the transformation core of [text_formatter.py]

    The three core functions of [TextFormatter] are [_extract_metadata],
    [_replace_file_marks] and [_merge_with_template].  All three are written
    with Python's [re] module, so the embedding consists of

    - a backtracking matcher for the fragment of [re] the file uses,
      with [re.search], [re.findall] and [re.sub] on top of it;
    - the patterns of the source, written as syntax trees;
    - the three functions, which call the matcher as the source does.

    A Python [str] is a sequence of code points: a character is an [N],
    a string a [list N]. *)

From Stdlib Require Import NArith List Ascii String Bool Lia Arith.
From stdpp Require Import base option list gmap.

Open Scope N_scope.
Open Scope list_scope.

(** ** Characters and strings *)

Abbreviation char := N (only parsing).
Abbreviation str := (list N) (only parsing).

(** A literal of the source, code point by code point. *)
Definition lit (s : string) : str := map N_of_ascii (list_ascii_of_string s).

Definition NL : char := 10.
Definition LT : char := 60.
Definition GT : char := 62.
Definition DOLLAR : char := 36.
Definition HASH : char := 35.

(** [\s] on a [str] pattern: the interpreter's [Py_UNICODE_ISSPACE]. *)
Definition is_space (c : char) : bool :=
  ((9 <=? c) && (c <=? 13)) || ((28 <=? c) && (c <=? 32))
  || (c =? 133) || (c =? 160) || (c =? 5760)
  || ((8192 <=? c) && (c <=? 8202))
  || (c =? 8232) || (c =? 8233) || (c =? 8239) || (c =? 8287) || (c =? 12288).

(** [[A-Za-z0-9_\-]] *)
Definition is_ident_char (c : char) : bool :=
  ((65 <=? c) && (c <=? 90)) || ((97 <=? c) && (c <=? 122))
  || ((48 <=? c) && (c <=? 57)) || (c =? 95) || (c =? 45).

(** ** The pattern language *)

Record flags := Flags { MULTILINE : bool; DOTALL : bool }.

Definition NOFLAG : flags := Flags false false.

Inductive regex :=
| Eps
| Chr (p : char -> bool)                   (* a literal character or a class *)
| Dot                                      (* [.] *)
| Seq (a b : regex)
| Alt (a b : regex)                        (* [a|b] *)
| Rep (greedy : bool) (lo : nat) (r : regex) (* [r{lo,}], [r{lo,}?]; [r] one character wide *)
| Bol                                      (* [^] *)
| Eol                                      (* [$] *)
| Group (n : nat) (r : regex)              (* the n-th capturing group *)
| NegLook (r : regex).                     (* [(?!r)] *)

Definition Lit1 (c : char) : regex := Chr (N.eqb c).

Fixpoint Lits (s : str) : regex :=
  match s with
  | [] => Eps
  | [c] => Lit1 c
  | c :: s' => Seq (Lit1 c) (Lits s')
  end.

Fixpoint ngroups (r : regex) : nat :=
  match r with
  | Seq a b | Alt a b => Nat.max (ngroups a) (ngroups b)
  | Rep _ _ a | NegLook a => ngroups a
  | Group n a => Nat.max n (ngroups a)
  | _ => 0%nat
  end.

(** ** The matcher *)

(** A position in the subject: the character before it (if any), the text
    from it on, its index, and the groups captured so far. *)
Record mstate := MState {
  prev : option char;
  rest : str;
  pos : nat;
  caps : list (nat * str)
}.

Definition advance (c : char) (r : str) (s : mstate) : mstate :=
  MState (Some c) r (S (pos s)) (caps s).

(** The width-one test a repeated item performs on the next character;
    [None] for an item that is not one character wide. *)
Definition one_char (f : flags) (r : regex) : option (char -> bool) :=
  match r with
  | Chr p => Some p
  | Dot => Some (fun c => DOTALL f || negb (c =? NL))
  | _ => None
  end.

Definition at_bol (f : flags) (s : mstate) : bool :=
  match prev s with
  | None => true
  | Some c => MULTILINE f && (c =? NL)
  end.

Definition at_eol (f : flags) (s : mstate) : bool :=
  match rest s with
  | [] => true
  | c :: r => (c =? NL) && (MULTILINE f || match r with [] => true | _ => false end)
  end.

Section Matcher.
Context {R : Type}.

(** [p{lo,}]: as many as possible first, giving back one at a time. *)
Fixpoint rep_greedy (p : char -> bool) (lo : nat) (k : mstate -> option R)
    (r : str) (s : mstate) : option R :=
  let stop := match lo with O => k s | S _ => None end in
  match r with
  | c :: r' =>
      if p c then
        match rep_greedy p (Nat.pred lo) k r' (advance c r' s) with
        | Some x => Some x
        | None => stop
        end
      else stop
  | [] => stop
  end.

(** [p{lo,}?]: as few as possible first, taking one more at a time. *)
Fixpoint rep_lazy (p : char -> bool) (lo : nat) (k : mstate -> option R)
    (r : str) (s : mstate) : option R :=
  let more :=
    match r with
    | c :: r' => if p c then rep_lazy p (Nat.pred lo) k r' (advance c r' s) else None
    | [] => None
    end in
  match lo with
  | O => match k s with Some x => Some x | None => more end
  | S _ => more
  end.
End Matcher.

(** [run f r s k]: match [r] at [s], then continue with [k]; the first
    success in backtracking order. *)
Fixpoint run {R : Type} (f : flags) (r : regex) (s : mstate)
    (k : mstate -> option R) : option R :=
  match r with
  | Eps => k s
  | Chr _ | Dot =>
      match one_char f r, rest s with
      | Some p, c :: r' => if p c then k (advance c r' s) else None
      | _, _ => None
      end
  | Seq a b => run f a s (fun s' => run f b s' k)
  | Alt a b =>
      match run f a s k with
      | Some x => Some x
      | None => run f b s k
      end
  | Rep greedy lo a =>
      match one_char f a with
      | Some p => (if greedy then rep_greedy else rep_lazy) p lo k (rest s) s
      | None => None
      end
  | Bol => if at_bol f s then k s else None
  | Eol => if at_eol f s then k s else None
  | Group n a =>
      run f a s (fun s' =>
        k (MState (prev s') (rest s') (pos s')
             ((n, take (pos s' - pos s) (rest s)) :: caps s')))
  | NegLook a =>
      match run f a s Some with
      | Some _ => None
      | None => k s
      end
  end.

(** [match.group(n)] *)
Fixpoint group_of (cs : list (nat * str)) (n : nat) : option str :=
  match cs with
  | [] => None
  | (m, v) :: cs' => if Nat.eqb m n then Some v else group_of cs' n
  end.

(** A match found at one position: its length and its groups. *)
Record found := Found { mlen : nat; mcaps : list (nat * str) }.

(** One attempt at a fixed start; [must_advance] refuses the empty match, as
    the interpreter does right after an empty match at the same place. *)
Definition match_here (f : flags) (r : regex) (must_advance : bool)
    (pv : option char) (s : str) : option found :=
  run f r (MState pv s 0 [])
    (fun e => if must_advance && Nat.eqb (pos e) 0 then None
              else Some (Found (pos e) (caps e))).

(** ** [re.search], [re.findall], [re.sub] *)

(** [re.search]: the leftmost start at which the pattern matches, with the
    text before it. *)
Fixpoint search_from (f : flags) (r : regex) (pv : option char) (s : str)
    (before : nat) : option (nat * found) :=
  match match_here f r false pv s with
  | Some m => Some (before, m)
  | None =>
      match s with
      | [] => None
      | c :: s' => search_from f r (Some c) s' (S before)
      end
  end.

Definition re_search (f : flags) (r : regex) (s : str) : option (nat * found) :=
  search_from f r None s 0.

(** The scan shared by [re.sub] and [re.findall]: the subject cut into the
    characters no match covers and the successive non-overlapping matches. *)
Inductive piece :=
| Plain (c : char)
| Hit (whole : str) (cs : list (nat * str)).

(** The matches that start at one position, and how many characters they
    consume.  An empty match is followed by one more attempt at the same
    start, which must then be non-empty. *)
Definition hits_here (f : flags) (r : regex) (pv : option char) (s : str)
    : list piece * nat :=
  match match_here f r false pv s with
  | None => ([], 0%nat)
  | Some m =>
      let h := Hit (take (mlen m) s) (mcaps m) in
      match mlen m with
      | S _ => ([h], mlen m)
      | O =>
          match match_here f r true pv s with
          | None => ([h], 0%nat)
          | Some m2 => ([h; Hit (take (mlen m2) s) (mcaps m2)], mlen m2)
          end
      end
  end.

(** [skip] counts the characters of the current match still to pass over. *)
Fixpoint scan (f : flags) (r : regex) (pv : option char) (s : str)
    (skip : nat) : list piece :=
  match skip with
  | S n =>
      match s with
      | c :: s' => scan f r (Some c) s' n
      | [] => []
      end
  | O =>
      let '(hs, n) := hits_here f r pv s in
      match s with
      | [] => hs
      | c :: s' =>
          hs ++ match n with
                | O => Plain c :: scan f r (Some c) s' 0
                | S n' => scan f r (Some c) s' n'
                end
      end
  end.

(** A replacement template: literal text and group references [\n]. *)
Inductive titem :=
| TLit (s : str)
| TRef (n : nat).

(** Compiling a template raises [re.error] on a reference to a group the
    pattern does not have. *)
Definition template_ok (r : regex) (t : list titem) : bool :=
  forallb (fun i => match i with TLit _ => true | TRef n => (n <=? ngroups r)%nat end) t.

(** A group that took no part in the match expands to the empty string. *)
Definition expand (t : list titem) (cs : list (nat * str)) : str :=
  concat (map (fun i =>
    match i with
    | TLit s => s
    | TRef n => default [] (group_of cs n)
    end) t).

Definition render (repl : str -> list (nat * str) -> str) (p : piece) : str :=
  match p with
  | Plain c => [c]
  | Hit w cs => repl w cs
  end.

(** [re.sub(pattern, function, string)] *)
Definition re_sub_fun (f : flags) (r : regex)
    (repl : str -> list (nat * str) -> str) (s : str) : str :=
  concat (map (render repl) (scan f r None s 0)).

(** [re.sub(pattern, template, string, 0, flags)]; [None] is [re.error]. *)
Definition re_sub (f : flags) (r : regex) (t : list titem) (s : str) : option str :=
  if template_ok r t then Some (re_sub_fun f r (fun _ cs => expand t cs) s)
  else None.

(** What [re.findall] returns for one match depends on the number of groups
    of the pattern: the whole match, the only group, or the tuple of all. *)
Inductive pyval :=
| PStr (s : str)
| PTuple (l : list str).

Definition findall_item (r : regex) (w : str) (cs : list (nat * str)) : pyval :=
  match ngroups r with
  | O => PStr w
  | S O => PStr (default [] (group_of cs 1))
  | S (S _) => PTuple (map (fun n => default [] (group_of cs n)) (seq 1 (ngroups r)))
  end.

Definition re_findall (f : flags) (r : regex) (s : str) : list pyval :=
  omap (fun p => match p with
                 | Plain _ => None
                 | Hit w cs => Some (findall_item r w cs)
                 end) (scan f r None s 0).

(** [dict(iterable)]: every element must itself have exactly two elements,
    else [ValueError]/[TypeError] ([None]); a later key overwrites an
    earlier one. *)
Definition pair_of (v : pyval) : option (str * str) :=
  match v with
  | PTuple [k; x] => Some (k, x)
  | PStr [a; b] => Some ([a], [b])
  | _ => None
  end.

Definition py_dict (l : list pyval) : option (gmap str str) :=
  kvs ← mapM pair_of l;
  Some (foldl (fun m kv => <[kv.1 := kv.2]> m) ∅ kvs).

(** ** The patterns of the source *)

Fixpoint cat (l : list regex) : regex :=
  match l with
  | [] => Eps
  | [r] => r
  | r :: l' => Seq r (cat l')
  end.

Definition star (r : regex) : regex := Rep true 0 r.       (* [r*] *)
Definition plus (r : regex) : regex := Rep true 1 r.       (* [r+] *)
Definition lazy_star (r : regex) : regex := Rep false 0 r. (* [r*?] *)
Definition lazy_plus (r : regex) : regex := Rep false 1 r. (* [r+?] *)
Definition ws : regex := Chr is_space.                     (* [\s] *)

(** The [Regex] dataclass: [match_pattern], [replace_pattern], [flags]. *)
Record Regex := mkRegex {
  match_pattern : regex;
  replace_pattern : list titem;
  rflags : flags
}.

(** The template "<tag>\1</tag>". *)
Definition wrap_in (tag : string) : list titem :=
  [TLit (lit "<" ++ lit tag ++ lit ">"); TRef 1; TLit (lit "</" ++ lit tag ++ lit ">")].

(** The pattern "mark(.*?)mark". *)
Definition between (mark : string) : regex :=
  cat [Lits (lit mark); Group 1 (lazy_star Dot); Lits (lit mark)].

Definition R_newlines : Regex :=   (* "\n{2,}" -> "\n" *)
  mkRegex (Rep true 2 (Lit1 NL)) [TLit [NL]] NOFLAG.
Definition R_spaces : Regex :=     (* " {2,}" -> " " *)
  mkRegex (Rep true 2 (Lit1 32)) [TLit [32]] NOFLAG.
Definition R_strip : Regex :=      (* "^\s+|\s+$" -> the empty string *)
  mkRegex (Alt (cat [Bol; plus ws]) (cat [plus ws; Eol])) [] NOFLAG.
Definition R_final_newline : Regex := (* "\n*$" -> "\n" *)
  mkRegex (cat [star (Lit1 NL); Eol]) [TLit [NL]] NOFLAG.
Definition R_bold : Regex :=       (* "\*\*(.*?)\*\*" -> "<b>\1</b>" *)
  mkRegex (between "**") (wrap_in "b") NOFLAG.
Definition R_italic : Regex :=     (* "\*(.*?)\*" -> "<i>\1</i>" *)
  mkRegex (between "*") (wrap_in "i") NOFLAG.
Definition R_italic_alt : Regex := (* "\_(.*?)\_" -> "<i>\1</i>" *)
  mkRegex (between "_") (wrap_in "i") NOFLAG.
Definition R_strike : Regex :=     (* "\~\~(.*?)\~\~" -> "<s>\1</s>" *)
  mkRegex (between "~~") (wrap_in "s") NOFLAG.
Definition R_heading : Regex :=    (* "#\s*(G)" with G = ".*" -> "<h1>\1</h1>" *)
  mkRegex (cat [Lit1 HASH; star ws; Group 1 (star Dot)]) (wrap_in "h1") NOFLAG.
Definition R_stanza : Regex :=     (* "^\/\n(.*?)\n\/$" -> "<div class=stanza>\n\1\n</div>", MULTILINE | S *)
  mkRegex (cat [Bol; Lits (lit "/" ++ [NL]); Group 1 (lazy_star Dot);
                Lits (NL :: lit "/"); Eol])
          [TLit (lit "<div class=stanza>" ++ [NL]); TRef 1; TLit (NL :: lit "</div>")]
          (Flags true true).
Definition R_paragraph : Regex :=  (* "^(?!<)(?!.*>\n)(.*?)\n" -> "<p>\1</p>", MULTILINE *)
  mkRegex (cat [Bol; NegLook (Lit1 LT); NegLook (cat [star Dot; Lits [GT; NL]]);
                Group 1 (lazy_star Dot); Lit1 NL])
          (wrap_in "p") (Flags true false).

Definition _REPLACE_REGEXES : list Regex :=
  [R_newlines; R_spaces; R_strip; R_final_newline; R_bold; R_italic;
   R_italic_alt; R_strike; R_heading; R_stanza; R_paragraph].

(** ** The three functions *)

(** One turn of the loop of [_replace_file_marks]. *)
Definition apply_regex (x : Regex) (content : str) : option str :=
  re_sub (rflags x) (match_pattern x) (replace_pattern x) content.

Definition replace_with (l : list Regex) (content : str) : option str :=
  foldl (fun acc x => acc ≫= apply_regex x) (Some content) l.

Definition _replace_file_marks (content : str) : option str :=
  replace_with _REPLACE_REGEXES content.

(** The pattern "\$([A-Za-z0-9_\-]+)\$". *)
Definition placeholder : regex :=
  cat [Lit1 DOLLAR; Group 1 (plus (Chr is_ident_char)); Lit1 DOLLAR].

(** [metadata.get(match.group(1), match.group(0))] *)
Definition replacer (metadata : gmap str str) (whole : str)
    (cs : list (nat * str)) : str :=
  match group_of cs 1 with
  | Some key => default whole (metadata !! key)
  | None => whole
  end.

Definition _merge_with_template (to_merge_content template_content : str)
    (metadata : gmap str str) : str :=
  let metadata := <[lit "body" := to_merge_content]> metadata in
  re_sub_fun NOFLAG placeholder (replacer metadata) template_content.

Section Metadata.
(** [\w] is [ch.isalnum() or ch == '_']; outside ASCII it reads the
    interpreter's Unicode tables, which stay abstract here. *)
Variable unicode_alnum : char -> bool.

Definition is_word (c : char) : bool :=
  if c <? 128 then
    ((65 <=? c) && (c <=? 90)) || ((97 <=? c) && (c <=? 122))
    || ((48 <=? c) && (c <=? 57)) || (c =? 95)
  else unicode_alnum c.

(** The pattern "^---\s*\n(.*?)\n---", used with [re.DOTALL]. *)
Definition block_pattern : regex :=
  cat [Bol; Lits (lit "---"); star ws; Lit1 NL; Group 1 (lazy_star Dot);
       Lits (NL :: lit "---")].

(** The pattern "^\s*([\w\-]+)\s*:\s*(.+?)\s*$", used with [re.MULTILINE]. *)
Definition entry_pattern : regex :=
  cat [Bol; star ws; Group 1 (plus (Chr (fun c => is_word c || (c =? 45))));
       star ws; Lit1 58; star ws; Group 2 (lazy_plus Dot); star ws; Eol].

Definition _extract_metadata (content : str) : option (gmap str str * str) :=
  match re_search (Flags false true) block_pattern content with
  | None => Some (∅, content)
  | Some (start, m) =>
      let block := default [] (group_of (mcaps m) 1) in
      metadata ← py_dict (re_findall (Flags true false) entry_pattern block);
      let end_ := (start + mlen m)%nat in
      Some (metadata, take start content ++ drop end_ content)
  end.
End Metadata.

(** ** Reference definitions for the statements *)

(** The character before the position reached after reading [a]. *)
Definition lastc (pv : option char) (a : str) : option char :=
  match last a with
  | Some c => Some c
  | None => pv
  end.

(** The lines of a text, each closed by its newline. *)
Definition unlines (ls : list str) : str := concat (map (fun l => l ++ [NL]) ls).

Definition no_newline (l : str) : Prop := Forall (fun c => c <> NL) l.

Definition starts_with_lt (l : str) : bool :=
  match l with
  | c :: _ => c =? LT
  | [] => false
  end.

Definition ends_with_gt (l : str) : bool :=
  match last l with
  | Some c => c =? GT
  | None => false
  end.

Definition wrap_p (l : str) : str := lit "<p>" ++ l ++ lit "</p>".

(** What rule 11 is said to do with one line: wrap it unless it starts
    with [<]. *)
Definition paragraph_line_claimed (l : str) : str :=
  if starts_with_lt l then l ++ [NL] else wrap_p l.

(** What the pattern of rule 11 does with one line: its second lookahead
    also exempts a line that ends with [>]. *)
Definition paragraph_line (l : str) : str :=
  if starts_with_lt l || ends_with_gt l then l ++ [NL] else wrap_p l.

Definition fM : flags := Flags true false.

Definition line_start (pv : option char) : Prop :=
  match pv with None => True | Some c => c = NL end.

(** The text rule 11 produces from the position after [pv] on. *)
Definition paragraph_from (pv : option char) (s : str) : str :=
  concat (map (render (fun _ cs => expand (replace_pattern R_paragraph) cs))
              (scan fM (match_pattern R_paragraph) pv s 0)).

Definition all_space (s : str) : Prop := Forall (fun c => is_space c = true) s.

(** The longest prefix of [s] whose characters satisfy [p], and the rest. *)
Fixpoint span (p : char -> bool) (s : str) : str * str :=
  match s with
  | c :: s' =>
      if p c then let '(a, b) := span p s' in (c :: a, b) else ([], s)
  | [] => ([], [])
  end.

(** A placeholder token at the very start of [s]: a [$], one or more of
    letters, digits, underscore and hyphen, and a [$]; the identifier and
    the text after the token. *)
Definition token_at (s : str) : option (str * str) :=
  match s with
  | c :: s' =>
      if c =? DOLLAR then
        match span is_ident_char s' with
        | (k :: ks, d :: r) => if d =? DOLLAR then Some (k :: ks, r) else None
        | _ => None
        end
      else None
  | [] => None
  end.

(** The token with identifier [k], delimiters included. *)
Definition token (k : str) : str := DOLLAR :: k ++ [DOLLAR].

(** The text [re.sub] produces in [_merge_with_template] from the position
    after [pv] on. *)
Definition merge_from (metadata : gmap str str) (pv : option char) (s : str) : str :=
  concat (map (render (replacer metadata)) (scan NOFLAG placeholder pv s 0)).

Definition is_ident (k : str) : Prop :=
  k <> [] /\ Forall (fun c => is_ident_char c = true) k.

(** [starts p s]: the text [s] starts with [p]. *)
Fixpoint starts (p s : str) : bool :=
  match p, s with
  | [], _ => true
  | c :: p', d :: s' => (c =? d) && starts p' s'
  | _ :: _, [] => false
  end.

(** [occurs p s]: the text [p] occurs somewhere in [s]. *)
Fixpoint occurs (p s : str) : bool :=
  starts p s || match s with [] => false | _ :: s' => occurs p s' end.

(** A newline followed by [---]: what closes a metadata block. *)
Definition closing : str := NL :: lit "---".

(** After the opening [---]: the rest of the first line must be whitespace;
    the text from the second line on. *)
Fixpoint after_first_line (t : str) : option str :=
  match t with
  | c :: t' =>
      if c =? NL then Some t'
      else if is_space c then after_first_line t'
      else None
  | [] => None
  end.

(** The document opens with a block the pattern of [_extract_metadata]
    finds: its first line is [---] and whitespace, and some later line
    starts with [---]. *)
Definition has_block (s : str) : bool :=
  starts (lit "---") s
  && match after_first_line (drop 3 s) with
     | Some r => occurs closing r
     | None => false
     end.

Definition fD : flags := Flags false true.

(** The lines of a text: the pieces between its newlines. *)
Fixpoint split_lines_from (cur : str) (s : str) : list str :=
  match s with
  | [] => [rev cur]
  | c :: s' =>
      if c =? NL then rev cur :: split_lines_from [] s'
      else split_lines_from (c :: cur) s'
  end.

Definition split_lines (s : str) : list str := split_lines_from [] s.

Fixpoint lstrip (l : str) : str :=
  match l with
  | c :: l' => if is_space c then lstrip l' else l
  | [] => []
  end.

Definition strip (l : str) : str := rev (lstrip (rev (lstrip l))).

(** A line that holds [---] and, around it, whitespace at most. *)
Definition dashes (l : str) : bool := bool_decide (strip l = lit "---").

(** The metadata block as the specification words it: the first line is
    [---] (whitespace around it allowed), one or more lines follow, and
    then comes a line that is [---]. *)
Definition well_formed_block (s : str) : bool :=
  match split_lines s with
  | first :: _ :: more => dashes first && existsb dashes more
  | _ => false
  end.

(** The line cut at its first [#]: what is before and what is after. *)
Fixpoint split_hash (l : str) : option (str * str) :=
  match l with
  | [] => None
  | c :: l' =>
      if c =? HASH then Some ([], l')
      else match split_hash l' with
           | Some (pre, post) => Some (c :: pre, post)
           | None => None
           end
  end.

(** What rule 9 is said to do with one line: from the first [#] on, the
    line becomes a heading around the text after the [#] and the
    whitespace that follows it. *)
Definition heading_line (l : str) : str :=
  match split_hash l with
  | Some (pre, post) => pre ++ lit "<h1>" ++ lstrip post ++ lit "</h1>"
  | None => l
  end.

(** A line whose first [#], if it has one, is followed on the line by
    something other than whitespace. *)
Definition heading_has_text (l : str) : bool :=
  match split_hash l with
  | Some (_, post) => negb (forallb is_space post)
  | None => true
  end.

(** The text rule 9 produces from the position after [pv] on. *)
Definition heading_from (pv : option char) (s : str) : str :=
  concat (map (render (fun _ cs => expand (replace_pattern R_heading) cs))
              (scan NOFLAG (match_pattern R_heading) pv s 0)).

Definition not_nl (c : char) : bool := negb (c =? NL).

(** What a heading whose [#] has just been read makes of the text [y] that
    follows: the whitespace is passed over, newlines included, and the
    text up to the end of that line is the heading. *)
Definition heading_open (y : str) : str :=
  let '(a, b) := span is_space y in
  let '(g, b') := span not_nl b in
  lit "<h1>" ++ g ++ lit "</h1>" ++ heading_from None b'.

(** Rule 9, line by line.  [pending] holds the text before a [#] that had
    only whitespace after it on its line: the heading is still open, passes
    over whitespace-only lines and takes the next line with text whole.
    [t] is what follows the last newline. *)
Fixpoint heading_run (pending : option str) (ls : list str) (t : str) : str :=
  match ls with
  | [] =>
      match pending with
      | None => heading_line t
      | Some pre => pre ++ lit "<h1>" ++ lstrip t ++ lit "</h1>"
      end
  | l :: ls' =>
      match pending with
      | None =>
          if heading_has_text l then heading_line l ++ NL :: heading_run None ls' t
          else match split_hash l with
               | Some (pre, _) => heading_run (Some pre) ls' t
               | None => l ++ NL :: heading_run None ls' t
               end
      | Some pre =>
          if forallb is_space l then heading_run (Some pre) ls' t
          else pre ++ lit "<h1>" ++ lstrip l ++ lit "</h1>"
               ++ NL :: heading_run None ls' t
      end
  end.

(** ** Lines that rule 11 leaves alone

    Reading a text from left to right, one is at the start of a line, in a
    line that started with [<], or in a line that started otherwise and
    whose last character so far is [c].  A line may end only if rule 11
    leaves it alone: it started with [<] or it ends with [>]. *)
Inductive lstate :=
| LStart
| LGood
| LBad (c : char).

Definition lstep (q : lstate) (c : char) : option lstate :=
  if c =? NL then
    match q with
    | LStart => None
    | LGood => Some LStart
    | LBad d => if d =? GT then Some LStart else None
    end
  else
    match q with
    | LStart => Some (if c =? LT then LGood else LBad c)
    | LGood => Some LGood
    | LBad _ => Some (LBad c)
    end.

Fixpoint lsteps (q : lstate) (t : str) : option lstate :=
  match t with
  | [] => Some q
  | c :: t' =>
      match lstep q c with
      | Some q' => lsteps q' t'
      | None => None
      end
  end.

Definition lfinal (q : lstate) : bool :=
  match q with
  | LBad d => d =? GT
  | _ => true
  end.

(** Every line of [t], read from state [q] on, is one that rule 11 leaves
    alone (the text after the last newline may be empty). *)
Definition tagged_from (q : lstate) (t : str) : bool :=
  match lsteps q t with
  | Some q' => lfinal q'
  | None => false
  end.

Definition tagged (t : str) : bool := tagged_from LStart t.

(** [q'] is at least as good as [q]. *)
Definition lbetter (q' q : lstate) : Prop :=
  q' = LGood \/ q' = q \/ (q' = LBad GT /\ exists c, q = LBad c).

(** The state of the reading agrees with the character before the
    position: at a line start exactly after a newline or at the start. *)
Definition lagrees (pv : option char) (q : lstate) : Prop :=
  q = LStart <-> line_start pv.

(** Rules 1 to 10. *)
Definition rules_before_paragraph : list Regex :=
  [R_newlines; R_spaces; R_strip; R_final_newline; R_bold; R_italic;
   R_italic_alt; R_strike; R_heading; R_stanza].

(** A non-empty text that ends with a newline or with [>]. *)
Definition ends_closed (t : str) : Prop :=
  last t = Some NL \/ last t = Some GT.

(** What a rule must do at each of its matches for the lines to stay as
    rule 11 leaves them: the match is not empty, and the replacement leaves
    the reading in a state at least as good as the matched text does. *)
Definition keeps_tags (f : flags) (r : regex)
    (repl : str -> list (nat * str) -> str) : Prop :=
  forall pv (s : str) m q q',
    match_here f r false pv s = Some m ->
    lagrees pv q -> lbetter q' q -> tagged_from q s = true ->
    (0 < mlen m <= length s)%nat
    /\ exists q1 q1',
         lsteps q (take (mlen m) s) = Some q1
         /\ lsteps q' (repl (take (mlen m) s) (mcaps m)) = Some q1'
         /\ lbetter q1' q1.

(** The state after reading, from [q], the text [w] that has no newline. *)
Definition after_text (q : lstate) (w : str) : lstate :=
  match w with
  | [] => q
  | c :: _ =>
      match q with
      | LStart => if c =? LT then LGood else LBad (default c (last w))
      | LGood => LGood
      | LBad _ => LBad (default c (last w))
      end
  end.

(** A text with no whitespace at either end. *)
Definition trimmed (m : str) : Prop :=
  (forall c, head m = Some c -> is_space c = false)
  /\ (forall d, last m = Some d -> is_space d = false).

(** What one rule makes of a text. *)
Definition rule_out (x : Regex) (s : str) : str :=
  re_sub_fun (rflags x) (match_pattern x)
    (fun _ cs => expand (replace_pattern x) cs) s.

(** The replacement of the rule always ends with [>]. *)
Definition closes_tag (x : Regex) : Prop :=
  forall cs, last (expand (replace_pattern x) cs) = Some GT.

(** ** Further reference definitions *)

(** A line that rule 11 leaves alone. *)
Definition left_alone (l : str) : bool := starts_with_lt l || ends_with_gt l.

(** [k] has a character that cannot stand in a placeholder. *)
Definition not_placeholder_name (k : str) : Prop :=
  exists c, c ∈ k /\ is_ident_char c = false.

(** A space or a tab. *)
Definition blank (c : char) : bool := (c =? 32) || (c =? 9).

(** The characters the key of a metadata entry is read from: "[\w\-]". *)
Definition key_char (ua : char -> bool) (c : char) : bool :=
  is_word ua c || (c =? 45).

(** One entry of a metadata block, cut into its parts: the key, what stands
    between the key and the colon, what stands between the colon and the
    value, the value, and what follows the value. *)
Record meta_entry := MetaEntry {
  e_key : str; e_gap : str; e_pad : str; e_value : str; e_trail : str }.

Definition entry_text (e : meta_entry) : str :=
  e_key e ++ e_gap e ++ 58 :: e_pad e ++ e_value e ++ e_trail e.

(** The key is made of letters, digits, [_] and [-]; spaces or tabs may
    stand before the colon and any whitespace after it; the value stays on
    one line and has no whitespace at either end; any whitespace, blank
    lines included, may follow it. *)
Definition entry_ok (e : meta_entry) : Prop :=
  is_ident (e_key e)
  /\ Forall (fun c => blank c = true) (e_gap e)
  /\ all_space (e_pad e)
  /\ e_value e <> [] /\ no_newline (e_value e) /\ trimmed (e_value e)
  /\ all_space (e_trail e).

(** Texts put one after the other with a newline between them. *)
Fixpoint join_lines (ls : list str) : str :=
  match ls with
  | [] => []
  | [l] => l
  | l :: ls' => l ++ NL :: join_lines ls'
  end.

(** The mapping the entries stand for: a later entry replaces an earlier
    one of the same key. *)
Definition entries_map (es : list meta_entry) : gmap str str :=
  foldl (fun m e => <[e_key e := e_value e]> m) ∅ es.

Definition entry_item (e : meta_entry) : pyval := PTuple [e_key e; e_value e].

(** What follows an entry in a block: nothing, or a newline and the
    entries left. *)
Definition block_tail (es : list meta_entry) : str :=
  match es with
  | [] => []
  | _ => NL :: join_lines (map entry_text es)
  end.

(** What [re.findall] makes of the pieces of a scan with the entry
    pattern. *)
Definition entry_items (ua : char -> bool) (l : list piece) : list pyval :=
  omap (fun p => match p with
                 | Plain _ => None
                 | Hit w cs => Some (findall_item (entry_pattern ua) w cs)
                 end) l.

(** A block of entries, one after the other. *)
Definition block_text (es : list meta_entry) : str :=
  join_lines (map entry_text es).

(** What one rule makes of a text, read from a given place on. *)
Definition rule_from (x : Regex) (pv : option char) (s : str) : str :=
  concat (map (render (fun _ cs => expand (replace_pattern x) cs))
              (scan (rflags x) (match_pattern x) pv s 0)).

(** The rule that puts one [ch] where two or more stand in a row. *)
Definition squeeze (ch : char) : Regex :=
  mkRegex (Rep true 2 (Lit1 ch)) [TLit [ch]] NOFLAG.

(** Lines, each with the newlines that stand before it: one, and [k] more. *)
Definition gapped (ls : list (nat * str)) : str :=
  concat (map (fun kl => NL :: repeat NL kl.1 ++ kl.2) ls).

Definition text_line (l : str) : Prop := l <> [] /\ no_newline l.

(** The rule "mark(.*?)mark" -> "<tag>\1</tag>". *)
Definition R_between (mark tag : string) : Regex :=
  mkRegex (between mark) (wrap_in tag) NOFLAG.

(** What rules 5 to 8 make of one line. *)
Definition inline_line (l : str) : str :=
  rule_out R_strike (rule_out R_italic_alt (rule_out R_italic (rule_out R_bold l))).

(** A line that, after rules 5 to 8, has text after its first [#] if it
    has one, and no [/] at its end. *)
Definition heading_or_text_line (l : str) : Prop :=
  heading_has_text (inline_line l) = true /\ last (inline_line l) <> Some 47.

(** Is [c] one of [*], [_], [~]? *)
Definition is_inline_mark (c : char) : bool :=
  (c =? 42) || (c =? 95) || (c =? 126).

(** A line without inline marks, with text after its first [#] if it has
    one, and without [/] at its end. *)
Definition heading_or_text (l : str) : Prop :=
  Forall (fun c => is_inline_mark c = false) l
  /\ heading_has_text l = true /\ last l <> Some 47.

(** The four inline marks and the tags they stand for. *)
Inductive inline := Bold | Italic | ItalicAlt | Strike.

Definition mark_of (k : inline) : string :=
  match k with Bold => "**" | Italic => "*" | ItalicAlt => "_" | Strike => "~~" end.

Definition tag_of (k : inline) : string :=
  match k with Bold => "b" | Italic => "i" | ItalicAlt => "i" | Strike => "s" end.

Definition open_tag (tag : string) : str := LT :: lit tag ++ [GT].
Definition close_tag (tag : string) : str := LT :: 47 :: lit tag ++ [GT].

Definition fMS : flags := Flags true true.

(** A stanza from its opening [/] to its closing [/], around [I]. *)
Definition stanza_text (I : str) : str := lit "/" ++ [NL] ++ I ++ NL :: lit "/".

(** The three steps between reading and writing in [execute]: the metadata
    is taken off the input, the rest is formatted, and the result is merged
    into the template with the metadata. *)
Definition execute_core (ua : char -> bool) (input_file_content
    template_file_content : str) : option str :=
  '(metadata, input_file_content_without_metadata) ←
     _extract_metadata ua input_file_content;
  input_file_content_replaced ←
     _replace_file_marks input_file_content_without_metadata;
  Some (_merge_with_template input_file_content_replaced
          template_file_content metadata).

(** * Properties *)

#[local] Arguments N.eqb : simpl nomatch.

(** Unfolding one layer of the matcher on a pattern of the source. *)
Ltac run_step :=
  cbn [run cat Lits Lit1 star plus lazy_star lazy_plus ws one_char between
       match_pattern replace_pattern rflags rest prev pos caps advance
       MULTILINE DOTALL orb andb].

Ltac run_step_in H :=
  cbn [run cat Lits Lit1 star plus lazy_star lazy_plus ws one_char between
       match_pattern replace_pattern rflags rest prev pos caps advance
       MULTILINE DOTALL orb andb] in H.

(** ** The repetition loops *)

Lemma last_cons_Some (d : char) (a : str) : exists x, last (d :: a) = Some x.
Proof.
  revert d. induction a as [|e a IH]; intros d; [by exists d|].
  destruct (IH e) as [x Hx]. exists x. by rewrite <- Hx.
Qed.

Lemma lastc_cons pv c a : lastc pv (c :: a) = lastc (Some c) a.
Proof.
  unfold lastc. destruct a as [|d a]; [done|].
  destruct (last_cons_Some d a) as [x Hx].
  change (last (c :: d :: a)) with (last (d :: a)). by rewrite Hx.
Qed.

Lemma lastc_snoc pv a c : lastc pv (a ++ [c]) = Some c.
Proof. unfold lastc. by rewrite last_snoc. Qed.


Section Loops.
Context {R : Type} (p : char -> bool) (k : mstate -> option R).

(** A lazy loop passes over a prefix on which the continuation fails. *)
Lemma rep_lazy_app (a b : str) pv n cs :
  Forall (fun c => p c = true) a ->
  (forall a1 c a2, a = a1 ++ c :: a2 ->
     k (MState (lastc pv a1) (c :: a2 ++ b) (n + length a1) cs) = None) ->
  rep_lazy p 0 k (a ++ b) (MState pv (a ++ b) n cs)
  = rep_lazy p 0 k b (MState (lastc pv a) b (n + length a) cs).
Proof.
  revert pv n. induction a as [|c a IH]; intros pv n Hp Hk.
  - simpl. by rewrite Nat.add_0_r.
  - inversion Hp as [|? ? Hc Hp']; subst.
    pose proof (Hk [] c a eq_refl) as H0. simpl in H0.
    rewrite Nat.add_0_r in H0. unfold lastc in H0; simpl in H0.
    simpl. rewrite H0, Hc.
    unfold advance; simpl. rewrite IH; [|done|].
    + rewrite lastc_cons. do 2 f_equal. lia.
    + intros a1 d a2 ->. specialize (Hk (c :: a1) d a2 eq_refl).
      rewrite lastc_cons in Hk. simpl in Hk.
      by replace (S n + length a1)%nat with (n + S (length a1))%nat by lia.
Qed.

Lemma rep_lazy_here (r : str) (s : mstate) x :
  k s = Some x -> rep_lazy p 0 k r s = Some x.
Proof. intros H. destruct r; simpl; by rewrite H. Qed.

Lemma rep_lazy_stop (r : str) (s : mstate) :
  match r with [] => True | c :: _ => p c = false end ->
  rep_lazy p 0 k r s = k s.
Proof.
  destruct r as [|c r]; simpl.
  - by destruct (k s).
  - intros ->. by destruct (k s).
Qed.

(** A lazy loop fails when the continuation fails all along the run. *)
Lemma rep_lazy_none (a b : str) pv n cs :
  Forall (fun c => p c = true) a ->
  match b with [] => True | c :: _ => p c = false end ->
  (forall a1 a2, a = a1 ++ a2 ->
     k (MState (lastc pv a1) (a2 ++ b) (n + length a1) cs) = None) ->
  rep_lazy p 0 k (a ++ b) (MState pv (a ++ b) n cs) = None.
Proof.
  intros Hp Hb Hk. rewrite rep_lazy_app; [|done|].
  - rewrite rep_lazy_stop by done.
    specialize (Hk a [] (eq_sym (app_nil_r a))). by simpl in Hk.
  - intros a1 c a2 ->. apply (Hk a1 (c :: a2) eq_refl).
Qed.

(** A greedy loop with no lower bound, on a run [a] that ends at [b]:
    the continuation is tried after the longest prefix first. *)
Lemma rep_greedy_longest (a b : str) pv n cs x :
  Forall (fun c => p c = true) a ->
  k (MState (lastc pv a) b (n + length a) cs) = Some x ->
  match b with
  | [] => True
  | c :: _ => p c = false
            \/ rep_greedy p 0 k b (MState (lastc pv a) b (n + length a) cs) = Some x
  end ->
  rep_greedy p 0 k (a ++ b) (MState pv (a ++ b) n cs) = Some x.
Proof.
  revert pv n. induction a as [|c a IH]; intros pv n Hp Hk Hb.
  - simpl in *. rewrite Nat.add_0_r in *. destruct b as [|c b]; [done|].
    destruct Hb as [Hb|Hb]; [|done]. simpl. by rewrite Hb.
  - inversion Hp as [|? ? Hc Hp']; subst. simpl. rewrite Hc.
    unfold advance; simpl. rewrite (IH (Some c) (S n)); [done|done| |].
    + rewrite <- lastc_cons with (pv := pv).
      by replace (S n + length a)%nat with (n + length (c :: a))%nat by (simpl; lia).
    + destruct b; [done|]. rewrite <- lastc_cons with (pv := pv).
      by replace (S n + length a)%nat with (n + length (c :: a))%nat by (simpl; lia).
Qed.


Lemma rep_greedy_all (a : str) pv n cs x :
  Forall (fun c => p c = true) a ->
  k (MState (lastc pv a) [] (n + length a) cs) = Some x ->
  rep_greedy p 0 k a (MState pv a n cs) = Some x.
Proof.
  intros Hp Hk. pose proof (rep_greedy_longest a [] pv n cs x Hp Hk I) as H.
  by rewrite app_nil_r in H.
Qed.

(** A greedy loop falls back on its start when the continuation fails
    after every non-empty prefix of the run. *)
Lemma rep_greedy_fall (a b : str) pv n cs :
  Forall (fun c => p c = true) a ->
  match b with [] => True | c :: _ => p c = false end ->
  (forall u c v, a = u ++ c :: v ->
     k (MState (Some c) (v ++ b) (n + S (length u)) cs) = None) ->
  rep_greedy p 0 k (a ++ b) (MState pv (a ++ b) n cs)
  = k (MState pv (a ++ b) n cs).
Proof.
  revert pv n. induction a as [|c a IH]; intros pv n Hp Hb Hk.
  - simpl. destruct b as [|c b]; [done|]. simpl. by rewrite Hb.
  - inversion Hp as [|? ? Hc Hp']; subst. simpl. rewrite Hc.
    unfold advance; simpl. rewrite IH; [|done|done|].
    + pose proof (Hk [] c a eq_refl) as H0. simpl in H0.
      replace (n + 1)%nat with (S n) in H0 by lia. by rewrite H0.
    + intros u d v ->. specialize (Hk (c :: u) d v eq_refl). simpl in Hk.
      by replace (S n + S (length u))%nat with (n + S (S (length u)))%nat by lia.
Qed.

(** It gives back characters down to the longest prefix [a1] after which
    the continuation succeeds. *)
Lemma rep_greedy_back (a1 a2 b : str) pv n cs x :
  Forall (fun c => p c = true) (a1 ++ a2) ->
  match b with [] => True | c :: _ => p c = false end ->
  (forall u c v, a2 = u ++ c :: v ->
     k (MState (Some c) (v ++ b) (n + length a1 + S (length u)) cs) = None) ->
  k (MState (lastc pv a1) (a2 ++ b) (n + length a1) cs) = Some x ->
  rep_greedy p 0 k (a1 ++ a2 ++ b) (MState pv (a1 ++ a2 ++ b) n cs) = Some x.
Proof.
  revert pv n. induction a1 as [|c a1 IH]; intros pv n Hp Hb Hk Hx.
  - simpl in *. rewrite Nat.add_0_r in *. by rewrite rep_greedy_fall.
  - simpl in Hp. inversion Hp as [|? ? Hc Hp']; subst. simpl. rewrite Hc.
    unfold advance; simpl. rewrite (IH (Some c) (S n)); try done.
    + intros u d v ->. specialize (Hk u d v eq_refl). simpl in Hk.
      by replace (S n + length a1 + S (length u))%nat
        with (n + S (length a1) + S (length u))%nat by lia.
    + rewrite lastc_cons in Hx. simpl in Hx.
      by replace (S n + length a1)%nat with (n + S (length a1))%nat by lia.
Qed.

(** It fails when the continuation fails after every prefix of the run. *)
Lemma rep_greedy_none (a b : str) pv n cs :
  Forall (fun c => p c = true) a ->
  match b with [] => True | c :: _ => p c = false end ->
  (forall u v, a = u ++ v ->
     k (MState (lastc pv u) (v ++ b) (n + length u) cs) = None) ->
  rep_greedy p 0 k (a ++ b) (MState pv (a ++ b) n cs) = None.
Proof.
  intros Hp Hb Hk. rewrite rep_greedy_fall; try done.
  - specialize (Hk [] a eq_refl). simpl in Hk. by rewrite Nat.add_0_r in Hk.
  - intros u c v ->.
    specialize (Hk (u ++ [c]) v). rewrite <- app_assoc in Hk.
    specialize (Hk eq_refl). rewrite lastc_snoc, length_app in Hk. simpl in Hk.
    by replace (n + S (length u))%nat with (n + (length u + 1))%nat by lia.
Qed.

(** What a successful loop tells: the prefix it read. *)
Lemma rep_greedy_sound (r : str) pv n cs x :
  rep_greedy p 0 k r (MState pv r n cs) = Some x ->
  exists u v, r = u ++ v /\ Forall (fun c => p c = true) u
    /\ k (MState (lastc pv u) v (n + length u) cs) = Some x.
Proof.
  revert pv n. induction r as [|c r IH]; intros pv n H.
  - exists [], []. simpl in *. by rewrite Nat.add_0_r.
  - simpl in H. destruct (p c) eqn:Hc.
    + unfold advance in H. simpl in H.
      destruct (rep_greedy p 0 k r _) as [y|] eqn:E.
      * injection H as ->. apply IH in E as (u & v & -> & Hu & Hk).
        exists (c :: u), v. rewrite lastc_cons. simpl.
        replace (n + S (length u))%nat with (S n + length u)%nat by lia.
        by repeat split; [constructor|].
      * exists [], (c :: r). simpl. by rewrite Nat.add_0_r.
    + exists [], (c :: r). simpl. by rewrite Nat.add_0_r.
Qed.

(** A loop succeeds as soon as the continuation succeeds after some
    prefix it can read. *)
Lemma rep_greedy_complete (u v : str) pv n cs :
  Forall (fun c => p c = true) u ->
  is_Some (k (MState (lastc pv u) v (n + length u) cs)) ->
  is_Some (rep_greedy p 0 k (u ++ v) (MState pv (u ++ v) n cs)).
Proof.
  revert pv n. induction u as [|c u IH]; intros pv n Hu Hk.
  - simpl in *. rewrite Nat.add_0_r in Hk.
    destruct v as [|c v]; simpl; [done|].
    destruct (p c); [|done].
    by destruct (rep_greedy p 0 k v _).
  - inversion Hu as [|? ? Hc Hu']; subst. simpl. rewrite Hc.
    unfold advance; simpl.
    destruct (IH (Some c) (S n) Hu') as [x Hx].
    + rewrite lastc_cons in Hk. simpl in Hk.
      by replace (S n + length u)%nat with (n + S (length u))%nat by lia.
    + by rewrite Hx.
Qed.

Lemma rep_lazy_first (r : str) pv n cs x :
  rep_lazy p 0 k r (MState pv r n cs) = Some x ->
  exists u v, r = u ++ v /\ Forall (fun c => p c = true) u
    /\ k (MState (lastc pv u) v (n + length u) cs) = Some x
    /\ forall u1 c u2, u = u1 ++ c :: u2 ->
         k (MState (lastc pv u1) (c :: u2 ++ v) (n + length u1) cs) = None.
Proof.
  revert pv n. induction r as [|c r IH]; intros pv n H.
  - simpl in H. destruct (k _) as [y|] eqn:E; [|done]. injection H as ->.
    exists [], []. simpl. rewrite Nat.add_0_r. repeat split; try done.
    intros [|? ?] ? ?; done.
  - simpl in H. destruct (k _) as [y|] eqn:E.
    + injection H as ->. exists [], (c :: r). simpl. rewrite Nat.add_0_r.
      repeat split; try done. intros [|? ?] ? ?; done.
    + destruct (p c) eqn:Hc; [|done]. unfold advance in H. simpl in H.
      apply IH in H as (u & v & -> & Hu & Hk & Hfirst).
      exists (c :: u), v. rewrite lastc_cons. simpl.
      replace (n + S (length u))%nat with (S n + length u)%nat by lia.
      repeat split; [by constructor|done|].
      intros [|d u1] e u2 Heq; simpl in Heq; injection Heq as <- ->.
      * simpl. by rewrite Nat.add_0_r.
      * rewrite lastc_cons. simpl.
        replace (n + S (length u1))%nat with (S n + length u1)%nat by lia.
        by apply Hfirst.
Qed.

Lemma rep_lazy_complete (u v : str) pv n cs :
  Forall (fun c => p c = true) u ->
  is_Some (k (MState (lastc pv u) v (n + length u) cs)) ->
  is_Some (rep_lazy p 0 k (u ++ v) (MState pv (u ++ v) n cs)).
Proof.
  revert pv n. induction u as [|c u IH]; intros pv n Hu Hk.
  - simpl in *. rewrite Nat.add_0_r in Hk. destruct Hk as [y Hk].
    exists y. by apply rep_lazy_here.
  - inversion Hu as [|? ? Hc Hu']; subst. simpl.
    destruct (k (MState pv (c :: u ++ v) n cs)); [done|].
    rewrite Hc. unfold advance; simpl. apply IH; [done|].
    rewrite lastc_cons in Hk. simpl in Hk.
    by replace (S n + length u)%nat with (n + S (length u))%nat by lia.
Qed.

(** With a lower bound, the first character is taken unconditionally. *)
Lemma rep_greedy_S lo c (r : str) (s : mstate) :
  rep_greedy p (S lo) k (c :: r) s
  = if p c then rep_greedy p lo k r (advance c r s) else None.
Proof. simpl. destruct (p c); [|done]. by destruct (rep_greedy _ _ _ _ _). Qed.
End Loops.

(** ** The scan *)

Section Scan.
Context (f : flags) (r : regex).

(** Passing over the characters of a match. *)
Lemma scan_skip (a b : str) pv :
  scan f r pv (a ++ b) (length a) = scan f r (lastc pv a) b 0.
Proof.
  revert pv. induction a as [|c a IH]; intros pv; [done|].
  simpl. rewrite IH. by rewrite lastc_cons.
Qed.

Lemma scan_miss c (s : str) pv :
  match_here f r false pv (c :: s) = None ->
  scan f r pv (c :: s) 0 = Plain c :: scan f r (Some c) s 0.
Proof. intros H. simpl. unfold hits_here. by rewrite H. Qed.

Lemma scan_hit (a b : str) pv cs :
  a <> [] ->
  match_here f r false pv (a ++ b) = Some (Found (length a) cs) ->
  scan f r pv (a ++ b) 0 = Hit a cs :: scan f r (lastc pv a) b 0.
Proof.
  intros Ha H. destruct a as [|c a]; [done|].
  change ((c :: a) ++ b) with (c :: a ++ b) in *.
  simpl. unfold hits_here. rewrite H. simpl.
  rewrite take_app_length. rewrite scan_skip. by rewrite lastc_cons.
Qed.

(** A stretch of text in which no match starts is copied. *)
Lemma scan_plain_run (a b : str) pv :
  (forall u c v, a = u ++ c :: v ->
     match_here f r false (lastc pv u) (c :: v ++ b) = None) ->
  scan f r pv (a ++ b) 0 = map Plain a ++ scan f r (lastc pv a) b 0.
Proof.
  revert pv. induction a as [|c a IH]; intros pv H; [done|].
  change ((c :: a) ++ b) with (c :: a ++ b).
  rewrite scan_miss by apply (H [] c a eq_refl).
  simpl. rewrite IH, lastc_cons; [done|].
  intros u d v ->. specialize (H (c :: u) d v eq_refl).
  by rewrite lastc_cons in H.
Qed.

Lemma scan_end pv :
  match_here f r false pv [] = None -> scan f r pv [] 0 = [].
Proof. intros H. simpl. unfold hits_here. by rewrite H. Qed.
End Scan.

(** ** Steps of the matcher *)

Section Steps.
Context {R : Type} (f : flags) (k : mstate -> option R).

Lemma run_bol b (s : mstate) :
  at_bol f s = true -> run f (Seq Bol b) s k = run f b s k.
Proof. intros H. simpl. by rewrite H. Qed.

Lemma run_not_bol b (s : mstate) :
  at_bol f s = false -> run f (Seq Bol b) s k = None.
Proof. intros H. simpl. by rewrite H. Qed.

Lemma run_neglook_pass a b (s : mstate) :
  run f a s Some = None -> run f (Seq (NegLook a) b) s k = run f b s k.
Proof. intros H. simpl. by rewrite H. Qed.

Lemma run_neglook_stop a b (s : mstate) x :
  run f a s Some = Some x -> run f (Seq (NegLook a) b) s k = None.
Proof. intros H. simpl. by rewrite H. Qed.
End Steps.

(** ** Rule 11: paragraphs *)

Lemma no_newline_dot (l : str) :
  no_newline l -> Forall (fun c => negb (c =? NL) = true) l.
Proof.
  intros H. eapply Forall_impl; [exact H|].
  intros c Hc. by destruct (N.eqb_spec c NL).
Qed.

Lemma ends_with_gt_snoc (l : str) c : ends_with_gt (l ++ [c]) = (c =? GT).
Proof. unfold ends_with_gt. by rewrite last_snoc. Qed.

(** The second lookahead of rule 11 finds its text exactly on a line that
    ends with [>]. *)
Lemma lookahead_gt_none (l b : str) pv n cs :
  no_newline l -> ends_with_gt l = false ->
  run fM (cat [star Dot; Lits [GT; NL]]) (MState pv (l ++ NL :: b) n cs) Some = None.
Proof.
  intros Hl He. run_step. unfold fM; run_step.
  apply rep_greedy_none; [by apply no_newline_dot|reflexivity|].
  intros u v ->. run_step.
  destruct v as [|c v]; simpl; [reflexivity|].
  destruct (N.eqb_spec GT c) as [<-|]; [|done].
  destruct v as [|d v]; simpl.
  - by rewrite ends_with_gt_snoc in He.
  - destruct (N.eqb_spec NL d) as [<-|]; [|done].
    apply Forall_app in Hl as [_ Hl]. inversion Hl as [|? ? _ Hl']; subst.
    by inversion Hl'.
Qed.

Lemma lookahead_gt_some (l b : str) pv n cs :
  no_newline l -> ends_with_gt l = true ->
  exists x, run fM (cat [star Dot; Lits [GT; NL]]) (MState pv (l ++ NL :: b) n cs) Some
            = Some x.
Proof.
  intros Hl He.
  destruct l as [|c l] using rev_ind; [done|].
  rewrite ends_with_gt_snoc in He. apply N.eqb_eq in He as ->.
  eexists. run_step. unfold fM; run_step.
  rewrite <- app_assoc.
  eapply (rep_greedy_back _ _ l [GT] (NL :: b)); [by apply no_newline_dot|reflexivity| |].
  - intros u c v Huv. destruct u as [|? [|]]; try done.
    injection Huv as <- <-. done.
  - done.
Qed.

Lemma line_start_bol pv (s : str) n cs :
  line_start pv -> at_bol fM (MState pv s n cs) = true.
Proof. destruct pv as [c|]; [|done]. by intros ->. Qed.

(** Inside a line the pattern does not match: [^] fails. *)
Lemma para_mid c (s : str) :
  c <> NL -> match_here fM (match_pattern R_paragraph) false (Some c) s = None.
Proof.
  intros Hc. unfold match_here. cbn [match_pattern R_paragraph cat].
  apply run_not_bol. unfold at_bol. simpl. by destruct (N.eqb_spec c NL).
Qed.

Lemma lookahead_lt (l b : str) pv n cs :
  run fM (Lit1 LT) (MState pv (l ++ NL :: b) n cs) Some
  = if starts_with_lt l then Some (MState (Some LT) (tail (l ++ NL :: b)) (S n) cs)
    else None.
Proof.
  destruct l as [|c l]; simpl; [done|].
  rewrite N.eqb_sym. destruct (N.eqb_spec c LT) as [->|]; done.
Qed.

(** A line that neither starts with [<] nor ends with [>] is matched whole,
    newline included. *)
Lemma para_hit (l b : str) pv :
  no_newline l -> starts_with_lt l = false -> ends_with_gt l = false ->
  line_start pv ->
  match_here fM (match_pattern R_paragraph) false pv (l ++ NL :: b)
  = Some (Found (length (l ++ [NL])) [(1%nat, l)]).
Proof.
  intros Hl Hs He Hpv. unfold match_here. cbn [match_pattern R_paragraph cat].
  rewrite run_bol by by apply line_start_bol.
  rewrite run_neglook_pass by by rewrite lookahead_lt, Hs.
  rewrite run_neglook_pass by by apply lookahead_gt_none.
  unfold fM. run_step.
  rewrite rep_lazy_app; [|by apply no_newline_dot|].
  - apply rep_lazy_here. run_step. rewrite N.eqb_refl. simpl.
    rewrite Nat.sub_0_r, take_app_length, length_app. simpl.
    by rewrite Nat.add_1_r.
  - intros a1 c a2 ->. run_step.
    destruct (N.eqb_spec NL c) as [<-|]; [|done].
    apply Forall_app in Hl as [_ Hl]. by inversion Hl.
Qed.

(** A line that starts with [<] or ends with [>] is not matched. *)
Lemma para_exempt (l b : str) pv :
  no_newline l -> starts_with_lt l || ends_with_gt l = true ->
  match_here fM (match_pattern R_paragraph) false pv (l ++ NL :: b) = None.
Proof.
  intros Hl Hx. unfold match_here. cbn [match_pattern R_paragraph cat].
  destruct (at_bol fM (MState pv (l ++ NL :: b) 0 [])) eqn:Hb;
    [rewrite run_bol by done|by rewrite run_not_bol].
  destruct (starts_with_lt l) eqn:Hs.
  - erewrite run_neglook_stop; [done|]. by rewrite lookahead_lt, Hs.
  - rewrite run_neglook_pass by by rewrite lookahead_lt, Hs.
    simpl in Hx. destruct (lookahead_gt_some l b pv 0 [] Hl Hx) as [x Hla].
    by erewrite run_neglook_stop.
Qed.

(** Text without a newline is not matched. *)
Lemma para_no_newline (t : str) pv :
  no_newline t -> match_here fM (match_pattern R_paragraph) false pv t = None.
Proof.
  intros Ht. unfold match_here, R_paragraph, fM. run_step.
  destruct (at_bol _ _); [|done].
  destruct (match t with [] => None | _ => _ end); [done|].
  destruct (rep_greedy _ _ _ _ _); [done|].
  rewrite <- (app_nil_r t).
  apply rep_lazy_none; [by apply no_newline_dot|done|].
  intros a1 a2 ->. run_step. rewrite app_nil_r.
  destruct a2 as [|c a2]; [done|].
  destruct (N.eqb_spec NL c) as [<-|]; [|done].
  apply Forall_app in Ht as [_ Ht]. by inversion Ht.
Qed.

Lemma lastc_elem pv (u : str) :
  u <> [] -> exists d, lastc pv u = Some d /\ d ∈ u.
Proof.
  destruct u as [|c u] using rev_ind; [done|]. intros _.
  exists c. rewrite lastc_snoc. split; [done|].
  apply elem_of_app. right. by left.
Qed.

Lemma render_plain repl (a : str) :
  concat (map (render repl) (map Plain a)) = a.
Proof. induction a as [|c a IH]; [done|]. simpl. by rewrite IH. Qed.

Lemma paragraph_from_line (l b : str) pv :
  no_newline l -> line_start pv ->
  paragraph_from pv (l ++ NL :: b) = paragraph_line l ++ paragraph_from (Some NL) b.
Proof.
  intros Hl Hpv. unfold paragraph_from, paragraph_line.
  replace (l ++ NL :: b) with ((l ++ [NL]) ++ b) by by rewrite <- app_assoc.
  destruct (starts_with_lt l || ends_with_gt l) eqn:Hx.
  - rewrite scan_plain_run.
    + rewrite map_app, concat_app, render_plain. by rewrite lastc_snoc.
    + intros u c v Huv.
      destruct u as [|d u].
      * simpl in Huv. change (c :: v ++ b) with ((c :: v) ++ b).
        rewrite <- Huv, <- app_assoc. by apply para_exempt.
      * destruct (lastc_elem pv (d :: u) ltac:(done)) as (e & Hlast & Hmem).
        rewrite Hlast. apply para_mid. intros ->.
        assert (NL ∈ l) as Hin.
        { clear Hlast. destruct v as [|x v _] using rev_ind.
          - apply app_inj_tail in Huv as [Huv _]. by rewrite Huv.
          - rewrite app_comm_cons, app_assoc in Huv.
            apply app_inj_tail in Huv as [Huv _]. rewrite Huv.
            apply elem_of_app. by left. }
        unfold no_newline in Hl. rewrite Forall_forall in Hl.
        by apply (Hl NL Hin).
  - apply orb_false_iff in Hx as [Hs He].
    rewrite (scan_hit _ _ _ _ _ [(1%nat, l)]).
    + simpl. rewrite lastc_snoc. unfold wrap_p. simpl.
      by rewrite ?app_nil_r, <- ?app_assoc.
    + by destruct l.
    + rewrite <- app_assoc. by apply para_hit.
Qed.

Lemma paragraph_from_tail (t : str) pv :
  no_newline t -> paragraph_from pv t = t.
Proof.
  intros Ht. unfold paragraph_from.
  rewrite <- (app_nil_r t) at 1. rewrite scan_plain_run.
  - rewrite scan_end by (apply para_no_newline; constructor).
    by rewrite app_nil_r, render_plain.
  - intros u c v ->. rewrite app_nil_r. apply para_no_newline.
    by apply Forall_app in Ht as [_ Ht].
Qed.

Lemma paragraph_from_lines (ls : list str) (t : str) pv :
  Forall no_newline ls -> no_newline t -> line_start pv ->
  paragraph_from pv (unlines ls ++ t) = concat (map paragraph_line ls) ++ t.
Proof.
  intros Hls Ht. revert pv. induction Hls as [|l ls Hl Hls IH]; intros pv Hpv.
  - by apply paragraph_from_tail.
  - unfold unlines. simpl. rewrite <- !app_assoc. simpl.
    rewrite paragraph_from_line by done. f_equal. by apply IH.
Qed.

Lemma apply_paragraph (s : str) :
  apply_regex R_paragraph s = Some (paragraph_from None s).
Proof. done. Qed.

(** C1 (as amended).  Rule 11 works line by line: a line that neither
    starts with [<] nor ends with [>] is replaced, newline included, by
    [<p>line</p>]; a line that starts with [<] or ends with [>] is left
    as it is; text after the last newline is left as it is. *)
Theorem paragraph_rule_lines (ls : list str) (t : str) :
  Forall no_newline ls -> no_newline t ->
  apply_regex R_paragraph (unlines ls ++ t)
  = Some (concat (map paragraph_line ls) ++ t).
Proof.
  intros Hls Ht. rewrite apply_paragraph. f_equal.
  by apply paragraph_from_lines.
Qed.

Lemma paragraph_rule_lines_witness :
  apply_regex R_paragraph
    (unlines [lit "plain"; lit "<h1>t</h1>"; lit "a <b>x</b>"; lit "last"] ++ lit "rest")
  = Some (lit "<p>plain</p><h1>t</h1>" ++ [NL] ++ lit "a <b>x</b>" ++ [NL]
          ++ lit "<p>last</p>rest").
Proof.
  apply (paragraph_rule_lines
           [lit "plain"; lit "<h1>t</h1>"; lit "a <b>x</b>"; lit "last"] (lit "rest")).
  - repeat constructor; by vm_compute.
  - repeat constructor; by vm_compute.
Defined.

(** C1 as stated fails: the line [a>] does not start with [<], and rule 11
    leaves it unwrapped, also at the end of [_replace_file_marks]. *)
Lemma paragraph_rule_claimed_fails :
  ~ (forall ls : list str, Forall no_newline ls ->
       apply_regex R_paragraph (unlines ls)
       = Some (concat (map paragraph_line_claimed ls)))
  /\ apply_regex R_paragraph (unlines [lit "a>"]) = Some (unlines [lit "a>"])
  /\ _replace_file_marks (lit "a>") = Some (unlines [lit "a>"]).
Proof.
  split; [|by vm_compute].
  intros H. specialize (H [lit "a>"]).
  assert (Forall no_newline [lit "a>"]) as Hl by (repeat constructor; by vm_compute).
  specialize (H Hl). vm_compute in H. discriminate H.
Qed.

(** ** The loop of [_replace_file_marks] *)

Lemma replace_with_cons x (l : list Regex) (s : str) :
  replace_with (x :: l) s = apply_regex x s ≫= replace_with l.
Proof.
  unfold replace_with. simpl.
  destruct (apply_regex x s) as [s'|]; simpl; [done|].
  induction l as [|y l IH]; [done|]. simpl. apply IH.
Qed.

(** ** Whitespace-only bodies *)

Lemma hits_no_plain f r pv (s : str) c : Plain c ∉ (hits_here f r pv s).1.
Proof.
  unfold hits_here. destruct (match_here f r false pv s) as [[[|n] cs]|]; simpl.
  - destruct (match_here f r true pv s) as [m2|]; simpl; intros H;
      repeat (apply elem_of_cons in H as [H|H]; [done|]); by apply elem_of_nil in H.
  - intros H. apply elem_of_cons in H as [H|H]; [done|]. by apply elem_of_nil in H.
  - apply not_elem_of_nil.
Qed.

Lemma scan_plain_elem f r (s : str) pv skip c :
  Plain c ∈ scan f r pv s skip -> c ∈ s.
Proof.
  revert pv skip. induction s as [|d s IH]; intros pv skip H.
  - destruct skip; cbn [scan] in H; [|by apply elem_of_nil in H].
    pose proof (hits_no_plain f r pv [] c) as Hn.
    destruct (hits_here f r pv []) as [hs n]. done.
  - destruct skip as [|n]; cbn [scan] in H.
    + pose proof (hits_no_plain f r pv (d :: s) c) as Hn.
      destruct (hits_here f r pv (d :: s)) as [hs n]. simpl in Hn.
      apply elem_of_app in H as [H|H]; [done|].
      destruct n as [|n].
      * apply elem_of_cons in H as [H|H].
        -- injection H as ->. by left.
        -- right. by eapply IH.
      * right. by eapply IH.
    + right. by eapply IH.
Qed.

(** Substituting literal text keeps a property that the text and the
    subject's characters have. *)
Lemma re_sub_literal (P : char -> Prop) f r (x s : str) :
  Forall P x -> Forall P s ->
  exists out, re_sub f r [TLit x] s = Some out /\ Forall P out.
Proof.
  intros Hx Hs. eexists. split; [done|].
  unfold re_sub_fun. apply Forall_concat, Forall_map, Forall_forall.
  intros [c|w cs] Hin; simpl.
  - apply scan_plain_elem in Hin. rewrite Forall_forall in Hs.
    constructor; [by apply Hs|constructor].
  - unfold expand. simpl. by rewrite app_nil_r.
Qed.

(** Rule 3 empties a body made of whitespace. *)
Lemma strip_all_space (s : str) :
  all_space s -> apply_regex R_strip s = Some [].
Proof.
  intros Hs. unfold apply_regex, re_sub. simpl template_ok. cbv iota. f_equal.
  unfold re_sub_fun. destruct s as [|c s]; [done|].
  rewrite <- (app_nil_r (c :: s)).
  rewrite (scan_hit _ _ _ _ _ []); [| done |].
  - rewrite scan_end; [done|]. rewrite lastc_cons.
    destruct (lastc_elem (Some c) (c :: s) ltac:(done)) as (d & Hd & _).
    rewrite lastc_cons in Hd. rewrite Hd. done.
  - inversion Hs as [|? ? Hc Hs']; subst.
    unfold match_here. cbn [match_pattern R_strip cat run plus ws one_char].
    cbn [at_bol prev rest]. rewrite app_nil_r. rewrite rep_greedy_S, Hc.
    unfold advance. cbn [pos caps].
    by erewrite rep_greedy_all.
Qed.

(** C9.  On the empty string and on any string made of whitespace only,
    [_replace_file_marks] returns exactly [<p></p>]: rules 1 to 3 leave
    nothing, rule 4 appends a newline, and rule 11 wraps the empty line. *)
Theorem format_body_blank (s : str) :
  all_space s -> _replace_file_marks s = Some (lit "<p></p>").
Proof.
  intros Hs. unfold _replace_file_marks, _REPLACE_REGEXES.
  rewrite replace_with_cons.
  destruct (re_sub_literal (fun c => is_space c = true) NOFLAG
              (match_pattern R_newlines) [NL] s) as (s1 & E1 & H1); [by repeat constructor|done|].
  unfold apply_regex at 1. cbn [rflags match_pattern replace_pattern R_newlines] in *.
  rewrite E1. cbn [mbind option_bind].
  rewrite replace_with_cons.
  destruct (re_sub_literal (fun c => is_space c = true) NOFLAG
              (match_pattern R_spaces) [32] s1) as (s2 & E2 & H2); [by repeat constructor|done|].
  unfold apply_regex at 1. cbn [rflags match_pattern replace_pattern R_spaces] in *.
  rewrite E2. cbn [mbind option_bind].
  rewrite replace_with_cons, strip_all_space by done.
  by vm_compute.
Qed.

Lemma format_body_blank_witness :
  all_space (lit "  " ++ [NL; 9] ++ lit " ")
  /\ _replace_file_marks (lit "  " ++ [NL; 9] ++ lit " ") = Some (lit "<p></p>").
Proof.
  assert (all_space (lit "  " ++ [NL; 9] ++ lit " ")) as H by by repeat constructor.
  split; [exact H|exact (format_body_blank _ H)].
Defined.

(** C4.  A stanza of two lines: the wrapper [<div class=stanza>] holds the
    two interior lines, each wrapped as a paragraph. *)
Theorem format_body_stanza :
  _replace_file_marks (lit "/" ++ [NL] ++ lit "line1" ++ [NL] ++ lit "line2" ++ [NL] ++ lit "/")
  = Some (lit "<div class=stanza>" ++ [NL] ++ wrap_p (lit "line1") ++ wrap_p (lit "line2")
          ++ lit "</div>" ++ [NL]).
Proof. by vm_compute. Qed.

(** ** Placeholders *)

Lemma span_spec p (s a b : str) :
  span p s = (a, b) ->
  s = a ++ b /\ Forall (fun c => p c = true) a
  /\ match b with [] => True | c :: _ => p c = false end.
Proof.
  revert a b. induction s as [|c s IH]; intros a b H; simpl in H.
  - by injection H as <- <-.
  - destruct (p c) eqn:Hc.
    + destruct (span p s) as [a' b'] eqn:E. injection H as <- <-.
      destruct (IH a' b' eq_refl) as (-> & Ha & Hb). by repeat split; [constructor|].
    + injection H as <- <-. by repeat split.
Qed.

(** The pattern matches at a position exactly when a token starts there,
    whatever comes before. *)
Lemma placeholder_here pv (s : str) :
  match_here NOFLAG placeholder false pv s
  = match token_at s with
    | Some (k, r) => Some (Found (length (token k)) [(1%nat, k)])
    | None => None
    end.
Proof.
  unfold match_here, placeholder, token_at. run_step.
  destruct s as [|c s]; [done|]. rewrite N.eqb_sym.
  destruct (c =? DOLLAR) eqn:Hc; [|done].
  destruct (span is_ident_char s) as [a b] eqn:E.
  apply span_spec in E as (-> & Ha & Hb).
  destruct a as [|k ks].
  - simpl. destruct b as [|d b]; [done|]. rewrite rep_greedy_S. by rewrite Hb.
  - inversion Ha as [|? ? Hk Hks]; subst.
    change ((k :: ks) ++ b) with (k :: ks ++ b).
    rewrite rep_greedy_S, Hk. unfold advance. cbn [pos caps].
    destruct b as [|d b].
    + apply rep_greedy_none; [done|done|].
      intros u v ->. cbn [rest]. rewrite app_nil_r.
      destruct v as [|e v]; [done|].
      apply Forall_app in Hks as [_ Hv]. inversion Hv as [|? ? He _]; subst.
      destruct (N.eqb_spec DOLLAR e) as [<-|]; [done|done].
    + destruct (N.eqb_spec d DOLLAR) as [->|Hd].
      * erewrite rep_greedy_longest; [done|done| |by left].
        cbn [rest prev pos caps]. rewrite N.eqb_refl.
        unfold advance. cbn [pos caps rest prev].
        replace (2 + length ks - 1)%nat with (length (k :: ks)) by (simpl; lia).
        change (k :: ks ++ DOLLAR :: b) with ((k :: ks) ++ DOLLAR :: b).
        rewrite take_app_length. unfold token. simpl.
        rewrite length_app. simpl. do 3 f_equal. lia.
      * apply rep_greedy_none; [done|done|].
        intros u v ->. cbn [rest].
        apply Forall_app in Hks as [_ Hv].
        destruct v as [|e v]; simpl.
        -- destruct (N.eqb_spec DOLLAR d) as [<-|]; done.
        -- inversion Hv as [|? ? He _]; subst.
           destruct (N.eqb_spec DOLLAR e) as [<-|]; [done|done].
Qed.

Lemma placeholder_hits pv (s : str) :
  hits_here NOFLAG placeholder pv s
  = match token_at s with
    | Some (k, r) => ([Hit (take (length (token k)) s) [(1%nat, k)]], length (token k))
    | None => ([], 0%nat)
    end.
Proof.
  unfold hits_here. rewrite placeholder_here.
  destruct (token_at s) as [[k r]|]; [|done]. by destruct k.
Qed.

Lemma placeholder_scan_prev (s : str) pv pv' n :
  scan NOFLAG placeholder pv s n = scan NOFLAG placeholder pv' s n.
Proof. destruct s, n; cbn [scan]; by rewrite ?placeholder_hits. Qed.

Lemma span_run p (a b : str) :
  Forall (fun c => p c = true) a ->
  match b with [] => True | c :: _ => p c = false end ->
  span p (a ++ b) = (a, b).
Proof.
  intros Ha Hb. induction a as [|c a IH]; simpl.
  - destruct b as [|c b]; simpl in *; [done|]. by rewrite Hb.
  - inversion Ha as [|? ? Hc Ha']; subst. by rewrite Hc, IH.
Qed.

(** [token_at] finds the token that starts the text. *)
Lemma token_at_token (k r : str) :
  is_ident k -> token_at (token k ++ r) = Some (k, r).
Proof.
  intros [Hne Hk]. unfold token, token_at. simpl.
  rewrite <- app_assoc. simpl. rewrite span_run; [|done|done].
  destruct k; [done|]. by rewrite N.eqb_refl.
Qed.

Lemma token_at_Some (s k r : str) :
  token_at s = Some (k, r) -> s = token k ++ r /\ is_ident k.
Proof.
  unfold token_at. destruct s as [|c s]; [done|].
  destruct (N.eqb_spec c DOLLAR) as [->|]; [|done].
  destruct (span is_ident_char s) as [a b] eqn:E.
  apply span_spec in E as (-> & Ha & Hb).
  destruct a as [|x a]; [done|]. destruct b as [|d b]; [done|].
  destruct (N.eqb_spec d DOLLAR) as [->|]; [|done].
  intros [= <- <-]. split; [|done].
  unfold token. simpl. by rewrite <- app_assoc.
Qed.

Lemma merge_from_prev md pv pv' (s : str) : merge_from md pv s = merge_from md pv' s.
Proof. unfold merge_from. by rewrite (placeholder_scan_prev s pv pv'). Qed.

Lemma merge_from_unfold md pv (s : str) :
  merge_from md pv s
  = match token_at s with
    | Some (k, r) => default (token k) (md !! k) ++ merge_from md None r
    | None =>
        match s with
        | [] => []
        | c :: s' => c :: merge_from md None s'
        end
    end.
Proof.
  unfold merge_from at 1. destruct (token_at s) as [[k r]|] eqn:E.
  - apply token_at_Some in E as [-> Hk].
    rewrite (scan_hit _ _ _ _ _ [(1%nat, k)]); [|done|].
    + simpl. f_equal. apply (merge_from_prev md _ None).
    + rewrite placeholder_here. by rewrite (token_at_token k r Hk).
  - destruct s as [|c s].
    + rewrite scan_end; [done|]. by rewrite placeholder_here, E.
    + rewrite scan_miss by by rewrite placeholder_here, E.
      simpl. f_equal. apply (merge_from_prev md _ None).
Qed.

Lemma merge_template_unfold (body tpl : str) (metadata : gmap str str) :
  _merge_with_template body tpl metadata
  = match token_at tpl with
    | Some (k, r) =>
        default (token k) (<[lit "body" := body]> metadata !! k)
        ++ _merge_with_template body r metadata
    | None =>
        match tpl with
        | [] => []
        | c :: tpl' => c :: _merge_with_template body tpl' metadata
        end
    end.
Proof. apply merge_from_unfold. Qed.

(** C6.  [_merge_with_template] reads the template from left to right: where
    a token [$identifier$] starts, the token is replaced by the value the
    mapping (extended with [body]) has for the identifier, or copied with
    its delimiters when the mapping has none, and reading goes on after the
    token; any other character is copied. *)
Theorem merge_with_template_tokens (body tpl : str) (metadata : gmap str str) :
  _merge_with_template body tpl metadata
  = match token_at tpl with
    | Some (k, r) =>
        default (token k) (<[lit "body" := body]> metadata !! k)
        ++ _merge_with_template body r metadata
    | None =>
        match tpl with
        | [] => []
        | c :: tpl' => c :: _merge_with_template body tpl' metadata
        end
    end.
Proof. apply merge_from_unfold. Qed.

Lemma token_at_other c (s : str) : c <> DOLLAR -> token_at (c :: s) = None.
Proof. intros H. simpl. by destruct (N.eqb_spec c DOLLAR). Qed.

(** C7.  Substitution is a single pass: the value put in place of a token
    goes to the output as it is, whatever it contains, and reading goes on
    in the template after the token. *)
Theorem merge_single_pass (body pre k v post : str) (metadata : gmap str str) :
  Forall (fun c => c <> DOLLAR) pre -> is_ident k ->
  <[lit "body" := body]> metadata !! k = Some v ->
  _merge_with_template body (pre ++ token k ++ post) metadata
  = pre ++ v ++ _merge_with_template body post metadata.
Proof.
  intros Hpre Hk Hv. induction Hpre as [|c pre Hc Hpre IH].
  - rewrite merge_template_unfold.
    change ([] ++ token k ++ post) with (token k ++ post).
    rewrite (token_at_token k post Hk). by rewrite Hv.
  - rewrite merge_template_unfold.
    change ((c :: pre) ++ token k ++ post) with (c :: pre ++ token k ++ post).
    rewrite token_at_other by done. by rewrite IH.
Qed.

Lemma merge_single_pass_witness :
  let metadata : gmap str str :=
    {[ lit "a" := lit "$b$ and $a$"; lit "b" := lit "no" ]} in
  _merge_with_template (lit "B") (lit "x " ++ token (lit "a") ++ lit " y") metadata
  = lit "x " ++ lit "$b$ and $a$" ++ _merge_with_template (lit "B") (lit " y") metadata.
Proof.
  intros metadata. apply merge_single_pass.
  - repeat constructor; by vm_compute.
  - split; [done|repeat constructor].
  - by vm_compute.
Defined.

(** The three cases of C6, one by one. *)
Corollary merge_known_token (body k v r : str) (metadata : gmap str str) :
  is_ident k -> <[lit "body" := body]> metadata !! k = Some v ->
  _merge_with_template body (token k ++ r) metadata
  = v ++ _merge_with_template body r metadata.
Proof.
  intros Hk Hv. rewrite merge_template_unfold.
  rewrite (token_at_token k r Hk). by rewrite Hv.
Qed.

Corollary merge_unknown_token (body k r : str) (metadata : gmap str str) :
  is_ident k -> <[lit "body" := body]> metadata !! k = None ->
  _merge_with_template body (token k ++ r) metadata
  = token k ++ _merge_with_template body r metadata.
Proof.
  intros Hk Hv. rewrite merge_template_unfold.
  rewrite (token_at_token k r Hk). by rewrite Hv.
Qed.

Corollary merge_body_token (body r : str) (metadata : gmap str str) :
  _merge_with_template body (token (lit "body") ++ r) metadata
  = body ++ _merge_with_template body r metadata.
Proof.
  apply merge_known_token.
  - split; [done|repeat constructor].
  - apply lookup_insert_eq.
Qed.

(** ** No exception *)

Lemma replace_with_total (l : list Regex) (s : str) :
  Forall (fun x => template_ok (match_pattern x) (replace_pattern x) = true) l ->
  exists out, replace_with l s = Some out.
Proof.
  intros Hl. revert s. induction Hl as [|x l Hx Hl IH]; intros s.
  - by exists s.
  - rewrite replace_with_cons. unfold apply_regex, re_sub. rewrite Hx. apply IH.
Qed.

Lemma templates_ok :
  Forall (fun x => template_ok (match_pattern x) (replace_pattern x) = true)
         _REPLACE_REGEXES.
Proof. repeat constructor. Qed.

Lemma findall_pairs (r : regex) f (s : str) :
  ngroups r = 2%nat ->
  exists kvs, mapM pair_of (re_findall f r s) = Some kvs.
Proof.
  intros Hr. unfold re_findall, findall_item. rewrite Hr. cbn [seq map].
  induction (scan f r None s 0) as [|p ps [kvs IH]]; [by exists []|].
  destruct p as [c|w cs]; cbn [omap list_omap]; [by exists kvs|].
  cbn [mapM pair_of]. rewrite IH. by eexists.
Qed.

(** C5.  The three functions return a result on every input: no template
    refers to a group its pattern lacks, [dict] gets pairs only, and the
    scans end with the subject. *)
Theorem core_total (unicode_alnum : char -> bool) (s tpl : str)
    (metadata : gmap str str) :
  (exists m rest, _extract_metadata unicode_alnum s = Some (m, rest))
  /\ (exists out, _replace_file_marks s = Some out)
  /\ (exists out, _merge_with_template s tpl metadata = out).
Proof.
  split; [|split].
  - unfold _extract_metadata.
    destruct (re_search _ _ s) as [[start m]|]; [|by eexists _, _].
    destruct (findall_pairs (entry_pattern unicode_alnum) (Flags true false)
                (default [] (group_of (mcaps m) 1)) eq_refl) as [kvs Hk].
    unfold py_dict. rewrite Hk. by eexists _, _.
  - apply replace_with_total, templates_ok.
  - by eexists.
Qed.

(** ** The metadata block *)

Lemma run_Lits {R} f (p s : str) pv n cs (k : mstate -> option R) :
  run f (Lits p) (MState pv s n cs) k
  = if starts p s
    then k (MState (lastc pv p) (drop (length p) s) (n + length p) cs)
    else None.
Proof.
  revert pv s n. induction p as [|c p IH]; intros pv s n.
  - simpl. by rewrite Nat.add_0_r.
  - assert (run f (Lits (c :: p)) (MState pv s n cs) k
            = run f (Lit1 c) (MState pv s n cs) (fun s' => run f (Lits p) s' k)) as ->.
    { destruct p; [|done]. done. }
    simpl. destruct s as [|d s]; [done|]. simpl.
    destruct (N.eqb_spec c d) as [->|]; [|done]. unfold advance. simpl.
    rewrite IH. rewrite lastc_cons.
    by replace (S n + length p)%nat with (n + S (length p))%nat by lia.
Qed.

Lemma occurs_app_r (p a b : str) : occurs p (a ++ b) = false -> occurs p b = false.
Proof.
  induction a as [|c a IH]; [done|]. simpl.
  intros H. apply orb_false_iff in H as [_ H]. by apply IH.
Qed.

Lemma occurs_starts (p a b : str) : occurs p (a ++ b) = false -> starts p b = false.
Proof.
  intros H. apply occurs_app_r in H. destruct b; simpl in H;
    by apply orb_false_iff in H as [H _].
Qed.

Lemma after_first_line_split (u x : str) :
  all_space u -> exists y, after_first_line (u ++ NL :: x) = Some (y ++ x).
Proof.
  intros Hu. induction Hu as [|c u Hc Hu [y IH]].
  - by exists [].
  - simpl. destruct (c =? NL).
    + by exists (u ++ [NL]); rewrite <- app_assoc.
    + rewrite Hc. by exists y.
Qed.

Lemma dot_all (s : str) : Forall (fun c => DOTALL fD || negb (c =? NL) = true) s.
Proof. by apply Forall_forall. Qed.

(** Without such a block the pattern does not match at the start. *)
Lemma block_here_none (s : str) :
  has_block s = false ->
  match_here fD block_pattern false None s = None.
Proof.
  intros H. unfold match_here, block_pattern. cbn [cat].
  rewrite run_bol by done. cbn [run]. rewrite run_Lits.
  unfold has_block in H. destruct (starts (lit "---") s); [|done].
  simpl in H. cbn [star ws one_char rest].
  change (length (lit "---")) with 3%nat.
  destruct (span is_space (drop 3 s)) as [a b] eqn:E.
  apply span_spec in E as (E & Ha & Hb). rewrite E.
  apply rep_greedy_none; [done|done|].
  intros u v ->. cbn [run Lit1 one_char rest].
  destruct (v ++ b) as [|c x] eqn:Ev; [done|].
  destruct (N.eqb_spec NL c) as [<-|]; [|done].
  unfold advance. cbn [pos caps rest prev lazy_star one_char].
  assert (occurs closing x = false) as Hx.
  { apply Forall_app in Ha as [Hu _].
    destruct (after_first_line_split u x Hu) as [y Hy].
    rewrite <- app_assoc, Ev in E. rewrite E, Hy in H.
    by apply occurs_app_r in H. }
  cbn [run lazy_star one_char rest].
  rewrite <- (app_nil_r x) at 1 2.
  apply rep_lazy_none; [apply dot_all|done|].
  intros a1 a2 ->. rewrite app_nil_r. cbn [prev rest pos caps].
  rewrite run_Lits. pose proof (occurs_starts closing a1 a2 Hx) as Hs.
  unfold closing in Hs. by rewrite Hs.
Qed.

Lemma block_mid (s : str) c :
  match_here fD block_pattern false (Some c) s = None.
Proof. unfold match_here, block_pattern. cbn [cat]. by rewrite run_not_bol. Qed.

Lemma block_search_mid (s : str) c n :
  search_from fD block_pattern (Some c) s n = None.
Proof.
  revert c n. induction s as [|d s IH]; intros c n; cbn [search_from];
    rewrite block_mid; [done|apply IH].
Qed.

Lemma block_search (s : str) :
  re_search fD block_pattern s
  = match match_here fD block_pattern false None s with
    | Some m => Some (0%nat, m)
    | None => None
    end.
Proof.
  unfold re_search. destruct s as [|c s]; cbn [search_from];
    destruct (match_here _ _ _ _ _); try done. apply block_search_mid.
Qed.

(** C2 (as amended).  A document that does not open with a block -- its
    first line is not [---] followed by whitespace only, or no later line
    starts with [---] -- is returned unchanged with an empty mapping. *)
Theorem extract_metadata_no_block ua (s : str) :
  has_block s = false -> _extract_metadata ua s = Some (∅, s).
Proof.
  intros H. unfold _extract_metadata. change (Flags false true) with fD.
  by rewrite block_search, block_here_none.
Qed.

Lemma first_line_cmp (u w X Y : str) :
  no_newline w -> all_space u -> u ++ NL :: X = w ++ NL :: Y ->
  exists Z, all_space Z /\ Y = Z ++ X /\ length u = (length w + length Z)%nat.
Proof.
  intros Hw. revert u. induction Hw as [|c w Hc Hw IH]; intros u Hu H.
  - destruct u as [|d u]; simpl in H.
    + injection H as <-. by exists [].
    + injection H as -> <-. exists (u ++ [NL]).
      inversion Hu as [|? ? _ Hu']; subst.
      rewrite <- app_assoc, length_app. simpl.
      split; [|split; [done|lia]].
      apply Forall_app. split; [done|by repeat constructor].
  - destruct u as [|d u]; simpl in H; injection H as E H.
    + by rewrite E in Hc.
    + subst d. inversion Hu as [|? ? _ Hu']; subst.
      destruct (IH u Hu' H) as (Z & HZ & -> & Hlen). exists Z.
      simpl. by rewrite Hlen.
Qed.

Lemma space_prefix (Z X I T : str) :
  all_space Z -> (exists c, c ∈ I /\ is_space c = false) ->
  I ++ T = Z ++ X -> exists I', I = Z ++ I'.
Proof.
  intros HZ. revert I. induction HZ as [|z Z Hz HZ IH]; intros I (c & Hin & Hc) H.
  - by exists I.
  - destruct I as [|i I]; [by apply elem_of_nil in Hin|].
    simpl in H. injection H as -> H.
    apply elem_of_cons in Hin as [->|Hin]; [congruence|].
    destruct (IH I) as [I' ->]; [by exists c|done|]. by exists I'.
Qed.

(** The first place at which [p] starts is unique. *)
Lemma first_unique (p a v a' v' : str) :
  a ++ v = a' ++ v' ->
  starts p v = true -> starts p v' = true ->
  (forall x c y, a = x ++ c :: y -> starts p (c :: y ++ v) = false) ->
  (forall x c y, a' = x ++ c :: y -> starts p (c :: y ++ v') = false) ->
  a = a'.
Proof.
  revert a'. induction a as [|c a IH]; intros a' H Hv Hv' Hm Hm'.
  - destruct a' as [|c' a']; [done|]. simpl in H. subst v.
    specialize (Hm' [] c' a' eq_refl). simpl in Hm'. congruence.
  - destruct a' as [|c' a'].
    + simpl in H. subst v'. specialize (Hm [] c a eq_refl). simpl in Hm. congruence.
    + simpl in H. injection H as -> H. f_equal. apply (IH a' H Hv Hv').
      * intros x d y ->. apply (Hm (c' :: x) d y eq_refl).
      * intros x d y ->. apply (Hm' (c' :: x) d y eq_refl).
Qed.

Lemma occurs_app (p a b : str) : starts p b = true -> occurs p (a ++ b) = true.
Proof.
  intros H. induction a as [|c a IH]; simpl.
  - destruct b; simpl; by rewrite H.
  - rewrite IH. apply orb_true_r.
Qed.

(** An occurrence of the closing text that starts inside [I] lies within
    [I] and the first three characters after it. *)
Lemma closing_early (c : char) (b T : str) :
  starts closing (c :: b ++ closing ++ T) = starts closing (c :: b ++ NL :: lit "--").
Proof. by destruct b as [|b1 [|b2 [|b3 b]]]. Qed.

Lemma block_here_found (w I T : str) :
  all_space w -> no_newline w ->
  (exists c, c ∈ I /\ is_space c = false) ->
  occurs closing (I ++ NL :: lit "--") = false ->
  exists cs,
    match_here fD block_pattern false None (lit "---" ++ w ++ NL :: I ++ closing ++ T)
    = Some (Found (length (lit "---" ++ w ++ NL :: I ++ closing)) cs).
Proof.
  intros Hw Hnl HI Hocc. unfold match_here, block_pattern. cbn [cat].
  rewrite run_bol by done. cbn [run]. rewrite run_Lits.
  change (starts (lit "---") (lit "---" ++ w ++ NL :: I ++ closing ++ T)) with true.
  cbv iota.
  change (drop (length (lit "---")) (lit "---" ++ w ++ NL :: I ++ closing ++ T))
    with (w ++ NL :: I ++ closing ++ T).
  change (length (lit "---")) with 3%nat.
  cbn [star ws one_char rest run Lit1 lazy_star].
  match goal with |- context [rep_greedy _ _ ?k _ _] => set (k1 := k) end.
  assert (exists x, rep_greedy is_space 0 k1 (w ++ NL :: I ++ closing ++ T)
            (MState (lastc None (lit "---")) (w ++ NL :: I ++ closing ++ T) (0 + 3) [])
          = Some x) as [x Hx].
  { apply rep_greedy_complete; [done|].
    unfold k1. cbn [rest]. rewrite N.eqb_refl. unfold advance. cbn [rest pos caps].
    apply rep_lazy_complete; [apply dot_all|].
    cbn [prev rest pos caps]. rewrite run_Lits.
    change (starts (NL :: lit "---") (closing ++ T)) with true. cbv iota.
    by eexists. }
  rewrite Hx. apply rep_greedy_sound in Hx as (u & v & Huv & Hu & Hk).
  unfold k1 in Hk. cbn [rest] in Hk. destruct v as [|c X]; [done|].
  destruct (N.eqb_spec NL c) as [<-|]; [|done].
  unfold advance in Hk. cbn [rest pos caps] in Hk.
  apply rep_lazy_first in Hk as (u2 & v2 & -> & _ & Hk2 & Hmin).
  cbn [prev rest pos caps] in Hk2. rewrite run_Lits in Hk2.
  destruct (starts (NL :: lit "---") v2) eqn:Hs; [|done].
  injection Hk2 as <-. eexists. do 2 f_equal.
  symmetry in Huv.
  destruct (first_line_cmp u w _ _ Hnl Hu Huv) as (Z & HZ & HY & Hlen).
  destruct (space_prefix Z _ I _ HZ HI HY) as [I' ->].
  rewrite <- app_assoc in HY. apply app_inv_head in HY.
  assert (I' = u2) as <-.
  { apply (first_unique closing _ (closing ++ T) _ v2 HY); [done|done| |].
    - intros a c b ->. rewrite closing_early.
      destruct (starts closing (c :: b ++ NL :: lit "--")) eqn:E; [|done].
      apply (occurs_app closing (Z ++ a)) in E.
      rewrite <- !app_assoc in Hocc. rewrite <- app_assoc in E.
      simpl in E, Hocc. congruence.
    - intros a c b ->. specialize (Hmin a c b eq_refl).
      cbn [prev rest pos caps] in Hmin. rewrite run_Lits in Hmin.
      unfold closing. by destruct (starts (NL :: lit "---") (c :: b ++ v2)). }
  rewrite Hlen. change (length (NL :: lit "---")) with 4%nat.
  rewrite !length_app. simpl. rewrite !length_app. simpl. lia.
Qed.

(** C3 (as amended).  When the document starts with [---], then whitespace
    up to the end of the line, then text with something other than
    whitespace in it and no later line starting with [---], then a newline
    and [---]: the block is found, and what [_extract_metadata] returns as
    text is what follows that [---]. *)
Theorem extract_metadata_block ua (w interior rest : str) :
  all_space w -> no_newline w ->
  (exists c, c ∈ interior /\ is_space c = false) ->
  occurs closing (interior ++ NL :: lit "--") = false ->
  exists metadata,
    _extract_metadata ua (lit "---" ++ w ++ NL :: interior ++ closing ++ rest)
    = Some (metadata, rest).
Proof.
  intros Hw Hnl HI Hocc. unfold _extract_metadata. change (Flags false true) with fD.
  rewrite block_search.
  destruct (block_here_found w interior rest Hw Hnl HI Hocc) as [cs ->].
  cbn [mlen mcaps].
  destruct (findall_pairs (entry_pattern ua) (Flags true false)
              (default [] (group_of cs 1)) eq_refl) as [kvs Hk].
  unfold py_dict. rewrite Hk. cbn [mbind option_bind]. eexists. do 2 f_equal.
  rewrite take_0. cbn [app Nat.add].
  replace (lit "---" ++ w ++ NL :: interior ++ closing ++ rest)
    with ((lit "---" ++ w ++ NL :: interior ++ closing) ++ rest).
  - by rewrite drop_app_length.
  - rewrite <- !app_assoc. simpl. by rewrite <- !app_assoc.
Qed.

Lemma extract_metadata_block_witness :
  exists metadata,
    _extract_metadata (fun _ => false)
      (lit "---" ++ lit "  " ++ NL :: (lit "title: T" ++ [NL] ++ lit "--x: y")
       ++ closing ++ NL :: lit "Body")
    = Some (metadata, NL :: lit "Body").
Proof.
  apply (extract_metadata_block (fun _ => false) (lit "  ")
           (lit "title: T" ++ [NL] ++ lit "--x: y") (NL :: lit "Body")).
  - by repeat constructor.
  - repeat constructor; by vm_compute.
  - exists 116. split; [|done]. apply list_elem_of_In. vm_compute. by left.
  - by vm_compute.
Defined.

Lemma extract_metadata_no_block_witness :
  let s := lit "---" ++ NL :: lit "title: T" ++ NL :: lit "Body" in
  has_block s = false /\ _extract_metadata (fun _ => false) s = Some (∅, s).
Proof.
  intros s. assert (has_block s = false) as H by by vm_compute.
  split; [exact H|exact (extract_metadata_no_block (fun _ => false) s H)].
Defined.

(** C2 as stated fails: the line [---x] is not a line that is [---], so the
    document has no well-formed block, and yet the text up to [---] is
    taken as a block and removed. *)
Lemma extract_metadata_unchanged_fails :
  ~ (forall ua (s : str), well_formed_block s = false ->
       _extract_metadata ua s = Some (∅, s))
  /\ snd <$> _extract_metadata (fun _ => false)
       (lit "---" ++ NL :: lit "title: T" ++ NL :: lit "---x" ++ NL :: lit "Body")
     = Some (lit "x" ++ NL :: lit "Body").
Proof.
  split; [|by vm_compute].
  intros H.
  specialize (H (fun _ => false)
    (lit "---" ++ NL :: lit "title: T" ++ NL :: lit "---x" ++ NL :: lit "Body")
    ltac:(by vm_compute)).
  apply (f_equal (fmap snd)) in H. vm_compute in H. discriminate H.
Qed.

(** C3 as stated fails: whitespace before the opening [---] keeps the
    pattern from matching, and the document comes back unchanged. *)
Lemma extract_metadata_leading_space_fails :
  ~ (forall ua (s : str), well_formed_block s = true ->
       exists metadata rest, _extract_metadata ua s = Some (metadata, rest) /\ rest <> s)
  /\ well_formed_block (lit " ---" ++ NL :: lit "title: T" ++ NL :: lit "---" ++ NL :: lit "Body")
     = true
  /\ snd <$> _extract_metadata (fun _ => false)
       (lit " ---" ++ NL :: lit "title: T" ++ NL :: lit "---" ++ NL :: lit "Body")
     = Some (lit " ---" ++ NL :: lit "title: T" ++ NL :: lit "---" ++ NL :: lit "Body").
Proof.
  split; [|split; by vm_compute].
  intros H.
  destruct (H (fun _ => false)
    (lit " ---" ++ NL :: lit "title: T" ++ NL :: lit "---" ++ NL :: lit "Body")
    ltac:(by vm_compute)) as (m & rest & E & Hne).
  apply (f_equal (fmap snd)) in E. vm_compute in E. injection E as E.
  apply Hne. rewrite <- E. by vm_compute.
Qed.

(** ** Rule 9: headings *)

Lemma span_fst_snd p (s : str) : s = (span p s).1 ++ (span p s).2.
Proof.
  destruct (span p s) as [a b] eqn:E. by apply span_spec in E as (-> & _ & _).
Qed.

(** Where a [#] stands, the pattern takes the whitespace after it, newlines
    included, and then the text up to the end of the line. *)
Lemma heading_here pv (s : str) :
  match_here NOFLAG (match_pattern R_heading) false pv s
  = match s with
    | c :: s' =>
        if c =? HASH then
          let '(a, b) := span is_space s' in
          let '(g, _) := span not_nl b in
          Some (Found (length (c :: a ++ g)) [(1%nat, g)])
        else None
    | [] => None
    end.
Proof.
  unfold match_here, R_heading. run_step.
  destruct s as [|c s]; [done|]. rewrite N.eqb_sym.
  destruct (c =? HASH); [|done].
  destruct (span is_space s) as [a b] eqn:Ea.
  destruct (span not_nl b) as [g b'] eqn:Eg.
  apply span_spec in Ea as (-> & Ha & Hb). apply span_spec in Eg as (-> & Hg & Hb').
  unfold advance. cbn [pos caps rest prev].
  apply rep_greedy_longest; [done| |].
  - cbn [prev rest pos caps]. apply rep_greedy_longest; [exact Hg| |].
    + cbn [pos caps]. 
      replace (1 + length a + length g - (1 + length a))%nat with (length g) by lia.
      rewrite take_app_length. simpl. rewrite length_app. do 2 f_equal; lia.
    + destruct b' as [|d b']; [done|]. left. exact Hb'.
  - destruct g as [|d g].
    + simpl in *. destruct b' as [|d b']; [done|]. by left.
    + left. exact Hb.
Qed.

Lemma lstrip_span (l : str) : lstrip l = (span is_space l).2.
Proof.
  induction l as [|c l IH]; [done|]. simpl.
  destruct (is_space c); [|done]. rewrite IH. by destruct (span is_space l).
Qed.


Lemma expand_h1 (g : str) :
  expand (replace_pattern R_heading) [(1%nat, g)] = lit "<h1>" ++ g ++ lit "</h1>".
Proof. unfold expand. simpl. by rewrite ?app_nil_r. Qed.

(** A heading on a line with text after the [#] ends with the line. *)
Lemma heading_hit pv (l b : str) :
  no_newline l -> forallb is_space l = false ->
  match_here NOFLAG (match_pattern R_heading) false pv ((HASH :: l) ++ NL :: b)
  = Some (Found (length (HASH :: l)) [(1%nat, lstrip l)]).
Proof.
  intros Hl Hsp. rewrite heading_here. cbn [app]. rewrite N.eqb_refl.
  rewrite lstrip_span. pose proof (span_fst_snd is_space l) as El.
  destruct (span is_space l) as [a g] eqn:E. simpl in El. cbn [snd].
  apply span_spec in E as (_ & Ha & Hg).
  destruct g as [|d g].
  { rewrite app_nil_r in El. subst a. exfalso.
    assert (forallb is_space l = true); [|congruence].
    apply forallb_forall. intros x Hx. rewrite Forall_forall in Ha.
    apply Ha. by apply list_elem_of_In. }
  rewrite El, <- app_assoc. rewrite span_run; [|done|done].
  rewrite El in Hl. apply Forall_app in Hl as [_ Hl].
  rewrite (span_run not_nl (d :: g) (NL :: b)); [|by apply no_newline_dot|done].
  do 3 f_equal.
Qed.

Lemma heading_miss pv c (s : str) :
  c <> HASH -> match_here NOFLAG (match_pattern R_heading) false pv (c :: s) = None.
Proof. intros H. rewrite heading_here. by destruct (N.eqb_spec c HASH). Qed.

Lemma heading_from_line (l b : str) pv :
  no_newline l -> heading_has_text l = true ->
  heading_from pv (l ++ NL :: b) = heading_line l ++ NL :: heading_from (Some NL) b.
Proof.
  revert pv. induction l as [|c l IH]; intros pv Hl Hok.
  - unfold heading_from. simpl app. by rewrite scan_miss by by apply heading_miss.
  - inversion Hl as [|? ? Hc Hl']; subst.
    unfold heading_has_text, heading_line in *. simpl in Hok |- *.
    destruct (N.eqb_spec c HASH) as [->|Hne].
    + apply negb_true_iff in Hok. unfold heading_from.
      change (HASH :: l ++ NL :: b) with ((HASH :: l) ++ NL :: b).
      rewrite (scan_hit _ _ _ _ _ [(1%nat, lstrip l)]); [|done|by apply heading_hit].
      rewrite scan_miss by by apply heading_miss.
      cbn [map concat render]. rewrite expand_h1. simpl.
      by rewrite <- !app_assoc.
    + unfold heading_from. change ((c :: l) ++ NL :: b) with (c :: l ++ NL :: b).
      rewrite scan_miss by by apply heading_miss.
      cbn [map concat render]. fold (heading_from (Some c) (l ++ NL :: b)).
      rewrite IH; [|done|].
      * unfold heading_line. by destruct (split_hash l) as [[pre post]|].
      * unfold heading_has_text. by destruct (split_hash l) as [[pre post]|].
Qed.

Lemma heading_from_lines (ls : list str) pv :
  Forall no_newline ls -> Forall (fun l => heading_has_text l = true) ls ->
  heading_from pv (unlines ls) = unlines (map heading_line ls).
Proof.
  intros Hnl. revert pv. induction Hnl as [|l ls Hl Hnl IH]; intros pv Hok.
  - unfold heading_from. by rewrite scan_end.
  - inversion Hok as [|? ? Hokl Hok']; subst.
    unfold unlines. simpl. rewrite <- !app_assoc. simpl.
    rewrite heading_from_line by done. do 2 f_equal. by apply IH.
Qed.

Lemma heading_from_prev pv pv' (s : str) skip :
  scan NOFLAG (match_pattern R_heading) pv s skip
  = scan NOFLAG (match_pattern R_heading) pv' s skip.
Proof.
  revert pv pv' skip. induction s as [|c s IH]; intros pv pv' skip.
  - destruct skip; cbn [scan]; [|done]. unfold hits_here. by rewrite !heading_here.
  - destruct skip as [|n]; cbn [scan]; [|apply IH].
    unfold hits_here. rewrite !heading_here.
    destruct (c =? HASH); [|done].
    destruct (span is_space s) as [a b]. destruct (span not_nl b) as [g b']. done.
Qed.

Lemma heading_from_any pv (s : str) : heading_from pv s = heading_from None s.
Proof. unfold heading_from. by rewrite (heading_from_prev pv None). Qed.

(** At a [#] the rule opens a heading. *)
Lemma heading_at_hash pv (y : str) : heading_from pv (HASH :: y) = heading_open y.
Proof.
  unfold heading_open.
  pose proof (heading_here pv (HASH :: y)) as H. cbv beta iota in H.
  rewrite N.eqb_refl in H.
  pose proof (span_fst_snd is_space y) as Ea.
  destruct (span is_space y) as [a b]. cbn [fst snd] in Ea.
  pose proof (span_fst_snd not_nl b) as Eg.
  destruct (span not_nl b) as [g b']. cbn [fst snd] in Eg.
  subst y b. unfold heading_from.
  replace (HASH :: a ++ g ++ b') with ((HASH :: a ++ g) ++ b') in *
    by (cbn [app]; by rewrite <- app_assoc).
  rewrite (scan_hit _ _ _ _ _ [(1%nat, g)]); [|done|exact H].
  cbn [map concat render]. rewrite expand_h1.
  fold (heading_from (lastc pv (HASH :: a ++ g)) b').
  rewrite heading_from_any. by rewrite <- !app_assoc.
Qed.

Lemma heading_not_hash pv c (s : str) :
  c <> HASH -> heading_from pv (c :: s) = c :: heading_from None s.
Proof.
  intros Hc. unfold heading_from. rewrite scan_miss by by apply heading_miss.
  cbn [map concat render app]. f_equal.
  fold (heading_from (Some c) s). apply heading_from_any.
Qed.

Lemma heading_from_nil pv : heading_from pv [] = [].
Proof. unfold heading_from. by rewrite scan_end. Qed.

Lemma span_app_all p (a x : str) :
  Forall (fun c => p c = true) a ->
  span p (a ++ x) = ((a ++ (span p x).1), (span p x).2).
Proof.
  intros Ha. induction Ha as [|c a Hc Ha IH]; [simpl; by destruct (span p x)|].
  cbn [app span]. rewrite Hc, IH. done.
Qed.

Lemma forallb_all_space (l : str) : forallb is_space l = true -> all_space l.
Proof.
  intros H. apply Forall_forall. intros c Hc.
  rewrite forallb_forall in H. apply H. by apply list_elem_of_In.
Qed.

(** An open heading passes over a line of whitespace. *)
Lemma heading_open_space (w x : str) :
  all_space w -> heading_open (w ++ NL :: x) = heading_open x.
Proof.
  intros Hw. unfold heading_open.
  replace (w ++ NL :: x) with ((w ++ [NL]) ++ x) by by rewrite <- app_assoc.
  rewrite span_app_all.
  - by destruct (span is_space x) as [a b].
  - apply Forall_app. split; [exact Hw|]. by repeat constructor.
Qed.

(** It takes the first line that has text, up to the end of that line. *)
Lemma heading_open_text (l x : str) :
  no_newline l -> forallb is_space l = false ->
  heading_open (l ++ NL :: x)
  = lit "<h1>" ++ lstrip l ++ lit "</h1>" ++ NL :: heading_from None x.
Proof.
  intros Hl Hsp. unfold heading_open. rewrite lstrip_span.
  pose proof (span_fst_snd is_space l) as El.
  destruct (span is_space l) as [a g] eqn:E. cbn [fst snd] in *.
  apply span_spec in E as (_ & Ha & Hg).
  destruct g as [|d g].
  { rewrite app_nil_r in El. subst a. exfalso.
    assert (forallb is_space l = true); [|congruence].
    apply forallb_forall. intros c Hc. rewrite Forall_forall in Ha.
    apply Ha. by apply list_elem_of_In. }
  rewrite El, <- app_assoc. rewrite span_run; [|done|done].
  rewrite El in Hl. apply Forall_app in Hl as [_ Hl].
  rewrite (span_run not_nl (d :: g) (NL :: x)); [|by apply no_newline_dot|done].
  by rewrite heading_not_hash.
Qed.

(** At the end of the text it takes what is left. *)
Lemma heading_open_end (t : str) :
  no_newline t -> heading_open t = lit "<h1>" ++ lstrip t ++ lit "</h1>".
Proof.
  intros Ht. unfold heading_open. rewrite lstrip_span.
  pose proof (span_fst_snd is_space t) as El.
  destruct (span is_space t) as [a g]. cbn [fst snd] in *.
  rewrite El in Ht. apply Forall_app in Ht as [_ Hg].
  rewrite <- (app_nil_r g) at 1.
  rewrite (span_run not_nl g []); [|by apply no_newline_dot|done].
  by rewrite heading_from_nil, app_nil_r.
Qed.

Lemma heading_from_end (t : str) pv :
  no_newline t -> heading_from pv t = heading_line t.
Proof.
  revert pv. induction t as [|c t IH]; intros pv Ht; [apply heading_from_nil|].
  inversion Ht as [|? ? Hc Ht']; subst. unfold heading_line. cbn [split_hash].
  destruct (N.eqb_spec c HASH) as [->|Hne].
  - by rewrite heading_at_hash, heading_open_end.
  - rewrite heading_not_hash, IH by done. unfold heading_line.
    by destruct (split_hash t) as [[pre post]|].
Qed.

(** A line whose first [#] has only whitespace after it opens a heading
    that goes on after the line. *)
Lemma heading_from_bare (l x : str) pv :
  no_newline l -> heading_has_text l = false ->
  exists pre post, split_hash l = Some (pre, post)
    /\ heading_from pv (l ++ NL :: x) = pre ++ heading_open x.
Proof.
  revert pv. induction l as [|c l IH]; intros pv Hl Hok; [done|].
  inversion Hl as [|? ? Hc Hl']; subst.
  unfold heading_has_text in *. cbn [split_hash] in *.
  destruct (N.eqb_spec c HASH) as [->|Hne].
  - exists [], l. split; [done|]. apply negb_false_iff in Hok.
    cbn [app]. rewrite heading_at_hash. by apply heading_open_space, forallb_all_space.
  - destruct (split_hash l) as [[pre post]|] eqn:E; [|done].
    destruct (IH (Some c) Hl' Hok) as (pre' & post' & [= <- <-] & E').
    exists (c :: pre), post. split; [done|].
    cbn [app]. rewrite heading_not_hash by done.
    rewrite <- (heading_from_any (Some c)). by rewrite E'.
Qed.

Lemma heading_run_lines (t : str) (ls : list str) :
  Forall no_newline ls -> no_newline t ->
  (forall pv, heading_from pv (unlines ls ++ t) = heading_run None ls t)
  /\ (forall pre, pre ++ heading_open (unlines ls ++ t) = heading_run (Some pre) ls t).
Proof.
  intros Hls Ht. induction Hls as [|l ls Hl Hls [IH1 IH2]].
  - split; [intros pv; by apply heading_from_end|].
    intros pre. cbn [unlines map concat app heading_run]. by rewrite heading_open_end.
  - assert (unlines (l :: ls) ++ t = l ++ NL :: unlines ls ++ t) as ->.
    { unfold unlines. cbn [map concat]. by rewrite <- !app_assoc. }
    split.
    + intros pv. cbn [heading_run]. destruct (heading_has_text l) eqn:Hok.
      * rewrite heading_from_line by done. by rewrite IH1.
      * destruct (heading_from_bare l (unlines ls ++ t) pv Hl Hok)
          as (pre & post & -> & ->). apply IH2.
    + intros pre. cbn [heading_run]. destruct (forallb is_space l) eqn:Hsp.
      * rewrite heading_open_space by by apply forallb_all_space. apply IH2.
      * rewrite heading_open_text by done. by rewrite IH1.
Qed.

(** C10 (as amended).  Rule 9 is not anchored to line starts and goes
    through the lines in order.  A line without [#] is kept.  A line whose
    first [#] is followed, on that line, by something other than whitespace
    becomes the text before the [#] and a heading around the text after the
    [#] and the whitespace that follows it.  A line whose first [#] is
    followed by whitespace only leaves the heading open: it passes over the
    whitespace-only lines that follow and takes the next line with text,
    whole, as its text, or is empty when no such line follows.  A line taken
    by a heading that an earlier line opened is not read again. *)
Theorem heading_rule_lines (ls : list str) (t : str) :
  Forall no_newline ls -> no_newline t ->
  apply_regex R_heading (unlines ls ++ t) = Some (heading_run None ls t).
Proof.
  intros Hls Ht. unfold apply_regex, re_sub. simpl template_ok. cbv iota.
  f_equal. by apply (heading_run_lines t ls Hls Ht).
Qed.

Lemma heading_rule_lines_witness :
  apply_regex R_heading
    (unlines [lit "a # b"; lit "intro"; lit "#"; lit "# Real title"] ++ lit "text")
  = Some (heading_run None [lit "a # b"; lit "intro"; lit "#"; lit "# Real title"]
            (lit "text")).
Proof.
  apply heading_rule_lines; repeat constructor; by vm_compute.
Defined.

(** C10 as stated fails: when only whitespace follows the [#] on its line,
    the heading takes the newline and the next line as well. *)
Lemma heading_rule_blank_fails :
  ~ (forall ls : list str, Forall no_newline ls ->
       apply_regex R_heading (unlines ls) = Some (unlines (map heading_line ls)))
  /\ apply_regex R_heading (unlines [lit "x #"; lit "y"])
     = Some (unlines [lit "x <h1>y</h1>"])
  /\ _replace_file_marks (lit "x #" ++ NL :: lit "y") = Some (unlines [lit "x <h1>y</h1>"])
  /\ _replace_file_marks (lit "a # b") = Some (unlines [lit "a <h1>b</h1>"]).
Proof.
  split; [|repeat split; by vm_compute].
  intros H. specialize (H [lit "x #"; lit "y"]).
  assert (Forall no_newline [lit "x #"; lit "y"]) as Hl
    by (repeat constructor; by vm_compute).
  specialize (H Hl). vm_compute in H. discriminate H.
Qed.

(** ** Running the rules a second time *)

Lemma lsteps_app q (a b : str) :
  lsteps q (a ++ b) = lsteps q a ≫= fun q' => lsteps q' b.
Proof.
  revert q. induction a as [|c a IH]; intros q; [done|]. simpl.
  destruct (lstep q c); [apply IH|done].
Qed.

Lemma lbetter_refl q : lbetter q q.
Proof. right. by left. Qed.

Lemma lbetter_good q : lbetter LGood q.
Proof. by left. Qed.

Lemma lstep_better q q' c q1 :
  lbetter q' q -> lstep q c = Some q1 ->
  exists q1', lstep q' c = Some q1' /\ lbetter q1' q1.
Proof.
  intros [->|[->|[-> [d ->]]]] H.
  - unfold lstep in *. destruct (c =? NL).
    + exists LStart. split; [done|].
      destruct q as [| |e]; [done| |]; try destruct (e =? GT);
        inversion H; apply lbetter_refl.
    + exists LGood. split; [done|apply lbetter_good].
  - exists q1. split; [done|apply lbetter_refl].
  - unfold lstep in *. destruct (c =? NL).
    + destruct (d =? GT); [|done]. injection H as <-.
      exists LStart. split; [done|apply lbetter_refl].
    + injection H as <-. exists (LBad c). split; [done|apply lbetter_refl].
Qed.

Lemma lsteps_better q q' (t : str) q1 :
  lbetter q' q -> lsteps q t = Some q1 ->
  exists q1', lsteps q' t = Some q1' /\ lbetter q1' q1.
Proof.
  revert q q'. induction t as [|c t IH]; intros q q' Hb H; simpl in *.
  - injection H as <-. by exists q'.
  - destruct (lstep q c) as [q2|] eqn:E; [|done].
    destruct (lstep_better q q' c q2 Hb E) as (q2' & -> & Hb2). by eapply IH.
Qed.

Lemma lfinal_better q q' : lbetter q' q -> lfinal q = true -> lfinal q' = true.
Proof. intros [->|[->|[-> _]]]; done. Qed.


Lemma tagged_from_app q (a b : str) :
  tagged_from q (a ++ b) = true ->
  exists q1, lsteps q a = Some q1 /\ tagged_from q1 b = true.
Proof.
  unfold tagged_from. rewrite lsteps_app.
  destruct (lsteps q a) as [q1|]; [|done]. simpl. intros H. by exists q1.
Qed.

Lemma tagged_from_app_intro q q1 (a b : str) :
  lsteps q a = Some q1 -> tagged_from q1 b = true -> tagged_from q (a ++ b) = true.
Proof. unfold tagged_from. rewrite lsteps_app. by intros ->. Qed.

Lemma lagrees_step q c q1 :
  lstep q c = Some q1 -> lagrees (Some c) q1.
Proof.
  unfold lstep, lagrees. simpl. intros H.
  destruct (N.eqb_spec c NL) as [->|Hc].
  - destruct q as [| |d]; [done| |destruct (d =? GT)]; by inversion H.
  - destruct q as [| |d]; injection H as <-; [destruct (c =? LT)| |];
      split; done.
Qed.

Lemma lagrees_steps pv q (a : str) q1 :
  lagrees pv q -> lsteps q a = Some q1 -> lagrees (lastc pv a) q1.
Proof.
  revert pv q. induction a as [|c a IH]; intros pv q Hq H; simpl in H.
  - by injection H as <-.
  - destruct (lstep q c) as [q2|] eqn:E; [|done]. rewrite lastc_cons.
    apply (IH (Some c) q2); [by eapply lagrees_step|done].
Qed.

Section Simulation.
Context (f : flags) (r : regex) (repl : str -> list (nat * str) -> str).

Lemma scan_keeps_tags :
  keeps_tags f r repl ->
  forall n (s : str) pv q q',
    (length s <= n)%nat ->
    lagrees pv q -> lbetter q' q -> tagged_from q s = true ->
    tagged_from q' (concat (map (render repl) (scan f r pv s 0))) = true.
Proof.
  intros HK. induction n as [|n IH]; intros s pv q q' Hn Hq Hb Ht.
  - destruct s; [|simpl in Hn; lia]. simpl. unfold hits_here.
    destruct (match_here f r false pv []) as [m|] eqn:E.
    + destruct (HK pv [] m q q' E Hq Hb Ht) as [Hlen _]. simpl in Hlen. lia.
    + simpl. unfold tagged_from in *. simpl in *. by eapply lfinal_better.
  - destruct s as [|c s].
    { apply (IH [] pv q q'); [simpl; lia|done..]. }
    simpl in Hn. destruct (match_here f r false pv (c :: s)) as [m|] eqn:E.
    + destruct (HK pv (c :: s) m q q' E Hq Hb Ht)
        as [Hlen (q1 & q1' & H1 & H1' & Hb1)].
      destruct m as [k cs]. cbn [mlen mcaps] in *.
      rewrite <- (take_drop k (c :: s)) in Ht |- * at 1.
      rewrite (scan_hit f r _ _ pv cs).
      * cbn [map concat render].
        apply tagged_from_app in Ht as (q2 & H2 & Ht2).
        rewrite H1 in H2. injection H2 as <-.
        apply (tagged_from_app_intro q' q1'); [done|].
        apply (IH _ (lastc pv (take k (c :: s))) q1 q1'); try done.
        -- rewrite length_drop. simpl. lia.
        -- by eapply lagrees_steps.
      * destruct k; [lia|done].
      * rewrite take_drop, length_take. rewrite E. do 2 f_equal. lia.
    + rewrite scan_miss by done. cbn [map concat render app].
      unfold tagged_from in Ht. simpl in Ht.
      destruct (lstep q c) as [q1|] eqn:E1; [|done].
      destruct (lstep_better q q' c q1 Hb E1) as (q1' & E1' & Hb1).
      unfold tagged_from. simpl. rewrite E1'.
      apply (IH s (Some c) q1 q1'); [lia|by eapply lagrees_step|done|done].
Qed.
End Simulation.

Lemma last_default (e c : char) (w : str) :
  default e (last (c :: w)) = default c (last w).
Proof.
  destruct w as [|y w]; [done|]. destruct (last_cons_Some y w) as [z Hz].
  change (last (c :: y :: w)) with (last (y :: w)). by rewrite Hz.
Qed.

Lemma lsteps_inside q (w : str) :
  q <> LStart -> no_newline w ->
  lsteps q w = Some (match q with LBad e => LBad (default e (last w)) | _ => q end).
Proof.
  intros Hq Hw. revert q Hq. induction Hw as [|c w Hc Hw IH]; intros q Hq.
  - by destruct q.
  - simpl. unfold lstep. destruct (N.eqb_spec c NL); [done|].
    destruct q as [| |e]; [done| |].
    + by rewrite IH.
    + rewrite IH by done. by rewrite last_default.
Qed.

Lemma lsteps_text q (w : str) : no_newline w -> lsteps q w = Some (after_text q w).
Proof.
  intros Hw. destruct w as [|c w]; [done|].
  inversion Hw as [|? ? Hc Hw']; subst.
  destruct q as [| |e].
  - simpl. unfold lstep. destruct (N.eqb_spec c NL); [done|].
    destruct (c =? LT); rewrite lsteps_inside by done; [done|].
    by rewrite last_default.
  - by rewrite lsteps_inside.
  - rewrite lsteps_inside by done. simpl. by rewrite !last_default.
Qed.

(** Replacing text within a line leaves the reading at least as well off
    when the new text starts with [<] or as the old one does, and ends
    with [>] or as the old one does. *)
Lemma after_text_better q q' (w r : str) :
  lbetter q' q -> w <> [] -> r <> [] ->
  head r = Some LT \/ head r = head w ->
  last r = Some GT \/ last r = last w ->
  lbetter (after_text q' r) (after_text q w).
Proof.
  intros Hb Hw Hr Hh Hl. destruct r as [|c r]; [done|]. destruct w as [|d w]; [done|].
  simpl in Hh. unfold after_text.
  destruct (last_cons_Some c r) as [x Hx]. destruct (last_cons_Some d w) as [y Hy].
  rewrite Hx, Hy in *. simpl default.
  assert (lbetter (LBad x) (LBad y)) as Hxy.
  { destruct Hl as [[= ->]|[= ->]]; [|apply lbetter_refl].
    right. right. split; [done|]. by eexists. }
  destruct Hb as [->|[->|[-> [e ->]]]]; [apply lbetter_good| |done].
  destruct q as [| |e]; [|apply lbetter_good|done].
  destruct Hh as [[= ->]|[= ->]]; [apply lbetter_good|].
  destruct (d =? LT); [apply lbetter_good|done].
Qed.

Lemma starts_split (p s : str) : starts p s = true -> s = p ++ drop (length p) s.
Proof.
  revert s. induction p as [|c p IH]; intros s H; [done|].
  destruct s as [|d s]; [done|]. simpl in H.
  apply andb_true_iff in H as [Hc H]. apply N.eqb_eq in Hc as ->.
  simpl. f_equal. by apply IH.
Qed.

(** A match of [mark(.*?)mark]: the text between the marks has no newline
    and is what the group holds. *)
Lemma between_here mark pv (s : str) m :
  match_here NOFLAG (between mark) false pv s = Some m ->
  exists g tl, s = lit mark ++ g ++ lit mark ++ tl /\ no_newline g
    /\ m = Found (length (lit mark ++ g ++ lit mark)) [(1%nat, g)].
Proof.
  unfold match_here, between. cbn [cat run]. rewrite run_Lits.
  destruct (starts (lit mark) s) eqn:Hs; [|done].
  apply starts_split in Hs. set (s1 := drop (length (lit mark)) s) in *.
  cbn [lazy_star one_char rest]. intros H.
  apply rep_lazy_first in H as (g & v & Hgv & Hg & Hk & _).
  cbn [prev rest pos caps] in Hk. rewrite run_Lits in Hk.
  destruct (starts (lit mark) v) eqn:Hv; [|done].
  apply starts_split in Hv. injection Hk as <-.
  exists g, (drop (length (lit mark)) v). split; [|split].
  - by rewrite Hs, Hgv, Hv at 1.
  - eapply Forall_impl; [exact Hg|]. intros c Hc. simpl in Hc.
    by destruct (N.eqb_spec c NL).
  - cbn [andb]. f_equal.
    + rewrite !length_app. lia.
    + rewrite Hgv.
      replace (length (lit mark) + length g - length (lit mark))%nat
        with (length g) by lia.
      by rewrite take_app_length.
Qed.

Lemma expand_wrap_in tag (g : str) :
  expand (wrap_in tag) [(1%nat, g)]
  = (LT :: lit tag ++ [GT]) ++ g ++ (LT :: 47 :: lit tag ++ [GT]).
Proof.
  unfold expand, wrap_in. simpl. rewrite ?app_nil_r. by rewrite <- !app_assoc.
Qed.

Lemma no_newline_app (a b : str) : no_newline a -> no_newline b -> no_newline (a ++ b).
Proof. intros Ha Hb. by apply Forall_app. Qed.

(** Rules 5 to 8 keep the lines as rule 11 leaves them. *)
Lemma between_keeps_tags mark tag :
  lit mark <> [] -> no_newline (lit mark) -> no_newline (lit tag) ->
  keeps_tags NOFLAG (between mark) (fun _ cs => expand (wrap_in tag) cs).
Proof.
  intros Hne Hmark Htag pv s m q q' Hm Hq Hb Ht.
  apply between_here in Hm as (g & tl & -> & Hg & ->). cbn [mlen mcaps].
  replace (lit mark ++ g ++ lit mark ++ tl)
    with ((lit mark ++ g ++ lit mark) ++ tl) by by rewrite <- !app_assoc.
  rewrite take_app_length.
  assert (lit mark ++ g ++ lit mark <> []) as Hw by by destruct (lit mark).
  split.
  - split; [|rewrite (length_app (lit mark ++ g ++ lit mark)); lia].
    destruct (lit mark ++ g ++ lit mark); [done|simpl; lia].
  - cbv beta.
    exists (after_text q (lit mark ++ g ++ lit mark)),
      (after_text q' (expand (wrap_in tag) [(1%nat, g)])).
    rewrite (expand_wrap_in tag g). split; [|split].
    + apply lsteps_text. by repeat apply no_newline_app.
    + apply lsteps_text. repeat apply no_newline_app; try done;
        repeat (constructor; [done|]); apply no_newline_app; try done;
        by repeat constructor.
    + apply after_text_better; [done|done|done|by left|left].
      rewrite !app_assoc. change (?x ++ LT :: 47 :: ?y) with (x ++ [LT; 47] ++ y).
      rewrite !app_assoc. by rewrite last_snoc.
Qed.

Lemma spaces_here pv (s : str) m :
  match_here NOFLAG (match_pattern R_spaces) false pv s = Some m ->
  exists u tl, s = 32 :: 32 :: u ++ tl /\ Forall (fun c => c = 32) u
    /\ m = Found (length (32 :: 32 :: u)) [].
Proof.
  unfold match_here, R_spaces. cbn [match_pattern run Lit1 one_char rest].
  destruct s as [|c1 s]; [done|]. rewrite rep_greedy_S.
  destruct (N.eqb_spec 32 c1) as [<-|]; [|done].
  destruct s as [|c2 s]; [done|]. rewrite rep_greedy_S.
  destruct (N.eqb_spec 32 c2) as [<-|]; [|done].
  unfold advance. cbn [pos caps]. intros H.
  apply rep_greedy_sound in H as (u & v & -> & Hu & Hk).
  injection Hk as <-. exists u, v. split; [done|]. split.
  - eapply Forall_impl; [exact Hu|]. intros c Hc. simpl in Hc.
    by apply N.eqb_eq in Hc.
  - done.
Qed.

Lemma last_all (c : char) (u : str) :
  Forall (fun d => d = c) u -> last (c :: u) = Some c.
Proof.
  intros Hu. induction Hu as [|d u -> Hu IH]; [done|].
  by change (last (c :: c :: u)) with (last (c :: u)).
Qed.

(** Rule 2 keeps the lines as rule 11 leaves them. *)
Lemma spaces_keeps_tags :
  keeps_tags NOFLAG (match_pattern R_spaces)
    (fun _ cs => expand (replace_pattern R_spaces) cs).
Proof.
  intros pv s m q q' Hm Hq Hb Ht.
  apply spaces_here in Hm as (u & tl & -> & Hu & ->). cbn [mlen mcaps].
  change (32 :: 32 :: u ++ tl) with ((32 :: 32 :: u) ++ tl).
  rewrite take_app_length. split.
  - rewrite length_app. simpl. lia.
  - exists (after_text q (32 :: 32 :: u)), (after_text q' [32]).
    split; [|split].
    + apply lsteps_text. repeat (constructor; [done|]).
      eapply Forall_impl; [exact Hu|]. by intros c ->.
    + apply (lsteps_text q' [32]). by repeat constructor.
    + apply after_text_better; [done|done|done| |].
      * right. reflexivity.
      * right. change (last (32 :: 32 :: u)) with (last (32 :: u)).
        rewrite (last_all 32 u Hu). reflexivity.
Qed.

(** Rule 10 finds nothing to replace in such a text: a line that is [/]
    is not one that rule 11 leaves alone. *)
Lemma stanza_keeps_tags :
  keeps_tags (rflags R_stanza) (match_pattern R_stanza)
    (fun _ cs => expand (replace_pattern R_stanza) cs).
Proof.
  intros pv s m q q' Hm Hq Hb Ht. exfalso.
  unfold match_here, R_stanza in Hm. cbn [match_pattern rflags cat] in Hm.
  destruct (at_bol (Flags true true) (MState pv s 0 [])) eqn:Hbol;
    [rewrite run_bol in Hm by done|by rewrite run_not_bol in Hm].
  cbn [run] in Hm. rewrite run_Lits in Hm.
  destruct (starts (lit "/" ++ [NL]) s) eqn:Hs; [|done].
  apply starts_split in Hs. rewrite Hs in Ht.
  assert (q = LStart) as ->.
  { apply Hq. unfold at_bol in Hbol. simpl in Hbol. unfold line_start.
    destruct pv as [c|]; [|done]. by apply N.eqb_eq in Hbol. }
  by vm_compute in Ht.
Qed.

Lemma first_newline (a : str) :
  no_newline a \/ exists a1 a2, a = a1 ++ NL :: a2 /\ no_newline a1.
Proof.
  induction a as [|c a [IH|(a1 & a2 & -> & IH)]].
  - left. constructor.
  - destruct (N.eq_dec c NL) as [->|Hc].
    + right. exists [], a. split; [done|constructor].
    + left. by constructor.
  - destruct (N.eq_dec c NL) as [->|Hc].
    + right. exists [], (a1 ++ NL :: a2). split; [done|constructor].
    + right. exists (c :: a1), a2. split; [done|by constructor].
Qed.

(** A line with a [#] and then only whitespace can end only if it started
    with [<]. *)
Lemma hash_then_newline q (a1 rest : str) q1 :
  all_space a1 -> no_newline a1 ->
  lsteps q (HASH :: a1 ++ NL :: rest) = Some q1 -> q = LGood.
Proof.
  intros Hsp Hnl H.
  change (HASH :: a1 ++ NL :: rest) with ((HASH :: a1) ++ NL :: rest) in H.
  rewrite lsteps_app, lsteps_text in H by by constructor.
  assert (exists x, last (HASH :: a1) = Some x /\ (x =? GT) = false)
    as (x & Hx & Hgt).
  { destruct a1 as [|d a1 _] using rev_ind; [by exists HASH|].
    exists d. rewrite app_comm_cons, last_snoc. split; [done|].
    apply Forall_app in Hsp as [_ Hd]. inversion Hd as [|? ? Hd' _]; subst.
    by destruct (N.eqb_spec d GT) as [->|]. }
  destruct q as [| |e]; [|done|]; exfalso;
    unfold after_text in H; rewrite Hx in H; simpl in H;
    unfold lstep in H; simpl in H; by rewrite Hgt in H.
Qed.

(** Rule 9 keeps the lines as rule 11 leaves them. *)
Lemma heading_keeps_tags :
  keeps_tags NOFLAG (match_pattern R_heading)
    (fun _ cs => expand (replace_pattern R_heading) cs).
Proof.
  intros pv s m q q' Hm Hq Hb Ht. rewrite heading_here in Hm.
  destruct s as [|c s]; [done|].
  destruct (N.eqb_spec c HASH) as [->|]; [|done].
  destruct (span is_space s) as [a b] eqn:Ea.
  destruct (span not_nl b) as [g b'] eqn:Eg. injection Hm as <-.
  apply span_spec in Ea as (-> & Ha & _). apply span_spec in Eg as (-> & Hg & _).
  cbn [mlen mcaps].
  replace (HASH :: a ++ g ++ b') with ((HASH :: a ++ g) ++ b')
    in * by (simpl; by rewrite <- app_assoc).
  change (S (length (a ++ g))) with (length (HASH :: a ++ g)).
  rewrite take_app_length. split.
  { rewrite (length_app (HASH :: a ++ g)). simpl. lia. }
  apply tagged_from_app in Ht as (q1 & H1 & _).
  exists q1, (after_text q' (expand (replace_pattern R_heading) [(1%nat, g)])).
  assert (no_newline g) as Hg'.
  { eapply Forall_impl; [exact Hg|]. intros c Hc. unfold not_nl in Hc.
    by destruct (N.eqb_spec c NL). }
  split; [done|]. cbv beta. rewrite expand_h1. split.
  { apply lsteps_text. repeat apply no_newline_app; try done; by repeat constructor. }
  destruct (first_newline a) as [Hnl|(a1 & a2 & -> & Hnl)].
  - assert (q1 = after_text q (HASH :: a ++ g)) as ->.
    { rewrite lsteps_text in H1 by (constructor; [done|by apply no_newline_app]).
      congruence. }
    apply after_text_better; [done|done|done|by left|left].
    change (lit "</h1>") with (lit "</h1" ++ [GT]).
    rewrite !app_assoc. by rewrite last_snoc.
  - apply Forall_app in Ha as [Ha1 _].
    rewrite <- !app_assoc in H1. simpl in H1.
    change (lsteps q (HASH :: a1 ++ NL :: a2 ++ g) = Some q1) in H1.
    apply hash_then_newline in H1 as ->; [|done|done].
    destruct Hb as [->|[->|[_ [e He]]]]; [apply lbetter_good..|done].
Qed.

Lemma rule_keeps_tagged (x : Regex) (t : str) :
  keeps_tags (rflags x) (match_pattern x) (fun _ cs => expand (replace_pattern x) cs) ->
  template_ok (match_pattern x) (replace_pattern x) = true ->
  tagged t = true ->
  exists t', apply_regex x t = Some t' /\ tagged t' = true.
Proof.
  intros HK Hok Ht. unfold apply_regex, re_sub. rewrite Hok. eexists. split; [done|].
  unfold re_sub_fun, tagged.
  apply (scan_keeps_tags _ _ _ HK (length t) t None LStart LStart);
    [done|done|apply lbetter_refl|done].
Qed.

(** *** Rule 1 *)

Lemma newlines_here_none pv (s : str) :
  starts [NL; NL] s = false ->
  match_here NOFLAG (match_pattern R_newlines) false pv s = None.
Proof.
  intros H. unfold match_here, R_newlines. cbn [match_pattern run Lit1 one_char rest].
  destruct s as [|c1 s]; [done|]. rewrite rep_greedy_S. simpl in H.
  destruct (NL =? c1); [|done].
  destruct s as [|c2 s]; [done|]. rewrite rep_greedy_S.
  simpl in H. by destruct (NL =? c2).
Qed.

Lemma tagged_no_blank_line q (u v : str) :
  tagged_from q (u ++ v) = true -> starts [NL; NL] v = false.
Proof.
  intros H. apply tagged_from_app in H as (q1 & _ & H).
  destruct v as [|c1 [|c2 v]]; try done.
  - simpl. by rewrite andb_false_r.
  - simpl. destruct (N.eqb_spec NL c1) as [<-|]; [|done].
    destruct (N.eqb_spec NL c2) as [<-|]; [|done]. exfalso.
    unfold tagged_from in H. simpl in H.
    destruct (lstep q1 NL) as [q2|] eqn:E; [|done].
    assert (q2 = LStart) as ->.
    { unfold lstep in E. simpl in E. destruct q1 as [| |d]; [done| |];
        [|destruct (d =? GT)]; congruence. }
    done.
Qed.

(** There is no blank line for rule 1 to remove. *)
Lemma newlines_tagged (t : str) :
  tagged t = true -> apply_regex R_newlines t = Some t.
Proof.
  intros Ht. unfold apply_regex, re_sub. simpl template_ok. cbv iota. f_equal.
  unfold re_sub_fun. rewrite <- (app_nil_r t) at 1. rewrite scan_plain_run.
  - rewrite scan_end by by apply newlines_here_none.
    by rewrite app_nil_r, render_plain.
  - intros u c v ->. rewrite app_nil_r. apply newlines_here_none.
    by apply (tagged_no_blank_line LStart u).
Qed.

(** ** Rules 3 and 4 *)

Lemma first_non_space (l : str) :
  (exists c, c ∈ l /\ is_space c = false) ->
  exists r e tl, l = r ++ e :: tl /\ all_space r /\ is_space e = false.
Proof.
  intros (c & Hin & Hc). destruct (span is_space l) as [r b] eqn:E.
  apply span_spec in E as (-> & Hr & Hb). destruct b as [|e tl].
  - exfalso. rewrite app_nil_r in Hin. unfold all_space in *.
    rewrite Forall_forall in Hr. specialize (Hr c Hin). congruence.
  - by exists r, e, tl.
Qed.

(** Before a character that is not whitespace, rule 3 matches neither at
    the start of a text that begins with it, nor anywhere later. *)
Lemma strip_here_none pv (r : str) e (tl : str) :
  all_space r -> is_space e = false -> (pv <> None \/ r = []) ->
  match_here NOFLAG (match_pattern R_strip) false pv (r ++ e :: tl) = None.
Proof.
  intros Hr He Hpv. unfold match_here, R_strip.
  cbn [match_pattern cat run plus ws one_char rest].
  assert ((if at_bol NOFLAG (MState pv (r ++ e :: tl) 0 [])
           then rep_greedy is_space 1
                  (fun e0 => if false && (pos e0 =? 0)%nat then None
                             else Some (Found (pos e0) (caps e0)))
                  (r ++ e :: tl) (MState pv (r ++ e :: tl) 0 [])
           else None) = None) as ->.
  { destruct Hpv as [Hpv| ->].
    - destruct pv; [done|congruence].
    - destruct (at_bol _ _); [|done]. simpl app. by rewrite rep_greedy_S, He. }
  destruct r as [|c r].
  - simpl app. by rewrite rep_greedy_S, He.
  - inversion Hr as [|? ? Hc Hr']; subst.
    change ((c :: r) ++ e :: tl) with (c :: r ++ e :: tl).
    rewrite rep_greedy_S, Hc. unfold advance. cbn [pos caps].
    apply rep_greedy_none; [done|done|].
    intros u v ->. unfold at_eol. cbn [rest MULTILINE NOFLAG].
    destruct v as [|d v]; simpl.
    + destruct (N.eqb_spec e NL) as [->|]; [done|done].
    + destruct (v ++ e :: tl) eqn:E; [by destruct v|].
      by rewrite andb_false_r.
Qed.

(** Whitespace that runs to the end of the text is matched whole. *)
Lemma strip_here_tail c (z : str) :
  all_space z -> z <> [] ->
  match_here NOFLAG (match_pattern R_strip) false (Some c) z
  = Some (Found (length z) []).
Proof.
  intros Hz Hne. unfold match_here, R_strip.
  cbn [match_pattern cat run plus ws one_char rest]. cbn [at_bol prev MULTILINE NOFLAG andb].
  destruct z as [|d z]; [done|]. inversion Hz as [|? ? Hd Hz']; subst.
  rewrite rep_greedy_S, Hd. unfold advance. cbn [pos caps].
  by erewrite rep_greedy_all.
Qed.

Lemma strip_here_head (a m : str) :
  all_space a -> a <> [] ->
  match m with [] => True | c :: _ => is_space c = false end ->
  match_here NOFLAG (match_pattern R_strip) false None (a ++ m)
  = Some (Found (length a) []).
Proof.
  intros Ha Hne Hm. unfold match_here, R_strip.
  cbn [match_pattern cat run plus ws one_char rest]. cbn [at_bol prev].
  destruct a as [|d a]; [done|]. inversion Ha as [|? ? Hd Ha']; subst.
  change ((d :: a) ++ m) with (d :: a ++ m).
  rewrite rep_greedy_S, Hd. unfold advance. cbn [pos caps].
  erewrite rep_greedy_longest; [done|done|done|].
  destruct m; [done|by left].
Qed.


Lemma strip_here_end c :
  match_here NOFLAG (match_pattern R_strip) false (Some c) [] = None.
Proof.
  done.
Qed.

Lemma lastc_Some pv (u : str) : u <> [] -> exists d, lastc pv u = Some d.
Proof.
  intros H. destruct (lastc_elem pv u H) as (d & Hd & _). by exists d.
Qed.

Lemma last_suffix (u : str) c (v : str) : last (u ++ c :: v) = last (c :: v).
Proof.
  induction u as [|x u IH]; [done|].
  simpl app. destruct (u ++ c :: v) eqn:E; [by destruct u|].
  by change (last (x :: n :: l)) with (last (n :: l)).
Qed.

Lemma last_elem (l : str) d : last l = Some d -> d ∈ l.
Proof.
  destruct l as [|x l _] using rev_ind; [done|].
  rewrite last_snoc. intros [= ->]. apply elem_of_app. right. by left.
Qed.

(** In a text without whitespace at its ends, followed by whitespace, rule 3
    removes the whitespace at the end and nothing else. *)
Lemma strip_scan_body pv (m z : str) :
  m <> [] -> trimmed m -> all_space z ->
  concat (map (render (fun _ cs => expand (replace_pattern R_strip) cs))
              (scan NOFLAG (match_pattern R_strip) pv (m ++ z) 0)) = m.
Proof.
  intros Hm [Hh Hl] Hz. rewrite scan_plain_run.
  - rewrite map_app, concat_app, render_plain.
    destruct (lastc_Some pv m Hm) as [d ->].
    destruct z as [|c z].
    + rewrite scan_end by apply strip_here_end. simpl. by rewrite app_nil_r.
    + rewrite <- (app_nil_r (c :: z)).
      rewrite (scan_hit _ _ _ _ _ []); [|done|].
      * destruct (lastc_Some (Some d) (c :: z)) as [e ->]; [done|].
        rewrite scan_end by apply strip_here_end. simpl. by rewrite app_nil_r.
      * rewrite app_nil_r. by apply strip_here_tail.
  - intros u c v ->.
    destruct (first_non_space (c :: v)) as (r & e & tl & E & Hr & He).
    { destruct (last_cons_Some c v) as [d Hd]. exists d. split.
      - by apply last_elem.
      - apply Hl. by rewrite last_suffix. }
    change (c :: v ++ z) with ((c :: v) ++ z). rewrite E, <- app_assoc.
    apply strip_here_none; [done|done|].
    destruct u as [|x u].
    + right. destruct r as [|y r]; [done|]. exfalso.
      simpl in E. injection E as -> _. inversion Hr as [|? ? Hy _]; subst.
      specialize (Hh y eq_refl). congruence.
    + left. destruct (lastc_Some pv (x :: u)) as [d ->]; done.
Qed.

Lemma strip_rule (a m z : str) :
  all_space a -> all_space z -> trimmed m ->
  apply_regex R_strip (a ++ m ++ z) = Some m.
Proof.
  intros Ha Hz Hm. destruct m as [|c m].
  { apply strip_all_space. by apply Forall_app. }
  unfold apply_regex, re_sub. simpl template_ok. cbv iota. f_equal.
  unfold re_sub_fun. destruct a as [|d a].
  - by apply (strip_scan_body None (c :: m) z).
  - rewrite (scan_hit _ _ _ _ _ []); [|done|].
    + cbn [map concat render]. by rewrite (strip_scan_body _ (c :: m) z).
    + apply (strip_here_head (d :: a) ((c :: m) ++ z)); [done|done|].
      destruct Hm as [Hh _]. by apply Hh.
Qed.

(** Every text is whitespace, a text without whitespace at its ends, and
    whitespace. *)
Lemma trim_split (t : str) :
  exists a m z, t = a ++ m ++ z /\ all_space a /\ all_space z /\ trimmed m.
Proof.
  destruct (span is_space t) as [a b] eqn:Ea.
  apply span_spec in Ea as (-> & Ha & Hb).
  destruct (span is_space (rev b)) as [zr mr] eqn:Ez.
  apply span_spec in Ez as (Ez & Hzr & Hmr).
  apply (f_equal (@rev N)) in Ez. rewrite rev_involutive, rev_app_distr in Ez.
  exists a, (rev mr), (rev zr). split; [by rewrite Ez|]. split; [done|]. split.
  { unfold all_space. apply Forall_forall. intros x Hx.
    apply list_elem_of_In, in_rev, list_elem_of_In in Hx.
    unfold all_space in Hzr. rewrite Forall_forall in Hzr. by apply Hzr. }
  split.
  - intros c Hc. destruct (rev mr) as [|x l] eqn:E; [done|].
    simpl in Hc. injection Hc as ->. rewrite Ez in Hb. by simpl in Hb.
  - intros d Hd. destruct mr as [|x mr]; [done|].
    simpl in Hd. rewrite last_snoc in Hd. by injection Hd as <-.
Qed.

(** In a text that does not end with a newline, rule 4 matches only at the
    end. *)
Lemma final_here_none pv (s : str) d :
  last s = Some d -> d <> NL ->
  match_here NOFLAG (match_pattern R_final_newline) false pv s = None.
Proof.
  intros Hl Hd. unfold match_here, R_final_newline.
  cbn [match_pattern cat run star Lit1 one_char rest].
  destruct (span (N.eqb NL) s) as [r b] eqn:E.
  apply span_spec in E as (-> & Hr & Hb).
  apply rep_greedy_none; [done|done|].
  intros u v ->. unfold at_eol. cbn [rest MULTILINE NOFLAG orb].
  destruct (v ++ b) as [|c [|c2 l]] eqn:E; [|  |by rewrite andb_false_r].
  - exfalso. apply app_eq_nil in E as [-> ->]. rewrite !app_nil_r in *.
    apply last_elem in Hl. rewrite Forall_forall in Hr.
    specialize (Hr d Hl). apply N.eqb_eq in Hr. congruence.
  - rewrite <- app_assoc, E in Hl. rewrite last_snoc in Hl. injection Hl as ->.
    by destruct (N.eqb_spec d NL).
Qed.

Lemma final_newline_rule (m : str) :
  trimmed m -> apply_regex R_final_newline m = Some (m ++ [NL]).
Proof.
  intros [_ Hl]. unfold apply_regex, re_sub. simpl template_ok. cbv iota. f_equal.
  unfold re_sub_fun. rewrite <- (app_nil_r m) at 1. rewrite scan_plain_run.
  - by rewrite map_app, concat_app, render_plain.
  - intros u c v ->. rewrite app_nil_r.
    destruct (last_cons_Some c v) as [d Hd].
    apply (final_here_none _ _ d); [done|].
    intros ->. specialize (Hl NL). rewrite last_suffix in Hl.
    by specialize (Hl Hd).
Qed.

(** *** Trimming a text that rule 11 leaves alone *)

Lemma bad_space e (s : str) :
  is_space e = true -> all_space s -> tagged_from (LBad e) s = false.
Proof.
  intros He Hs. revert e He. induction Hs as [|c s Hc Hs IH]; intros e He.
  - unfold tagged_from. simpl. by destruct (N.eqb_spec e GT) as [->|].
  - unfold tagged_from. simpl. unfold lstep.
    destruct (c =? NL).
    + by destruct (N.eqb_spec e GT) as [->|].
    + by apply IH.
Qed.

Lemma start_space (s : str) :
  all_space s -> s <> [] -> tagged_from LStart s = false.
Proof.
  intros Hs Hne. destruct s as [|c s]; [done|].
  inversion Hs as [|? ? Hc Hs']; subst.
  unfold tagged_from. simpl. unfold lstep. destruct (c =? NL); [done|].
  destruct (N.eqb_spec c LT) as [->|]; [done|].
  by apply bad_space.
Qed.

Lemma lsteps_bad_space e (s : str) q :
  is_space e = true -> all_space s -> lsteps (LBad e) s = Some q ->
  exists e', q = LBad e' /\ is_space e' = true.
Proof.
  intros He Hs. revert e He. induction Hs as [|c s Hc Hs IH]; intros e He H.
  - injection H as <-. by exists e.
  - simpl in H. unfold lstep in H. destruct (c =? NL).
    + by destruct (N.eqb_spec e GT) as [->|].
    + by apply (IH c).
Qed.

Lemma lsteps_space (s : str) q :
  all_space s -> s <> [] -> lsteps LStart s = Some q ->
  exists e, q = LBad e /\ is_space e = true.
Proof.
  intros Hs Hne H. destruct s as [|c s]; [done|].
  inversion Hs as [|? ? Hc Hs']; subst.
  simpl in H. unfold lstep in H. destruct (c =? NL); [done|].
  destruct (N.eqb_spec c LT) as [->|]; [done|].
  by apply (lsteps_bad_space c s).
Qed.

Lemma lsteps_last q (m : str) d qm :
  lsteps q m = Some qm -> last m = Some d -> d <> NL ->
  qm = LGood \/ qm = LBad d.
Proof.
  intros H Hl Hd. destruct m as [|x m _] using rev_ind; [done|].
  rewrite last_snoc in Hl. injection Hl as ->.
  rewrite lsteps_app in H. destruct (lsteps q m) as [q1|]; [|done].
  simpl in H. unfold lstep in H. destruct (N.eqb_spec d NL); [done|].
  destruct q1 as [| |e]; [destruct (d =? LT)| |]; injection H as <-; auto.
Qed.

Lemma tagged_trim (a m z : str) :
  all_space a -> all_space z -> trimmed m ->
  a ++ m ++ z <> [] -> tagged (a ++ m ++ z) = true ->
  m <> [] /\ tagged (m ++ [NL]) = true.
Proof.
  intros Ha Hz [Hh Hl] Hne Ht.
  destruct m as [|c m].
  { exfalso. simpl in *. rewrite start_space in Ht; [done| |done].
    by apply Forall_app. }
  split; [done|]. specialize (Hh c eq_refl).
  assert (c <> NL) as Hc by by intros ->.
  (* the whitespace before *)
  assert (tagged_from LStart ((c :: m) ++ z) = true) as Ht'.
  { destruct a as [|x a]; [done|]. unfold tagged in Ht.
    apply tagged_from_app in Ht as (qa & Hqa & Ht).
    destruct (lsteps_space (x :: a) qa Ha ltac:(done) Hqa) as (e & -> & _).
    unfold tagged_from in Ht |- *. simpl in Ht |- *. unfold lstep in Ht |- *.
    destruct (N.eqb_spec c NL); [done|].
    destruct (lsteps (LBad c) (m ++ z)) as [q2|] eqn:E2; [|done].
    destruct (c =? LT); [|by rewrite E2].
    destruct (lsteps_better (LBad c) LGood (m ++ z) q2 (lbetter_good _) E2)
      as (q2' & -> & Hb2). by eapply lfinal_better. }
  (* the whitespace after *)
  unfold tagged. apply tagged_from_app in Ht' as (qm & Hqm & Htz).
  apply (tagged_from_app_intro _ qm); [done|].
  destruct (last_cons_Some c m) as [d Hd].
  assert (d <> NL) as Hdn by (intros ->; by specialize (Hl NL Hd)).
  destruct (lsteps_last _ _ d qm Hqm Hd Hdn) as [->| ->]; [done|].
  unfold tagged_from. simpl. unfold lstep. simpl.
  destruct z as [|k z].
  - unfold tagged_from in Htz. simpl in Htz. by rewrite Htz.
  - inversion Hz as [|? ? Hk Hz']; subst.
    unfold tagged_from in Htz. simpl in Htz. unfold lstep in Htz.
    destruct (k =? NL).
    + by destruct (d =? GT).
    + fold (tagged_from (LBad k) z) in Htz. by rewrite bad_space in Htz.
Qed.

(** ** The end of the text through rules 5 to 10 *)

Section LastPiece.
Context (f : flags) (r : regex) (repl : str -> list (nat * str) -> str).
Hypothesis repl_closes : forall w cs, last (repl w cs) = Some GT.

Lemma render_hits_here pv (s : str) :
  let out := concat (map (render repl) (hits_here f r pv s).1) in
  ((hits_here f r pv s).2 <> 0%nat -> out <> [])
  /\ (out = [] \/ last out = Some GT).
Proof.
  unfold hits_here.
  destruct (match_here f r false pv s) as [[k cs]|]; [|by split; [|left]].
  assert (forall w cs' (tl : str), last tl = None \/ last tl = Some GT ->
            last (repl w cs' ++ tl) = Some GT) as Hl.
  { intros w cs' tl Htl. rewrite last_app. destruct Htl as [-> | ->]; [|done].
    apply repl_closes. }
  assert (forall w cs' (tl : str), repl w cs' ++ tl <> []) as Hne.
  { intros w cs' tl E. apply app_eq_nil in E as [E _].
    pose proof (repl_closes w cs') as H. by rewrite E in H. }
  cbn [mlen mcaps]. destruct k as [|k].
  - destruct (match_here f r true pv s) as [[k2 cs2]|]; cbn [fst snd map concat render];
      (split; [intros _; apply Hne|right; apply Hl]).
    + right. rewrite app_nil_r. apply repl_closes.
    + by left.
  - cbn [fst snd map concat render]. split; [intros _; apply Hne|right; apply Hl].
    by left.
Qed.

Lemma scan_nonempty pv (s : str) :
  s <> [] -> concat (map (render repl) (scan f r pv s 0)) <> [].
Proof.
  destruct s as [|c s]; [done|]. intros _. cbn [scan].
  pose proof (render_hits_here pv (c :: s)) as [Hne _].
  destruct (hits_here f r pv (c :: s)) as [hs [|n]]; cbn [fst snd] in *.
  - rewrite map_app, concat_app. simpl. intros E.
    apply app_eq_nil in E as [_ E]. done.
  - rewrite map_app, concat_app. intros E. apply app_eq_nil in E as [E _].
    by apply Hne.
Qed.

Lemma scan_last (s : str) pv n :
  let out := concat (map (render repl) (scan f r pv s n)) in
  out = [] \/ last out = Some GT \/ (s <> [] /\ last out = last s).
Proof.
  revert pv n. induction s as [|c s IH]; intros pv n; cbn zeta.
  - destruct n as [|n]; cbn [scan]; [|by left].
    pose proof (render_hits_here pv []) as [_ H].
    destruct (hits_here f r pv []) as [hs k]. cbn [fst] in H.
    destruct H as [H|H]; [by left|right; by left].
  - destruct n as [|n]; cbn [scan].
    + pose proof (render_hits_here pv (c :: s)) as [Hne Hl].
      destruct (hits_here f r pv (c :: s)) as [hs [|k]]; cbn [fst snd] in *.
      * rewrite map_app, concat_app. cbn [map concat render].
        right. destruct (IH (Some c) 0%nat) as [E|[E|[Hs E]]].
        -- right. split; [done|]. rewrite E, app_nil_r, last_app. simpl.
           destruct s as [|d s]; [done|]. exfalso.
           by apply (scan_nonempty (Some c) (d :: s)).
        -- left. by rewrite !last_app, E.
        -- right. split; [done|]. rewrite last_app, (last_app [c]), E.
           destruct (last_cons_Some c s) as [y Hy].
           destruct s as [|d s]; [done|].
           destruct (last_cons_Some d s) as [z Hz]. rewrite Hz.
           by change (last (c :: d :: s)) with (last (d :: s)).
      * rewrite map_app, concat_app.
        right. destruct (IH (Some c) k) as [E|[E|[Hs E]]].
        -- left. rewrite E, app_nil_r. destruct Hl as [Hl|Hl]; [|done].
           exfalso. by apply Hne.
        -- left. by rewrite last_app, E.
        -- right. split; [done|]. rewrite last_app, E.
           destruct s as [|d s]; [done|].
           destruct (last_cons_Some d s) as [z Hz]. rewrite Hz.
           by change (last (c :: d :: s)) with (last (d :: s)).
    + destruct (IH (Some c) n) as [E|[E|[Hs E]]]; [by left|right; by left|].
      right. right. split; [done|]. rewrite E.
      destruct s as [|d s]; [done|].
      by change (last (c :: d :: s)) with (last (d :: s)).
Qed.
End LastPiece.

Lemma rule_ends_closed (x : Regex) (s : str) :
  closes_tag x -> ends_closed s -> ends_closed (rule_out x s).
Proof.
  intros Hx Hs. unfold rule_out, re_sub_fun.
  assert (s <> []) as Hne by (intros ->; by destruct Hs).
  pose proof (scan_nonempty (rflags x) (match_pattern x) _ (fun _ => Hx) None s Hne) as Ho.
  destruct (scan_last (rflags x) (match_pattern x) _ (fun _ => Hx) s None 0)
    as [E|[E|[_ E]]]; [done|by right|].
  unfold ends_closed. by rewrite E.
Qed.

(** ** Rule 11 and the lines it leaves alone *)

Lemma lines_split (t : str) :
  exists ls tl, t = unlines ls ++ tl /\ Forall no_newline ls /\ no_newline tl.
Proof.
  induction t as [|c t (ls & tl & -> & Hls & Htl)].
  - exists [], []. by repeat split; constructor.
  - destruct (N.eq_dec c NL) as [->|Hc].
    + exists ([] :: ls), tl. repeat split; [|done]. constructor; [constructor|done].
    + destruct ls as [|l ls].
      * exists [], (c :: tl). repeat split; [done|by constructor].
      * inversion Hls as [|? ? Hl Hls']; subst.
        exists ((c :: l) :: ls), tl. repeat split; [|done].
        constructor; [by constructor|done].
Qed.

Lemma tagged_line q (l rest : str) :
  no_newline l -> tagged_from q (l ++ NL :: rest) = true ->
  (q = LStart -> starts_with_lt l || ends_with_gt l = true)
  /\ tagged_from LStart rest = true.
Proof.
  intros Hl H. unfold tagged_from in H. rewrite lsteps_app, lsteps_text in H by done.
  simpl in H. destruct (lstep (after_text q l) NL) as [q1|] eqn:E; [|done].
  assert (q1 = LStart) as ->.
  { unfold lstep in E. simpl in E.
    destruct (after_text q l) as [| |d]; [done| |destruct (d =? GT)]; congruence. }
  split; [|done]. intros ->. destruct l as [|c l]; [done|].
  unfold after_text in E. unfold starts_with_lt, ends_with_gt.
  destruct (c =? LT); [done|]. simpl.
  destruct (last_cons_Some c l) as [d Hd]. rewrite Hd in *. simpl in E.
  unfold lstep in E. simpl in E. by destruct (d =? GT).
Qed.

(** Rule 11 changes nothing in a text whose lines it leaves alone. *)
Lemma paragraph_tagged (t : str) :
  tagged t = true -> apply_regex R_paragraph t = Some t.
Proof.
  intros Ht. destruct (lines_split t) as (ls & tl & -> & Hls & Htl).
  rewrite apply_paragraph, paragraph_from_lines by done. do 2 f_equal.
  unfold tagged in Ht. clear Htl. revert Ht.
  induction Hls as [|l ls Hl Hls IH]; intros Ht; [done|].
  unfold unlines in Ht |- *. simpl in Ht |- *. rewrite <- !app_assoc in Ht.
  apply tagged_line in Ht as [Hx Ht]; [|done].
  unfold paragraph_line at 1. rewrite Hx by done. f_equal. by apply IH.
Qed.

(** After rule 11 every line is one it leaves alone, when the text before
    it ended with a newline or with [>]. *)
Lemma paragraph_makes_tagged (ls : list str) (tl : str) q :
  Forall no_newline ls -> no_newline tl ->
  tl = [] \/ last tl = Some GT ->
  q = LStart \/ q = LGood ->
  tagged_from q (concat (map paragraph_line ls) ++ tl) = true.
Proof.
  intros Hls Htl Hend. revert q. induction Hls as [|l ls Hl Hls IH]; intros q Hq.
  - simpl. unfold tagged_from. rewrite lsteps_text by done.
    destruct Hend as [->|Hend]; [by destruct Hq as [-> | ->]|].
    destruct tl as [|c tl]; [done|]. unfold after_text. rewrite Hend. simpl.
    destruct Hq as [-> | ->]; [|done]. by destruct (c =? LT).
  - cbn [map concat]. rewrite <- app_assoc. unfold paragraph_line at 1.
    destruct (starts_with_lt l || ends_with_gt l) eqn:Hx.
    + rewrite <- app_assoc.
      apply (tagged_from_app_intro q (after_text q l)); [by apply lsteps_text|].
      cbn [app]. unfold tagged_from. cbn [lsteps].
      assert (lstep (after_text q l) NL = Some LStart) as ->.
      { unfold lstep. simpl. destruct l as [|c l].
        - destruct Hq as [-> | ->]; done.
        - unfold after_text. unfold starts_with_lt, ends_with_gt in Hx.
          destruct (last_cons_Some c l) as [d Hd]. rewrite Hd in *. simpl.
          destruct Hq as [-> | ->]; [|done].
          destruct (c =? LT); [done|]. simpl in Hx. by rewrite Hx. }
      apply IH. by left.
    + apply (tagged_from_app_intro q LGood).
      * rewrite lsteps_text.
        -- unfold wrap_p. simpl. by destruct Hq as [-> | ->].
        -- unfold wrap_p. repeat apply no_newline_app; try done; by repeat constructor.
      * apply IH. by right.
Qed.

(** ** Two runs of [_replace_file_marks] *)

Lemma scan_out_nonempty f r (repl : str -> list (nat * str) -> str) pv (s : str) :
  (forall w cs, repl w cs <> []) -> s <> [] ->
  concat (map (render repl) (scan f r pv s 0)) <> [].
Proof.
  intros Hr Hs. destruct s as [|c s]; [done|]. cbn [scan]. unfold hits_here.
  destruct (match_here f r false pv (c :: s)) as [[[|k] cs]|]; cbn [mlen mcaps].
  - destruct (match_here f r true pv (c :: s)) as [[k2 cs2]|];
      cbn [map concat render app]; intros E; apply app_eq_nil in E as [E _];
      by apply Hr in E.
  - cbn [map concat render app]. intros E. apply app_eq_nil in E as [E _].
    by apply Hr in E.
  - done.
Qed.

Lemma replace_with_app (l1 l2 : list Regex) (s : str) :
  replace_with (l1 ++ l2) s = replace_with l1 s ≫= replace_with l2.
Proof.
  revert s. induction l1 as [|x l1 IH]; intros s; [done|].
  simpl app. rewrite !replace_with_cons.
  destruct (apply_regex x s) as [s'|]; [apply IH|done].
Qed.

Lemma apply_rule (x : Regex) (s : str) :
  template_ok (match_pattern x) (replace_pattern x) = true ->
  apply_regex x s = Some (rule_out x s).
Proof. intros H. unfold apply_regex, re_sub. by rewrite H. Qed.

Lemma closes_wrap_in tag cs : last (expand (wrap_in tag) cs) = Some GT.
Proof.
  unfold expand, wrap_in. cbn [map concat]. rewrite app_nil_r.
  change (lit ">") with [GT]. by rewrite !last_app.
Qed.

Lemma closes_stanza : closes_tag R_stanza.
Proof.
  intros cs. unfold expand, R_stanza. cbn [replace_pattern map concat].
  rewrite app_nil_r. by rewrite !last_app.
Qed.

(** The rules of the source, up to rule 4, leave a text that ends with a
    newline. *)
Lemma rules_1_4 (x : str) :
  exists m, replace_with [R_newlines; R_spaces; R_strip; R_final_newline] x
            = Some (m ++ [NL]).
Proof.
  rewrite replace_with_cons, apply_rule by done. cbn [mbind option_bind].
  rewrite replace_with_cons, apply_rule by done. cbn [mbind option_bind].
  destruct (trim_split (rule_out R_spaces (rule_out R_newlines x)))
    as (a & m & z & -> & Ha & Hz & Hm).
  rewrite replace_with_cons, strip_rule by done. cbn [mbind option_bind].
  rewrite replace_with_cons, final_newline_rule by done. by exists m.
Qed.

Lemma rules_5_10 (s : str) :
  ends_closed s ->
  exists w, replace_with [R_bold; R_italic; R_italic_alt; R_strike; R_heading; R_stanza] s
            = Some w /\ ends_closed w.
Proof.
  intros Hs.
  do 6 (rewrite replace_with_cons, apply_rule by done; cbn [mbind option_bind]).
  eexists. split; [done|].
  apply rule_ends_closed; [apply closes_stanza|].
  do 5 (apply rule_ends_closed; [intros cs; apply closes_wrap_in|]). done.
Qed.

(** Every line of what [_replace_file_marks] returns is one that rule 11
    leaves alone. *)
Lemma format_body_tagged (x : str) :
  exists y, _replace_file_marks x = Some y /\ tagged y = true /\ y <> [].
Proof.
  unfold _replace_file_marks, _REPLACE_REGEXES.
  change [R_newlines; R_spaces; R_strip; R_final_newline; R_bold; R_italic;
          R_italic_alt; R_strike; R_heading; R_stanza; R_paragraph]
    with ([R_newlines; R_spaces; R_strip; R_final_newline]
          ++ [R_bold; R_italic; R_italic_alt; R_strike; R_heading; R_stanza]
          ++ [R_paragraph]).
  rewrite replace_with_app.
  destruct (rules_1_4 x) as [m ->]. cbn [mbind option_bind].
  rewrite replace_with_app.
  destruct (rules_5_10 (m ++ [NL])) as (w & -> & Hw).
  { left. by rewrite last_snoc. }
  cbn [mbind option_bind]. rewrite replace_with_cons, apply_paragraph.
  cbn [mbind option_bind]. eexists. split; [done|].
  destruct (lines_split w) as (ls & tl & -> & Hls & Htl).
  rewrite paragraph_from_lines by done. split.
  - apply paragraph_makes_tagged; [done|done| |by left].
    destruct tl as [|c tl]; [by left|right].
    unfold ends_closed in Hw. rewrite last_app in Hw.
    destruct (last_cons_Some c tl) as [d Hd]. rewrite Hd in Hw |- *.
    destruct Hw as [[= ->]|Hw]; [|done].
    apply last_elem in Hd. unfold no_newline in Htl.
    rewrite Forall_forall in Htl. by specialize (Htl NL Hd).
  - destruct ls as [|l ls].
    + simpl. intros ->. by destruct Hw.
    + cbn [map concat]. unfold paragraph_line.
      destruct (starts_with_lt l || ends_with_gt l); [by destruct l|done].
Qed.

(** Run again, rules 1 to 10 keep it that way. *)
Lemma rules_keep_tagged (y : str) :
  tagged y = true -> y <> [] ->
  exists w, replace_with rules_before_paragraph y = Some w /\ tagged w = true.
Proof.
  intros Hy Hne. unfold rules_before_paragraph.
  rewrite replace_with_cons, newlines_tagged by done. cbn [mbind option_bind].
  destruct (rule_keeps_tagged R_spaces y spaces_keeps_tags eq_refl Hy) as (y2 & E2 & H2).
  rewrite replace_with_cons, E2. cbn [mbind option_bind].
  assert (y2 <> []) as Hne2.
  { rewrite apply_rule in E2 by done. injection E2 as <-.
    by apply scan_out_nonempty. }
  destruct (trim_split y2) as (a & m & z & -> & Ha & Hz & Hm).
  rewrite replace_with_cons, strip_rule by done. cbn [mbind option_bind].
  rewrite replace_with_cons, final_newline_rule by done. cbn [mbind option_bind].
  destruct (tagged_trim a m z Ha Hz Hm Hne2 H2) as [_ H4].
  destruct (rule_keeps_tagged R_bold _
              (between_keeps_tags "**" "b" ltac:(done) ltac:(by repeat constructor)
                 ltac:(by repeat constructor)) eq_refl H4) as (t5 & E5 & H5).
  rewrite replace_with_cons, E5. cbn [mbind option_bind].
  destruct (rule_keeps_tagged R_italic _
              (between_keeps_tags "*" "i" ltac:(done) ltac:(by repeat constructor)
                 ltac:(by repeat constructor)) eq_refl H5) as (t6 & E6 & H6).
  rewrite replace_with_cons, E6. cbn [mbind option_bind].
  destruct (rule_keeps_tagged R_italic_alt _
              (between_keeps_tags "_" "i" ltac:(done) ltac:(by repeat constructor)
                 ltac:(by repeat constructor)) eq_refl H6) as (t7 & E7 & H7).
  rewrite replace_with_cons, E7. cbn [mbind option_bind].
  destruct (rule_keeps_tagged R_strike _
              (between_keeps_tags "~~" "s" ltac:(done) ltac:(by repeat constructor)
                 ltac:(by repeat constructor)) eq_refl H7) as (t8 & E8 & H8).
  rewrite replace_with_cons, E8. cbn [mbind option_bind].
  destruct (rule_keeps_tagged R_heading _ heading_keeps_tags eq_refl H8)
    as (t9 & E9 & H9).
  rewrite replace_with_cons, E9. cbn [mbind option_bind].
  destruct (rule_keeps_tagged R_stanza _ stanza_keeps_tags eq_refl H9)
    as (t10 & E10 & H10).
  rewrite replace_with_cons, E10. cbn [mbind option_bind]. by exists t10.
Qed.

(** C8.  Running [_replace_file_marks] on its own result wraps nothing
    again: every line of the first result is one rule 11 leaves alone,
    rules 1 to 10 of the second run keep the lines that way, and rule 11
    then changes nothing. *)
Theorem format_body_twice (x : str) :
  exists y w,
    _replace_file_marks x = Some y
    /\ replace_with rules_before_paragraph y = Some w
    /\ tagged w = true
    /\ apply_regex R_paragraph w = Some w
    /\ _replace_file_marks y = Some w.
Proof.
  destruct (format_body_tagged x) as (y & Ey & Hy & Hne).
  destruct (rules_keep_tagged y Hy Hne) as (w & Ew & Hw).
  exists y, w. repeat split; try done.
  - by apply paragraph_tagged.
  - unfold _replace_file_marks, _REPLACE_REGEXES.
    change [R_newlines; R_spaces; R_strip; R_final_newline; R_bold; R_italic;
            R_italic_alt; R_strike; R_heading; R_stanza; R_paragraph]
      with (rules_before_paragraph ++ [R_paragraph]).
    rewrite replace_with_app, Ew. cbn [mbind option_bind].
    rewrite replace_with_cons, paragraph_tagged by done. done.
Qed.

(** ** The examples of the specification *)

Example extract_metadata_title :
  let r := _extract_metadata (fun _ => false)
             (lit "---" ++ NL :: lit "title: T" ++ NL :: lit "---" ++ NL :: lit "Body") in
  snd <$> r = Some (NL :: lit "Body")
  /\ (r ≫= fun p => p.1 !! lit "title") = Some (lit "T").
Proof. split; by vm_compute. Qed.

Example format_body_marks :
  _replace_file_marks (lit "**bold** *it* _it_ ~~s~~")
  = Some (lit "<b>bold</b> <i>it</i> <i>it</i> <s>s</s>" ++ [NL]).
Proof. by vm_compute. Qed.

Example format_body_title :
  _replace_file_marks (lit "# Title") = Some (lit "<h1>Title</h1>" ++ [NL]).
Proof. by vm_compute. Qed.

Example format_body_blank_lines :
  _replace_file_marks (lit "A" ++ [NL; NL; NL] ++ lit "B")
  = Some (lit "<p>A</p><p>B</p>").
Proof. by vm_compute. Qed.

Example merge_hello :
  _merge_with_template (lit "B") (lit "Hello $name$, $missing$: $body$")
    {[ lit "name" := lit "World" ]}
  = lit "Hello World, $missing$: B".
Proof. by vm_compute. Qed.

Example heading_takes_next_line :
  heading_run None [lit "intro"; lit "#"; lit "# Real title"] (lit "text")
  = unlines [lit "intro"; lit "<h1># Real title</h1>"] ++ lit "text"
  /\ heading_run None [lit "a # b"; lit "x # "; lit "  "] (lit " ")
     = unlines [lit "a <h1>b</h1>"] ++ lit "x <h1></h1>".
Proof. split; by vm_compute. Qed.

(** * Further properties of the three functions *)

(** ** The body before the marks are read *)

(** X1.  After rules 1 to 4 the body is a text without whitespace at either
    end, followed by exactly one newline. *)
Theorem body_normal_form (x : str) :
  exists m,
    replace_with [R_newlines; R_spaces; R_strip; R_final_newline] x = Some (m ++ [NL])
    /\ trimmed m.
Proof.
  rewrite replace_with_cons, apply_rule by done. cbn [mbind option_bind].
  rewrite replace_with_cons, apply_rule by done. cbn [mbind option_bind].
  destruct (trim_split (rule_out R_spaces (rule_out R_newlines x)))
    as (a & m & z & -> & Ha & Hz & Hm).
  rewrite replace_with_cons, strip_rule by done. cbn [mbind option_bind].
  rewrite replace_with_cons, final_newline_rule by done. by exists m.
Qed.

(** X2.  Rule 3 removes the whitespace at the start and at the end of the
    whole body, newlines included, and nothing else. *)
Theorem strip_removes_outer_whitespace (a m z : str) :
  all_space a -> all_space z -> trimmed m ->
  apply_regex R_strip (a ++ m ++ z) = Some m.
Proof. apply strip_rule. Qed.

Lemma strip_removes_outer_whitespace_witness :
  apply_regex R_strip ((NL :: lit "  ") ++ lit "a  b" ++ (lit " " ++ [NL; 9; NL]))
  = Some (lit "a  b").
Proof.
  apply strip_removes_outer_whitespace.
  - by repeat constructor.
  - by repeat constructor.
  - split; intros c [= <-]; done.
Defined.

(** ** What [_replace_file_marks] returns *)

Lemma tagged_lines (ls : list str) (tl : str) :
  Forall no_newline ls -> no_newline tl ->
  tagged (unlines ls ++ tl) = true ->
  Forall (fun l => left_alone l = true) ls /\ (tl = [] \/ left_alone tl = true).
Proof.
  intros Hls Htl. unfold tagged.
  induction Hls as [|l ls Hl Hls IH]; intros Ht.
  - split; [constructor|]. simpl in Ht. unfold tagged_from in Ht.
    rewrite lsteps_text in Ht by done.
    destruct tl as [|c tl]; [by left|right].
    unfold after_text in Ht. unfold left_alone, starts_with_lt, ends_with_gt.
    destruct (c =? LT); [done|]. simpl.
    destruct (last_cons_Some c tl) as [d Hd]. by rewrite Hd in *.
  - unfold unlines in Ht. simpl in Ht. rewrite <- !app_assoc in Ht.
    apply tagged_line in Ht as [Hx Ht]; [|done].
    destruct (IH Ht) as [H1 H2]. split; [|done].
    constructor; [by apply Hx|done].
Qed.

(** X3.  The result of [_replace_file_marks] is never empty, and each of
    its lines starts with [<] or ends with [>]; so does what follows the
    last newline, unless it is empty. *)
Theorem format_body_lines (x : str) :
  exists y,
    _replace_file_marks x = Some y /\ y <> []
    /\ forall ls tl, y = unlines ls ++ tl ->
         Forall no_newline ls -> no_newline tl ->
         Forall (fun l => left_alone l = true) ls
         /\ (tl = [] \/ left_alone tl = true).
Proof.
  destruct (format_body_tagged x) as (y & E & Ht & Hne).
  exists y. split; [done|]. split; [done|].
  intros ls tl -> Hls Htl. by apply tagged_lines.
Qed.

(** X4.  The result of [_replace_file_marks] has no empty line: it does not
    start with a newline and has no two newlines in a row. *)
Theorem format_body_no_empty_line (x : str) :
  exists y,
    _replace_file_marks x = Some y
    /\ head y <> Some NL /\ occurs [NL; NL] y = false.
Proof.
  destruct (format_body_tagged x) as (y & E & Ht & Hne).
  exists y. split; [done|]. split.
  - destruct y as [|c y]; [done|]. intros [= ->]. by vm_compute in Ht.
  - assert (forall u v : str, y = u ++ v -> occurs [NL; NL] v = false) as H.
    { intros u v. revert u. induction v as [|c v IH]; intros u ->; [done|].
      cbn [occurs]. rewrite (tagged_no_blank_line LStart u (c :: v) Ht).
      apply (IH (u ++ [c])). by rewrite <- app_assoc. }
    by apply (H []).
Qed.

(** ** Placeholders in the template *)

(** X5.  A template without [$] comes back unchanged, whatever the body
    and the metadata. *)
Theorem merge_without_dollar (body tpl : str) (metadata : gmap str str) :
  Forall (fun c => c <> DOLLAR) tpl ->
  _merge_with_template body tpl metadata = tpl.
Proof.
  intros H. induction H as [|c tpl Hc H IH].
  - by rewrite merge_template_unfold.
  - rewrite merge_template_unfold, token_at_other by done. by rewrite IH.
Qed.

Lemma merge_without_dollar_witness :
  _merge_with_template (lit "B") (lit "<html>body</html>") {[ lit "body" := lit "x" ]}
  = lit "<html>body</html>".
Proof. apply merge_without_dollar. repeat constructor; by vm_compute. Defined.

(** X6.  [body] is a reserved key: an entry of that name in the metadata is
    overwritten by the formatted body before the template is read. *)
Theorem merge_body_reserved (body tpl v : str) (metadata : gmap str str) :
  _merge_with_template body tpl (<[lit "body" := v]> metadata)
  = _merge_with_template body tpl metadata.
Proof. unfold _merge_with_template. by rewrite insert_insert_eq. Qed.

Lemma merge_from_ext (md md' : gmap str str) :
  (forall k, is_ident k -> md !! k = md' !! k) ->
  forall n (s : str) pv, (length s <= n)%nat -> merge_from md pv s = merge_from md' pv s.
Proof.
  intros Hmd. induction n as [|n IH]; intros s pv Hn.
  - destruct s; [|simpl in Hn; lia]. by rewrite !(merge_from_unfold _ pv []).
  - rewrite (merge_from_unfold md), (merge_from_unfold md').
    destruct (token_at s) as [[k r]|] eqn:E.
    + apply token_at_Some in E as [-> Hk]. rewrite (Hmd k Hk). f_equal.
      apply IH. rewrite length_app in Hn. unfold token in Hn. simpl in Hn. lia.
    + destruct s as [|c s]; [done|]. f_equal. apply IH. simpl in Hn. lia.
Qed.

(** X7.  A metadata key with a character outside letters, digits,
    underscore and hyphen can never be referred to: adding or changing
    such an entry leaves every merge result as it was. *)
Theorem merge_ignores_other_keys (body tpl k v : str) (metadata : gmap str str) :
  not_placeholder_name k ->
  _merge_with_template body tpl (<[k := v]> metadata)
  = _merge_with_template body tpl metadata.
Proof.
  intros (c & Hin & Hc). unfold _merge_with_template.
  apply (merge_from_ext _ _) with (n := length tpl); [|done].
  intros k' [_ Hk'].
  assert (k' <> k) as Hne.
  { intros ->. rewrite Forall_forall in Hk'. specialize (Hk' c Hin). congruence. }
  destruct (decide (k' = lit "body")) as [->|Hb].
  - by rewrite !lookup_insert_eq.
  - rewrite !(lookup_insert_ne _ (lit "body")) by done.
    by rewrite lookup_insert_ne.
Qed.

Lemma merge_ignores_other_keys_witness :
  _merge_with_template (lit "B") (lit "$a b$ $a$") (<[lit "a b" := lit "x"]> ∅)
  = _merge_with_template (lit "B") (lit "$a b$ $a$") ∅.
Proof.
  apply merge_ignores_other_keys. exists 32. split; [|done].
  apply list_elem_of_In. vm_compute. tauto.
Defined.

(** ** Reading the entries of a metadata block *)

Lemma ident_key ua c : is_ident_char c = true -> key_char ua c = true.
Proof.
  intros H. unfold key_char, is_word.
  assert ((c <? 128) = true) as ->; [|exact H].
  apply N.ltb_lt. unfold is_ident_char in H.
  rewrite !orb_true_iff, !andb_true_iff, !N.leb_le, !N.eqb_eq in H. lia.
Qed.

Lemma ident_not_space c : is_ident_char c = true -> is_space c = false.
Proof.
  intros H. destruct (is_space c) eqn:E; [|done]. exfalso.
  unfold is_ident_char, is_space in *.
  rewrite !orb_true_iff, !andb_true_iff, !N.leb_le, !N.eqb_eq in *. lia.
Qed.

Lemma blank_space c : blank c = true -> is_space c = true.
Proof.
  unfold blank. rewrite orb_true_iff, !N.eqb_eq. by intros [->| ->].
Qed.

Lemma blank_not_key ua c : blank c = true -> key_char ua c = false.
Proof.
  unfold blank. rewrite orb_true_iff, !N.eqb_eq. by intros [->| ->].
Qed.


(** After text that ends without whitespace, "\s*$" finds no end of line
    before that text is over. *)
Lemma eol_fail {R} (F : mstate -> R) (w T : str) pv n cs :
  no_newline w -> (exists d, last w = Some d /\ is_space d = false) ->
  rep_greedy is_space 0 (fun s => if at_eol fM s then Some (F s) else None)
    (w ++ T) (MState pv (w ++ T) n cs) = None.
Proof.
  intros Hw (d & Hd & Hsp).
  destruct (span is_space w) as [u w'] eqn:E.
  apply span_spec in E as (-> & Hu & Hw').
  destruct w' as [|c w'].
  - rewrite app_nil_r in Hd. apply last_elem in Hd.
    rewrite Forall_forall in Hu. rewrite (Hu d Hd) in Hsp. done.
  - rewrite <- app_assoc. apply rep_greedy_none; [done|done|].
    intros u1 u2 ->. cbn [at_eol rest].
    apply Forall_app in Hw as [Hw1 Hw2]. apply Forall_app in Hw1 as [_ Hw1].
    destruct u2 as [|e u2]; simpl.
    + inversion Hw2; subst. unfold at_eol. cbn [rest]. by destruct (N.eqb_spec c NL).
    + inversion Hw1; subst. unfold at_eol. cbn [rest]. by destruct (N.eqb_spec e NL).
Qed.

Lemma entry_here ua pv (i k a b v z T : str) :
  pv = None \/ pv = Some NL ->
  all_space i -> is_ident k -> Forall (fun c => blank c = true) a -> all_space b ->
  v <> [] -> no_newline v -> trimmed v -> all_space z ->
  (T = [] \/ exists c T', T = NL :: c :: T' /\ is_space c = false) ->
  match_here fM (entry_pattern ua) false pv (i ++ k ++ a ++ 58 :: b ++ v ++ z ++ T)
  = Some (Found (length (i ++ k ++ a ++ 58 :: b ++ v ++ z)) [(2%nat, v); (1%nat, k)]).
Proof.
  intros Hpv Hi [Hk0 Hk] Ha Hb Hv0 Hv [Hv1 Hv2] Hz HT.
  unfold match_here, entry_pattern. cbn [cat].
  rewrite run_bol by (by destruct Hpv as [-> | ->]).
  run_step. change (fun c => is_word ua c || (c =? 45)) with (key_char ua).
  destruct k as [|c0 k]; [done|]. inversion Hk as [|? ? Hc0 Hk']; subst.
  apply rep_greedy_longest; [exact Hi| |left; by apply ident_not_space].
  cbn [rest]. change ((c0 :: k) ++ a ++ 58 :: b ++ v ++ z ++ T)
    with (c0 :: k ++ a ++ 58 :: b ++ v ++ z ++ T).
  rewrite rep_greedy_S, ident_key by done. unfold advance. cbn [rest pos caps prev].
  apply rep_greedy_longest.
  { eapply Forall_impl; [exact Hk'|]. intros c. apply ident_key. }
  2:{ destruct a as [|c a]; left; [reflexivity|].
      inversion Ha; subst. by apply blank_not_key. }
  cbn [rest pos caps prev].
  apply rep_greedy_longest.
  { eapply Forall_impl; [exact Ha|]. intros c. apply blank_space. }
  2:{ by left. }
  cbn [rest pos caps prev]. rewrite N.eqb_refl. unfold advance. cbn [rest pos caps prev].
  destruct v as [|v0 v]; [done|].
  apply rep_greedy_longest; [exact Hb| |left; by apply Hv1].
  cbn [rest pos caps prev].
  assert (forall X, take (S (0 + length i) + length k - (0 + length i))
                      (c0 :: k ++ X) = c0 :: k) as ->.
  { intros X. replace (S (0 + length i) + length k - (0 + length i))%nat
      with (length (c0 :: k)) by (simpl; lia).
    exact (take_app_length (c0 :: k) X). }
  set (n := (S (S (0 + length i) + length k + length a) + length b)%nat).
  change ((v0 :: v) ++ z ++ T) with (v0 :: v ++ z ++ T).
  inversion Hv as [|? ? Hv0' Hv']; subst.
  cbn [rep_lazy Nat.pred].
  assert (DOTALL fM || negb (v0 =? NL) = true) as -> by (by destruct (N.eqb_spec v0 NL)).
  unfold advance. cbn [rest pos caps prev].
  rewrite rep_lazy_app; [|by apply no_newline_dot|].
  2:{ intros a1 c a2 ->. cbn [rest pos caps prev].
      change (c :: a2 ++ z ++ T) with ((c :: a2) ++ z ++ T).
      apply (eol_fail (fun s => Found (pos s) (caps s))).
      - apply Forall_app in Hv' as [_ Hv']. exact Hv'.
      - destruct (last_cons_Some c a2) as [d Hd]. exists d. split; [done|].
        apply Hv2. change (v0 :: a1 ++ c :: a2) with ((v0 :: a1) ++ c :: a2).
        by rewrite last_suffix. }
  apply rep_lazy_here. cbn [rest pos caps prev].
  assert (take (S n + length v - n) (v0 :: v ++ z ++ T) = v0 :: v) as ->.
  { replace (S n + length v - n)%nat with (length (v0 :: v)) by (simpl; lia).
    exact (take_app_length (v0 :: v) (z ++ T)). }
  assert (length (i ++ (c0 :: k) ++ a ++ 58 :: b ++ (v0 :: v) ++ z)
          = (S n + length v + length z)%nat) as ->.
  { unfold n. rewrite !length_app. simpl. rewrite !length_app. simpl.
    rewrite !length_app. simpl. lia. }
  destruct HT as [->|(c & T' & -> & Hc)].
  - rewrite app_nil_r. by apply rep_greedy_all.
  - apply (rep_greedy_back _ _ z [NL] (c :: T')).
    + apply Forall_app. split; [exact Hz|]. by repeat constructor.
    + done.
    + intros [|? ?] e w E; [|by destruct l]. injection E as <- <-.
      unfold at_eol. cbn [rest app]. by destruct (N.eqb_spec c NL) as [->|].
    + done.
Qed.

Lemma entry_text_app (e : meta_entry) (T : str) :
  entry_text e ++ T
  = e_key e ++ e_gap e ++ 58 :: e_pad e ++ e_value e ++ e_trail e ++ T.
Proof. unfold entry_text. rewrite <- !app_assoc. simpl. by rewrite <- !app_assoc. Qed.

Lemma join_cons (e : meta_entry) (es : list meta_entry) :
  join_lines (map entry_text (e :: es)) = entry_text e ++ block_tail es.
Proof. destruct es; simpl; [by rewrite app_nil_r|done]. Qed.

Lemma block_tail_shape (es : list meta_entry) :
  Forall entry_ok es ->
  block_tail es = [] \/ exists c T', block_tail es = NL :: c :: T' /\ is_space c = false.
Proof.
  intros H. destruct es as [|e es]; [by left|right].
  inversion H as [|? ? He _]; subst. destruct He as ([Hk0 Hk] & _).
  unfold block_tail. rewrite join_cons. unfold entry_text.
  destruct (e_key e) as [|c k]; [done|]. inversion Hk; subst.
  eexists c, _. split; [done|]. by apply ident_not_space.
Qed.

Lemma entry_none_nil ua pv : match_here fM (entry_pattern ua) false pv [] = None.
Proof.
  unfold match_here, entry_pattern. cbn [cat]. cbn [run]. by destruct (at_bol _ _).
Qed.

Lemma entry_items_plain ua c l : entry_items ua (Plain c :: l) = entry_items ua l.
Proof. done. Qed.

Lemma entry_scan ua (i : str) (e : meta_entry) (es : list meta_entry) pv :
  pv = None \/ pv = Some NL -> i = [] \/ i = [NL] ->
  entry_ok e -> Forall entry_ok es ->
  exists pv',
    entry_items ua (scan fM (entry_pattern ua) pv (i ++ entry_text e ++ block_tail es) 0)
    = entry_item e :: entry_items ua (scan fM (entry_pattern ua) pv' (block_tail es) 0).
Proof.
  intros Hpv Hi (Hk & Ha & Hb & Hv0 & Hv & Hvt & Hz) Hes.
  exists (lastc pv (i ++ entry_text e)).
  rewrite app_assoc. rewrite scan_hit with (cs := [(2%nat, e_value e); (1%nat, e_key e)]).
  - done.
  - unfold entry_text. destruct Hk as [Hk _]. destruct Hi as [-> | ->]; [|done].
    by destruct (e_key e).
  - rewrite <- app_assoc, entry_text_app.
    rewrite (entry_here ua pv i); try done.
    + destruct Hi as [-> | ->]; by repeat constructor.
    + by apply block_tail_shape.
Qed.

Lemma block_tail_scan ua (es : list meta_entry) pv :
  Forall entry_ok es ->
  entry_items ua (scan fM (entry_pattern ua) pv (block_tail es) 0) = map entry_item es.
Proof.
  intros H. revert pv. induction H as [|e es He Hes IH]; intros pv.
  - cbn [block_tail map]. by rewrite scan_end by apply entry_none_nil.
  - unfold block_tail. rewrite join_cons.
    assert (pv = None \/ pv = Some NL \/ exists d, pv = Some d /\ d <> NL) as Hpv.
    { destruct pv as [d|]; [|by left]. right.
      destruct (N.eq_dec d NL) as [->|]; [by left|right; by exists d]. }
    destruct Hpv as [Hpv|[Hpv|(d & -> & Hd)]].
    + destruct (entry_scan ua [NL] e es pv) as [pv' E]; try done; [by left|by right|].
      cbn [app] in E. rewrite E. cbn [map]. by rewrite IH.
    + destruct (entry_scan ua [NL] e es pv) as [pv' E]; try done; [by right|by right|].
      cbn [app] in E. rewrite E. cbn [map]. by rewrite IH.
    + rewrite scan_miss.
      * destruct (entry_scan ua [] e es (Some NL)) as [pv' E]; try done; [by right|by left|].
        cbn [app] in E. rewrite entry_items_plain, E. cbn [map]. by rewrite IH.
      * unfold match_here, entry_pattern. cbn [cat]. apply run_not_bol.
        unfold at_bol. cbn [prev]. by destruct (N.eqb_spec d NL).
Qed.

Lemma entries_findall ua (es : list meta_entry) :
  Forall entry_ok es ->
  re_findall fM (entry_pattern ua) (join_lines (map entry_text es)) = map entry_item es.
Proof.
  intros H. destruct H as [|e es He Hes].
  - cbn [map join_lines]. unfold re_findall.
    by rewrite scan_end by apply entry_none_nil.
  - rewrite join_cons.
    destruct (entry_scan ua [] e es None) as [pv' E]; try done; [by left|by left|].
    cbn [app] in E. unfold re_findall. fold (entry_items ua (scan fM (entry_pattern ua) None
      (entry_text e ++ block_tail es) 0)). rewrite E. cbn [map]. f_equal.
    by apply block_tail_scan.
Qed.

Lemma dict_items (es : list meta_entry) :
  py_dict (map entry_item es) = Some (entries_map es).
Proof.
  unfold py_dict, entries_map.
  assert (mapM pair_of (map entry_item es)
          = Some (map (fun e => (e_key e, e_value e)) es)) as ->.
  { induction es as [|e es IH]; [done|]. simpl. by rewrite IH. }
  simpl. f_equal. generalize (∅ : gmap (list N) (list N)).
  induction es as [|e es IH]; intros m; [done|]. simpl. apply IH.
Qed.

Lemma block_here_group (w I T : str) :
  all_space w -> no_newline w ->
  (forall c, head I = Some c -> is_space c = false) -> I <> [] ->
  occurs closing (I ++ NL :: lit "--") = false ->
  match_here fD block_pattern false None (lit "---" ++ w ++ NL :: I ++ closing ++ T)
  = Some (Found (length (lit "---" ++ w ++ NL :: I ++ closing)) [(1%nat, I)]).
Proof.
  intros Hw Hnl HI HI0 Hocc. unfold match_here, block_pattern. cbn [cat].
  rewrite run_bol by done. cbn [run]. rewrite run_Lits.
  change (starts (lit "---") (lit "---" ++ w ++ NL :: I ++ closing ++ T)) with true.
  cbv iota.
  change (drop (length (lit "---")) (lit "---" ++ w ++ NL :: I ++ closing ++ T))
    with (w ++ NL :: I ++ closing ++ T).
  change (length (lit "---")) with 3%nat.
  cbn [star ws one_char rest run Lit1 lazy_star].
  destruct I as [|c0 I]; [done|]. specialize (HI c0 eq_refl).
  apply (rep_greedy_back _ _ w [NL] ((c0 :: I) ++ closing ++ T)).
  - apply Forall_app. split; [exact Hw|]. by repeat constructor.
  - exact HI.
  - intros [|? ?] e x E; [|by destruct l]. injection E as <- <-.
    cbn [rest app]. by destruct (N.eqb_spec NL c0) as [<-|].
  - cbn [rest app]. rewrite N.eqb_refl. unfold advance. cbn [rest pos caps prev].
    rewrite (rep_lazy_app _ _ (c0 :: I) (closing ++ T)); [|apply dot_all|].
    2:{ intros a c b E. cbn [prev rest pos caps]. rewrite run_Lits.
        fold closing. rewrite closing_early.
        destruct (starts closing (c :: b ++ NL :: lit "--")) eqn:Es; [|done].
        apply (occurs_app closing a) in Es. rewrite E in Hocc.
        rewrite <- app_assoc in Hocc. simpl in Hocc, Es. congruence. }
    apply rep_lazy_here. cbn [prev rest pos caps]. rewrite run_Lits.
    change (starts (NL :: lit "---") (closing ++ T)) with true. cbv iota.
    cbn [pos caps]. f_equal. f_equal.
    + change (length (NL :: lit "---")) with 4%nat.
      rewrite !length_app. simpl. rewrite !length_app. simpl. lia.
    + f_equal. f_equal.
      replace (S (0 + 3 + length w) + length (c0 :: I) - S (0 + 3 + length w))%nat
        with (length (c0 :: I)) by lia.
      exact (take_app_length (c0 :: I) (closing ++ T)).
Qed.

Lemma entries_map_last (es1 es2 : list meta_entry) (e : meta_entry) :
  Forall (fun e' => e_key e' <> e_key e) es2 ->
  entries_map (es1 ++ e :: es2) !! e_key e = Some (e_value e).
Proof.
  intros H. unfold entries_map. rewrite foldl_app. cbn [foldl].
  assert (forall m : gmap str str, m !! e_key e = Some (e_value e) ->
            foldl (fun m e' => <[e_key e' := e_value e']> m) m es2 !! e_key e
            = Some (e_value e)) as Hm.
  { induction H as [|e' es2 Hne H IH]; intros m Hl; [done|].
    cbn [foldl]. apply IH. by rewrite lookup_insert_ne. }
  apply Hm. by rewrite lookup_insert_eq.
Qed.

Lemma block_text_head (e : meta_entry) (es : list meta_entry) :
  entry_ok e ->
  block_text (e :: es) <> []
  /\ forall c, head (block_text (e :: es)) = Some c -> is_space c = false.
Proof.
  intros ([Hk0 Hk] & _). unfold block_text. rewrite join_cons. unfold entry_text.
  destruct (e_key e) as [|c k]; [done|]. inversion Hk; subst.
  split; [done|]. intros ? [= <-]. by apply ident_not_space.
Qed.

Lemma block_here_entries ua (w rest : str) (es : list meta_entry) :
  all_space w -> no_newline w ->
  es <> [] -> Forall entry_ok es ->
  occurs closing (block_text es ++ NL :: lit "--") = false ->
  _extract_metadata ua (lit "---" ++ w ++ NL :: block_text es ++ closing ++ rest)
  = Some (entries_map es, rest).
Proof.
  intros Hw Hnl Hes Hok Hocc. destruct es as [|e es]; [done|].
  inversion Hok as [|? ? He _]; subst.
  destruct (block_text_head e es He) as [Hne Hhd].
  unfold _extract_metadata. change (Flags false true) with fD.
  rewrite block_search, block_here_group by done. cbn [mlen mcaps group_of Nat.eqb default].
  change (Flags true false) with fM.
  pose proof (entries_findall ua (e :: es) Hok) as Hf.
  fold (block_text (e :: es)) in Hf. unfold id. rewrite Hf, dict_items. cbn [mbind option_bind].
  do 2 f_equal. rewrite take_0. cbn [app Nat.add].
  replace (lit "---" ++ w ++ NL :: block_text (e :: es) ++ closing ++ rest)
    with ((lit "---" ++ w ++ NL :: block_text (e :: es) ++ closing) ++ rest).
  - by rewrite drop_app_length.
  - rewrite <- !app_assoc. simpl. by rewrite <- !app_assoc.
Qed.

(** X8.  A document that opens with a [---] line, then entries [key: value]
    one after the other, each with its key at the start of a line, then the
    first line that starts with [---]: the mapping
    returned has each key with its value, a later entry replacing an
    earlier one of the same key, and the text returned is what follows the
    closing [---]. *)
Theorem extract_metadata_entries ua (w rest : str) (es : list meta_entry) :
  all_space w -> no_newline w ->
  es <> [] -> Forall entry_ok es ->
  occurs closing (block_text es ++ NL :: lit "--") = false ->
  _extract_metadata ua (lit "---" ++ w ++ NL :: block_text es ++ closing ++ rest)
  = Some (entries_map es, rest).
Proof. apply block_here_entries. Qed.

Lemma extract_metadata_entries_witness :
  _extract_metadata (fun _ => false)
    (lit "---" ++ lit " " ++ NL ::
       block_text [MetaEntry (lit "title") [] (lit " ") (lit "My Page") [];
                   MetaEntry (lit "author-1") (lit " ") [] (lit "A") (lit "  ")]
       ++ closing ++ NL :: lit "Body")
  = Some (entries_map
            [MetaEntry (lit "title") [] (lit " ") (lit "My Page") [];
             MetaEntry (lit "author-1") (lit " ") [] (lit "A") (lit "  ")],
          NL :: lit "Body").
Proof.
  apply extract_metadata_entries.
  - by repeat constructor.
  - repeat constructor; done.
  - done.
  - repeat constructor; try done;
      intros c H; vm_compute in H; injection H as <-; reflexivity.
  - reflexivity.
Defined.

(** X9.  When a key stands more than once in the block, the value of its
    last entry is the one returned. *)
Theorem extract_metadata_last_wins ua (w rest : str)
    (es1 es2 : list meta_entry) (e : meta_entry) :
  all_space w -> no_newline w ->
  Forall entry_ok (es1 ++ e :: es2) ->
  occurs closing (block_text (es1 ++ e :: es2) ++ NL :: lit "--") = false ->
  Forall (fun e' => e_key e' <> e_key e) es2 ->
  exists metadata,
    _extract_metadata ua
      (lit "---" ++ w ++ NL :: block_text (es1 ++ e :: es2) ++ closing ++ rest)
    = Some (metadata, rest)
    /\ metadata !! e_key e = Some (e_value e).
Proof.
  intros Hw Hnl Hok Hocc Hlast. exists (entries_map (es1 ++ e :: es2)). split.
  - rewrite (block_here_entries ua w rest (es1 ++ e :: es2)); try done.
    by destruct es1.
  - by apply entries_map_last.
Qed.

Lemma extract_metadata_last_wins_witness :
  exists metadata,
    _extract_metadata (fun _ => false)
      (lit "---" ++ [] ++ NL ::
         block_text ([MetaEntry (lit "title") [] (lit " ") (lit "One") []]
                     ++ MetaEntry (lit "title") (lit " ") [NL] (lit "Two 2") (lit " ")
                     :: [MetaEntry (lit "lang") [] [] (lit "en") []])
         ++ closing ++ NL :: lit "Body")
    = Some (metadata, NL :: lit "Body")
    /\ metadata !! lit "title" = Some (lit "Two 2").
Proof.
  apply (extract_metadata_last_wins (fun _ => false) [] (NL :: lit "Body")
           [MetaEntry (lit "title") [] (lit " ") (lit "One") []]
           [MetaEntry (lit "lang") [] [] (lit "en") []]
           (MetaEntry (lit "title") (lit " ") [NL] (lit "Two 2") (lit " "))).
  - constructor.
  - constructor.
  - repeat constructor; try done;
      intros c H; vm_compute in H; injection H as <-; reflexivity.
  - reflexivity.
  - repeat constructor. done.
Defined.

(** ** Bodies of ordinary text *)

Lemma lastc_app pv (a b : str) : lastc (lastc pv a) b = lastc pv (a ++ b).
Proof.
  destruct b as [|c b] using rev_ind.
  - by rewrite app_nil_r.
  - by rewrite app_assoc, !lastc_snoc.
Qed.

Section Pieces.
Context (x : Regex).

Lemma rule_from_plain (a b : str) pv :
  (forall u c v, a = u ++ c :: v ->
     match_here (rflags x) (match_pattern x) false (lastc pv u) (c :: v ++ b) = None) ->
  rule_from x pv (a ++ b) = a ++ rule_from x (lastc pv a) b.
Proof.
  intros H. unfold rule_from. rewrite scan_plain_run by done.
  by rewrite map_app, concat_app, render_plain.
Qed.

Lemma rule_from_hit (a b : str) pv cs :
  a <> [] ->
  match_here (rflags x) (match_pattern x) false pv (a ++ b) = Some (Found (length a) cs) ->
  rule_from x pv (a ++ b) = expand (replace_pattern x) cs ++ rule_from x (lastc pv a) b.
Proof. intros Ha H. unfold rule_from. by rewrite (scan_hit _ _ _ _ _ cs). Qed.

Lemma rule_from_nil pv :
  match_here (rflags x) (match_pattern x) false pv [] = None -> rule_from x pv [] = [].
Proof. intros H. unfold rule_from. by rewrite scan_end. Qed.

(** A rule whose replacement is literal text keeps a property that this
    text and the characters read have. *)
Lemma rule_from_all (P : char -> Prop) (t s : str) pv :
  replace_pattern x = [TLit t] -> Forall P t -> Forall P s ->
  Forall P (rule_from x pv s).
Proof.
  intros Hx Ht Hs. unfold rule_from.
  apply Forall_concat, Forall_map, Forall_forall.
  intros [c|w cs] Hin; simpl.
  - apply scan_plain_elem in Hin. rewrite Forall_forall in Hs.
    constructor; [by apply Hs|constructor].
  - rewrite Hx. unfold expand. simpl. by rewrite app_nil_r.
Qed.

(** Matches made of characters of one kind end before a character of
    another kind. *)
Lemma rule_from_prefix (P Q : char -> Prop) (t a : str) c0 (b : str) pv :
  replace_pattern x = [TLit t] -> Forall Q t -> Forall Q a -> ~ P c0 ->
  (forall pv s m, match_here (rflags x) (match_pattern x) false pv s = Some m ->
     (0 < mlen m)%nat /\ Forall P (take (mlen m) s)) ->
  exists a', Forall Q a'
    /\ rule_from x pv (a ++ c0 :: b) = a' ++ rule_from x (lastc pv a) (c0 :: b).
Proof.
  intros Hx Ht Ha Hc0 Hm. remember (length a) as n eqn:Hn.
  revert a pv Ha Hn. induction n as [n IH] using lt_wf_ind. intros a pv Ha Hn.
  destruct a as [|c a]; [by exists []|].
  destruct (match_here (rflags x) (match_pattern x) false pv ((c :: a) ++ c0 :: b)) as [[k cs]|] eqn:E.
  - destruct (Hm _ _ _ E) as [Hk HP]. cbn [mlen] in Hk, HP.
    assert (k <= length (c :: a))%nat as Hle.
    { destruct (Nat.le_gt_cases k (length (c :: a))) as [|Hgt]; [done|].
      exfalso. apply Hc0. rewrite Forall_forall in HP. apply HP.
      rewrite take_app_ge by lia. apply elem_of_app. right.
      destruct (k - length (c :: a))%nat as [|j] eqn:Ej; [lia|]. left. }
    rewrite <- (take_drop k (c :: a)) in E |- *. rewrite <- app_assoc in E |- *.
    inversion Ha as [|? ? Hc Ha']; subst.
    assert (length (take k (c :: a)) = k) as Hlen by (rewrite length_take; lia).
    rewrite <- Hlen in E at 3.
    rewrite (rule_from_hit _ _ _ cs); [| |done].
    2:{ destruct k; [lia|done]. }
    destruct (IH (length (drop k (c :: a)))) with (a := drop k (c :: a))
      (pv := lastc pv (take k (c :: a))) as (a' & Ha2 & E2).
    + rewrite length_drop. simpl. lia.
    + by apply Forall_drop.
    + done.
    + exists (expand (replace_pattern x) cs ++ a'). split.
      * apply Forall_app. split; [|done]. rewrite Hx. unfold expand. simpl.
        by rewrite app_nil_r.
      * rewrite E2, lastc_app. by rewrite <- app_assoc.
  - inversion Ha as [|? ? Hc Ha']; subst.
    destruct (IH (length a)) with (a := a) (pv := Some c) as (a' & Ha2 & E2);
      [simpl; lia|done|done|].
    exists (c :: a'). split; [by constructor|].
    change ((c :: a) ++ c0 :: b) with ([c] ++ (a ++ c0 :: b)).
    rewrite rule_from_plain.
    + change (lastc pv [c]) with (Some c). rewrite E2. by rewrite lastc_cons.
    + intros [|? ?] d v Huv; [|by destruct l]. injection Huv as <- <-. exact E.
Qed.
End Pieces.

(** ** Rules 1 and 2: runs of one character *)

Lemma squeeze_none ch pv (s : str) :
  starts [ch; ch] s = false ->
  match_here NOFLAG (match_pattern (squeeze ch)) false pv s = None.
Proof.
  intros H. unfold match_here, squeeze. cbn [match_pattern run Lit1 one_char rest].
  destruct s as [|c1 s]; [done|]. rewrite rep_greedy_S. simpl in H.
  destruct (ch =? c1); [|done].
  destruct s as [|c2 s]; [done|]. rewrite rep_greedy_S.
  simpl in H. by destruct (ch =? c2).
Qed.

Lemma squeeze_sound ch pv (s : str) m :
  match_here NOFLAG (match_pattern (squeeze ch)) false pv s = Some m ->
  exists u tl, s = ch :: ch :: u ++ tl /\ Forall (fun c => c = ch) u
    /\ m = Found (length (ch :: ch :: u)) [].
Proof.
  unfold match_here, squeeze. cbn [match_pattern run Lit1 one_char rest].
  destruct s as [|c1 s]; [done|]. rewrite rep_greedy_S.
  destruct (N.eqb_spec ch c1) as [<-|]; [|done].
  destruct s as [|c2 s]; [done|]. rewrite rep_greedy_S.
  destruct (N.eqb_spec ch c2) as [<-|]; [|done].
  unfold advance. cbn [pos caps]. intros H.
  apply rep_greedy_sound in H as (u & v & -> & Hu & Hk).
  injection Hk as <-. exists u, v. split; [done|]. split.
  - eapply Forall_impl; [exact Hu|]. intros c Hc. simpl in Hc.
    by destruct (N.eqb_spec ch c).
  - simpl. do 2 f_equal.
Qed.

Lemma squeeze_hit ch pv k (t : str) :
  match t with [] => True | c :: _ => c <> ch end ->
  match_here NOFLAG (match_pattern (squeeze ch)) false pv (ch :: ch :: repeat ch k ++ t)
  = Some (Found (S (S k)) []).
Proof.
  intros Ht. unfold match_here, squeeze. cbn [match_pattern run Lit1 one_char rest].
  rewrite rep_greedy_S, N.eqb_refl. unfold advance. cbn [rest pos caps prev].
  rewrite rep_greedy_S, N.eqb_refl. unfold advance. cbn [rest pos caps prev].
  apply rep_greedy_longest.
  - induction k as [|k IH]; constructor; [apply N.eqb_refl|done].
  - cbn [pos caps andb]. by rewrite repeat_length.
  - destruct t as [|c t]; [done|]. left. by destruct (N.eqb_spec ch c) as [->|].
Qed.

Lemma rule_out_from (x : Regex) (s : str) : rule_out x s = rule_from x None s.
Proof. done. Qed.

Lemma rule_from_none (x : Regex) (s : str) pv :
  (forall u c v, s = u ++ c :: v ->
     match_here (rflags x) (match_pattern x) false (lastc pv u) (c :: v) = None) ->
  match_here (rflags x) (match_pattern x) false (lastc pv s) [] = None ->
  rule_from x pv s = s.
Proof.
  intros H Hn. rewrite <- (app_nil_r s) at 1. rewrite rule_from_plain.
  - by rewrite rule_from_nil, app_nil_r.
  - intros u c v ->. rewrite app_nil_r. by apply H.
Qed.

Lemma last_all_nl k : lastc (Some NL) (NL :: repeat NL k) = Some NL.
Proof.
  unfold lastc. rewrite last_all; [done|].
  induction k; by constructor.
Qed.

Lemma newlines_lines (ls : list (nat * str)) (l z : str) pv :
  Forall text_line (l :: map snd ls) -> all_space z ->
  exists z', all_space z'
    /\ rule_from (squeeze NL) pv (l ++ gapped ls ++ z)
       = join_lines (l :: map snd ls) ++ z'.
Proof.
  intros Hls Hz. revert l pv Hls.
  induction ls as [|[k l'] ls IH]; intros l pv Hls;
    inversion Hls as [|? ? [Hl0 Hl] Hls']; subst.
  - exists (rule_from (squeeze NL) (lastc pv l) z). split.
    + apply (rule_from_all _ (fun c => is_space c = true) [NL]);
        [done|by repeat constructor|exact Hz].
    + cbn [gapped map concat app join_lines]. apply rule_from_plain.
      intros u c v ->. apply squeeze_none. simpl.
      apply Forall_app in Hl as [_ Hl]. inversion Hl; subst.
      by destruct (N.eqb_spec NL c) as [<-|].
  - cbn [map snd] in Hls'. destruct (IH l' (Some NL) Hls') as (z' & Hz' & E).
    exists z'. split; [done|].
    inversion Hls' as [|? ? [Hl0' Hl'] _]; subst.
    change (join_lines (l :: map snd ((k, l') :: ls)))
      with (l ++ NL :: join_lines (l' :: map snd ls)).
    rewrite <- app_assoc. cbn [app]. rewrite <- E.
    change (gapped ((k, l') :: ls)) with ((NL :: repeat NL k ++ l') ++ gapped ls).
    rewrite rule_from_plain.
    2:{ intros u c v ->. apply squeeze_none. simpl.
        apply Forall_app in Hl as [_ Hl]. inversion Hl; subst.
        by destruct (N.eqb_spec NL c) as [<-|]. }
    f_equal. destruct (lastc_Some pv l Hl0) as [d ->].
    rewrite <- !app_assoc. cbn [app]. rewrite <- !app_assoc.
    destruct l' as [|c0 l']; [done|]. inversion Hl'; subst.
    destruct k as [|k].
    + cbn [repeat app]. change (NL :: c0 :: l' ++ gapped ls ++ z)
        with ([NL] ++ (c0 :: l') ++ gapped ls ++ z).
      rewrite rule_from_plain; [reflexivity|].
      intros [|? u'] e v Huv; [|by destruct u']. injection Huv as <- <-.
      apply squeeze_none. simpl. by destruct (N.eqb_spec NL c0) as [<-|].
    + cbn [repeat].
      change (NL :: (NL :: repeat NL k) ++ (c0 :: l') ++ gapped ls ++ z)
        with ((NL :: NL :: repeat NL k) ++ (c0 :: l') ++ gapped ls ++ z).
      rewrite (rule_from_hit _ _ _ _ []).
      * cbn [squeeze replace_pattern]. rewrite lastc_cons, last_all_nl. done.
      * done.
      * cbn [app]. rewrite (squeeze_hit NL); [|done]. simpl. by rewrite repeat_length.
Qed.

Lemma squeeze_takes ch pv (s : str) m :
  match_here NOFLAG (match_pattern (squeeze ch)) false pv s = Some m ->
  (0 < mlen m)%nat /\ Forall (fun c => c = ch) (take (mlen m) s).
Proof.
  intros H. apply squeeze_sound in H as (u & tl & -> & Hu & ->).
  cbn [mlen]. split; [simpl; lia|].
  change (ch :: ch :: u ++ tl) with ((ch :: ch :: u) ++ tl).
  rewrite take_app_length. by repeat constructor.
Qed.

(** Whitespace before a text: each of the two rules leaves whitespace. *)
Lemma squeeze_prefix ch (a : str) c0 (b : str) :
  is_space ch = true -> all_space a -> c0 <> ch ->
  exists a', all_space a'
    /\ rule_from (squeeze ch) None (a ++ c0 :: b)
       = a' ++ rule_from (squeeze ch) (lastc None a) (c0 :: b).
Proof.
  intros Hch Ha Hc0.
  apply (rule_from_prefix (squeeze ch) (fun c => c = ch) (fun c => is_space c = true) [ch]);
    try done.
  - by repeat constructor.
  - intros pv s m. apply squeeze_takes.
Qed.

Lemma newlines_text (a z l : str) (ls : list (nat * str)) :
  all_space a -> all_space z -> Forall text_line (l :: map snd ls) ->
  exists a' z', all_space a' /\ all_space z'
    /\ rule_out R_newlines (a ++ l ++ gapped ls ++ z)
       = a' ++ join_lines (l :: map snd ls) ++ z'.
Proof.
  intros Ha Hz Hls. rewrite rule_out_from. change R_newlines with (squeeze NL).
  inversion Hls as [|? ? [Hl0 Hl] _]; subst.
  destruct l as [|c0 l]; [done|]. inversion Hl; subst.
  change ((c0 :: l) ++ gapped ls ++ z) with (c0 :: l ++ gapped ls ++ z).
  destruct (squeeze_prefix NL a c0 (l ++ gapped ls ++ z)) as (a' & Ha' & ->); try done.
  change (c0 :: l ++ gapped ls ++ z) with ((c0 :: l) ++ gapped ls ++ z).
  destruct (newlines_lines ls (c0 :: l) z (lastc None a) Hls Hz) as (z' & Hz' & ->).
  by exists a', z'.
Qed.

Lemma spaces_text (a z x : str) :
  all_space a -> all_space z -> x <> [] -> trimmed x -> occurs [32; 32] x = false ->
  exists a' z', all_space a' /\ all_space z'
    /\ rule_out R_spaces (a ++ x ++ z) = a' ++ x ++ z'.
Proof.
  intros Ha Hz Hx0 [Hh Ht] Hocc. rewrite rule_out_from. change R_spaces with (squeeze 32).
  destruct x as [|c0 x]; [done|]. pose proof (Hh c0 eq_refl) as Hc0.
  change ((c0 :: x) ++ z) with (c0 :: x ++ z).
  destruct (squeeze_prefix 32 a c0 (x ++ z)) as (a' & Ha' & ->); try done.
  { by intros ->. }
  exists a', (rule_from (squeeze 32) (lastc (lastc None a) (c0 :: x)) z).
  split; [done|]. split.
  - apply (rule_from_all _ (fun c => is_space c = true) [32]);
      [done|by repeat constructor|exact Hz].
  - f_equal. change (c0 :: x ++ z) with ((c0 :: x) ++ z).
    apply rule_from_plain. intros u c v E. apply squeeze_none.
    destruct (starts [32; 32] (c :: v ++ z)) eqn:Es; [exfalso|done].
    simpl in Es. destruct (N.eqb_spec 32 c) as [<-|]; [|done].
    destruct v as [|d v].
    + specialize (Ht 32). rewrite E, last_snoc in Ht. by specialize (Ht eq_refl).
    + simpl in Es. destruct (N.eqb_spec 32 d) as [<-|]; [|done].
      rewrite E in Hocc. by rewrite (occurs_app [32; 32] u (32 :: 32 :: v)) in Hocc.
Qed.

(** ** Rules 5 to 10 on a text without marks *)

Lemma between_none mark pv (s : str) :
  starts (lit mark) s = false ->
  match_here NOFLAG (between mark) false pv s = None.
Proof.
  intros H. unfold match_here, between. cbn [cat run]. by rewrite run_Lits, H.
Qed.

Lemma stanza_none pv (s : str) :
  starts [47; NL] s = false ->
  match_here (Flags true true) (match_pattern R_stanza) false pv s = None.
Proof.
  intros H. unfold match_here, R_stanza. cbn [match_pattern cat run].
  destruct (at_bol _ _); [|done]. rewrite run_Lits.
  change (starts (lit "/" ++ [NL]) s) with (starts [47; NL] s). by rewrite H.
Qed.


Lemma rule_plain (x : Regex) (s : str) :
  template_ok (match_pattern x) (replace_pattern x) = true ->
  (forall pv c v, c ∈ s ->
     match_here (rflags x) (match_pattern x) false pv (c :: v) = None) ->
  (forall pv, match_here (rflags x) (match_pattern x) false pv [] = None) ->
  apply_regex x s = Some s.
Proof.
  intros Hok H Hn. rewrite apply_rule, rule_out_from by done. f_equal.
  apply rule_from_none; [|done].
  intros u c v ->. apply H. apply elem_of_app. right. by left.
Qed.

Lemma stanza_plain (s : str) :
  occurs [47; NL] s = false -> apply_regex R_stanza s = Some s.
Proof.
  intros Hs. rewrite apply_rule, rule_out_from by done. f_equal.
  apply rule_from_none.
  - intros u c v ->. apply stanza_none.
    destruct (starts [47; NL] (c :: v)) eqn:E; [|done].
    by rewrite (occurs_app [47; NL] u (c :: v)) in Hs.
  - by apply stanza_none.
Qed.

Lemma join_unlines (l : str) (ls : list str) :
  join_lines (l :: ls) ++ [NL] = unlines (l :: ls).
Proof.
  revert l. induction ls as [|l' ls IH]; intros l.
  - unfold unlines. simpl. by rewrite app_nil_r.
  - change (join_lines (l :: l' :: ls)) with (l ++ NL :: join_lines (l' :: ls)).
    rewrite <- app_assoc. cbn [app]. rewrite IH. unfold unlines. simpl.
    by rewrite <- (app_assoc l [NL]).
Qed.

(** Rules 1 to 4 take the whitespace around the text away, put one newline
    where an empty line stood, and close the text with a newline. *)
Lemma rules_1_4_lines (a z l : str) (ls : list (nat * str)) :
  all_space a -> all_space z -> Forall text_line (l :: map snd ls) ->
  trimmed (join_lines (l :: map snd ls)) ->
  occurs [32; 32] (join_lines (l :: map snd ls)) = false ->
  replace_with [R_newlines; R_spaces; R_strip; R_final_newline]
    (a ++ l ++ gapped ls ++ z)
  = Some (unlines (l :: map snd ls)).
Proof.
  intros Ha Hz Hls Ht Hocc.
  rewrite replace_with_cons, apply_rule by done. cbn [mbind option_bind].
  destruct (newlines_text a z l ls Ha Hz Hls) as (a1 & z1 & Ha1 & Hz1 & ->).
  rewrite replace_with_cons, apply_rule by done. cbn [mbind option_bind].
  destruct (spaces_text a1 z1 (join_lines (l :: map snd ls))) as (a2 & z2 & Ha2 & Hz2 & ->);
    try done.
  { inversion Hls as [|? ? [Hl0 _] _]; subst. destruct l; [done|]. by destruct (map snd ls). }
  rewrite replace_with_cons, strip_rule by done. cbn [mbind option_bind].
  rewrite replace_with_cons, final_newline_rule by done. cbn [mbind option_bind].
  by rewrite join_unlines.
Qed.

(** ** Rules 5 to 10, line by line *)

Lemma between_absent mark tag m (mk s : str) :
  template_ok (between mark) (wrap_in tag) = true ->
  lit mark = m :: mk -> Forall (fun c => c <> m) s ->
  apply_regex (mkRegex (between mark) (wrap_in tag) NOFLAG) s = Some s.
Proof.
  intros Hok Hmark Hs. apply rule_plain; [done| |].
  - intros pv c v Hc. apply between_none. rewrite Hmark. simpl.
    rewrite Forall_forall in Hs. specialize (Hs c Hc).
    by destruct (N.eqb_spec m c) as [->|].
  - intros pv. apply between_none. by rewrite Hmark.
Qed.

Lemma split_hash_app (l pre post : str) :
  split_hash l = Some (pre, post) -> l = pre ++ HASH :: post.
Proof.
  revert pre. induction l as [|c l IH]; intros pre H; [done|]. simpl in H.
  destruct (N.eqb_spec c HASH) as [->|].
  - by injection H as <- <-.
  - destruct (split_hash l) as [[p q]|]; [|done]. injection H as <- <-.
    simpl. f_equal. by apply IH.
Qed.

Lemma lstrip_suffix (l : str) : exists u, l = u ++ lstrip l.
Proof.
  induction l as [|c l [u IH]]; [by exists []|]. simpl.
  destruct (is_space c); [|by exists []]. exists (c :: u). simpl. by f_equal.
Qed.

Lemma heading_line_ok (l : str) :
  no_newline l -> last l <> Some 47 ->
  no_newline (heading_line l) /\ last (heading_line l) <> Some 47.
Proof.
  intros Hl Hlast. unfold heading_line.
  destruct (split_hash l) as [[pre post]|] eqn:E; [|done].
  apply split_hash_app in E as ->. split.
  - apply Forall_app in Hl as [Hpre Hpost]. inversion Hpost as [|? ? _ Hpost']; subst.
    destruct (lstrip_suffix post) as [u Hu]. rewrite Hu in Hpost'.
    apply Forall_app in Hpost' as [_ Hs].
    repeat (apply Forall_app; split); try done; repeat constructor; done.
  - change (lit "</h1>") with (lit "</h1" ++ [GT]). rewrite !app_assoc, last_snoc.
    done.
Qed.

Lemma no_slash_lines (ls : list str) :
  Forall no_newline ls -> Forall (fun l => last l <> Some 47) ls ->
  occurs [47; NL] (unlines ls) = false.
Proof.
  intros Hnl. induction Hnl as [|l ls Hl Hnl IH]; intros Hs; [done|].
  inversion Hs as [|? ? Hlast Hs']; subst. specialize (IH Hs').
  unfold unlines. cbn [map concat]. fold (unlines ls). rewrite <- app_assoc. cbn [app].
  clear Hs Hs' Hnl. induction l as [|c l IHl].
  - simpl. by rewrite IH.
  - inversion Hl as [|? ? Hc Hl']; subst. cbn [app occurs].
    rewrite IHl; [|done|].
    + rewrite orb_false_r. simpl. destruct (N.eqb_spec 47 c) as [<-|]; [|done].
      destruct l as [|d l]; [done|]. inversion Hl'; subst. simpl.
      by destruct (N.eqb_spec NL d) as [<-|].
    + destruct l as [|d l]; [done|]. by rewrite (last_cons_cons c d l) in Hlast.
Qed.

Lemma apply_heading (s : str) :
  apply_regex R_heading s = Some (heading_from None s).
Proof. done. Qed.

Lemma starts_local (p v b : str) :
  p <> [] -> no_newline p -> starts p (v ++ NL :: b) = starts p v.
Proof.
  intros Hp Hnl. revert v. induction Hnl as [|c p Hc Hnl IH]; intros v; [done|].
  destruct v as [|d v]; simpl.
  - by destruct (N.eqb_spec c NL).
  - destruct (c =? d); [|done]. simpl.
    destruct p as [|c' p]; [by destruct v|]. by apply IH.
Qed.

Section Local.
Context (mark : string) (b : str).
Hypothesis mark_ne : lit mark <> [].
Hypothesis mark_nl : no_newline (lit mark).

(** The lazy loop of the pattern reads the same in a line and in that line
    followed by more lines. *)
Lemma lazy_local (g0 : str) n0 cs (u w : str) pvF pvL :
  g0 = w ++ u -> no_newline u ->
  rep_lazy (fun c => DOTALL NOFLAG || negb (c =? NL)) 0
    (fun s' => run NOFLAG (Lits (lit mark))
       (MState (prev s') (rest s') (pos s')
          ((1%nat, take (pos s' - n0) (g0 ++ NL :: b)) :: caps s'))
       (fun e => Some (Found (pos e) (caps e))))
    (u ++ NL :: b) (MState pvF (u ++ NL :: b) (n0 + length w) cs)
  = rep_lazy (fun c => DOTALL NOFLAG || negb (c =? NL)) 0
    (fun s' => run NOFLAG (Lits (lit mark))
       (MState (prev s') (rest s') (pos s')
          ((1%nat, take (pos s' - n0) g0) :: caps s'))
       (fun e => Some (Found (pos e) (caps e))))
    u (MState pvL u (n0 + length w) cs).
Proof.
  intros Hg Hu. revert w pvF pvL Hg.
  induction Hu as [|c u Hc Hu IH]; intros w pvF pvL Hg.
  - cbn [rep_lazy app]. cbn [prev rest pos caps]. rewrite !run_Lits.
    rewrite (starts_local _ [] b) by done.
    destruct (starts (lit mark) []) eqn:E; [by destruct (lit mark)|].
    reflexivity.
  - cbn [rep_lazy app]. cbn [prev rest pos caps]. rewrite !run_Lits.
    change (c :: u ++ NL :: b) with ((c :: u) ++ NL :: b).
    rewrite (starts_local _ (c :: u) b) by done.
    replace (n0 + length w - n0)%nat with (length w) by lia.
    assert (take (length w) (g0 ++ NL :: b) = w) as ->.
    { by rewrite Hg, <- app_assoc, take_app_length. }
    assert (take (length w) g0 = w) as -> by by rewrite Hg, take_app_length.
    destruct (starts (lit mark) (c :: u)); [done|].
    destruct (DOTALL NOFLAG || negb (c =? NL)); [|done].
    unfold advance. cbn [prev rest pos caps Nat.pred].
    replace (S (n0 + length w)) with (n0 + length (w ++ [c]))%nat
      by (rewrite length_app; simpl; lia).
    apply (IH (w ++ [c]) (Some c) (Some c)). by rewrite <- app_assoc.
Qed.

Lemma between_local (v : str) pvF pvL :
  no_newline v ->
  match_here NOFLAG (between mark) false pvF (v ++ NL :: b)
  = match_here NOFLAG (between mark) false pvL v.
Proof.
  intros Hv. unfold match_here, between. cbn [cat run]. rewrite !run_Lits.
  rewrite starts_local by done.
  destruct (starts (lit mark) v) eqn:Hs; [|done].
  apply starts_split in Hs. set (v1 := drop (length (lit mark)) v) in *.
  assert (drop (length (lit mark)) (v ++ NL :: b) = v1 ++ NL :: b) as ->.
  { rewrite Hs at 1. by rewrite <- app_assoc, drop_app_length. }
  cbn [lazy_star one_char rest pos caps andb].
  assert (no_newline v1) as Hv1.
  { rewrite Hs in Hv. by apply Forall_app in Hv as [_ ?]. }
  pose proof (lazy_local v1 (0 + length (lit mark)) [] v1 []
                (lastc pvF (lit mark)) (lastc pvL (lit mark)) eq_refl Hv1) as H.
  cbn [length] in H. rewrite !Nat.add_0_r in H. exact H.
Qed.
End Local.

Section Lines.
Context (mark tag : string).
Hypothesis mark_ne : lit mark <> [].
Hypothesis mark_nl : no_newline (lit mark).
Hypothesis tag_nl : no_newline (lit tag).

Lemma between_nil pv : match_here NOFLAG (between mark) false pv [] = None.
Proof. apply between_none. by destruct (lit mark). Qed.

(** Rules 5 to 8 read a line without looking at the lines after it. *)
Lemma between_line (l b : str) pv pv' :
  no_newline l ->
  rule_from (R_between mark tag) pv (l ++ NL :: b)
  = rule_from (R_between mark tag) pv' l
    ++ NL :: rule_from (R_between mark tag) (Some NL) b
  /\ no_newline (rule_from (R_between mark tag) pv' l).
Proof.
  remember (length l) as n eqn:Hn. revert l pv pv' Hn.
  induction n as [n IH] using lt_wf_ind. intros l pv pv' Hn Hl.
  pose proof (between_local mark b mark_ne mark_nl l pv pv' Hl) as E.
  destruct l as [|c l].
  - rewrite between_nil in E. rewrite rule_from_nil by apply between_nil.
    split; [|constructor]. cbn [app].
    change (NL :: b) with ([NL] ++ b). rewrite rule_from_plain; [done|].
    intros [|? u'] e v Huv; [|by destruct u']. by injection Huv as <- <-.
  - inversion Hl as [|? ? Hc Hl']; subst.
    destruct (match_here NOFLAG (between mark) false pv' (c :: l)) as [m|] eqn:Em.
    + destruct (between_here _ _ _ _ Em) as (g & tl & Hs & Hg & ->).
      set (w := lit mark ++ g ++ lit mark) in *.
      assert (c :: l = w ++ tl) as Hw by (by rewrite Hs; unfold w; rewrite <- !app_assoc).
      assert (w <> []) as Hw0 by (unfold w; by destruct (lit mark)).
      rewrite Hw in *. rewrite <- app_assoc in E |- *.
      destruct (IH (length tl)) with (l := tl) (pv := lastc pv w) (pv' := lastc pv' w)
        as [E1 E2].
      * rewrite length_app. destruct w; [done|simpl; lia].
      * done.
      * by apply Forall_app in Hl as [_ ?].
      * rewrite (rule_from_hit (R_between mark tag) _ _ _ _ Hw0 E),
          (rule_from_hit (R_between mark tag) _ _ _ _ Hw0 Em).
        rewrite E1. cbn [R_between replace_pattern]. rewrite expand_wrap_in.
        split; [by rewrite <- !app_assoc|].
        repeat apply no_newline_app; try done;
          repeat (constructor; [done|]); apply no_newline_app; try done;
          by repeat constructor.
    + destruct (IH (length l)) with (l := l) (pv := Some c) (pv' := Some c)
        as [E1 E2]; [simpl; lia|done|done|].
      change ((c :: l) ++ NL :: b) with ([c] ++ (l ++ NL :: b)).
      change (c :: l) with ([c] ++ l).
      rewrite (rule_from_plain _ [c] (l ++ NL :: b)), (rule_from_plain _ [c] l).
      * change (lastc pv [c]) with (Some c). change (lastc pv' [c]) with (Some c).
        rewrite E1. split; [done|]. by constructor.
      * intros [|? u'] e v Huv; [|by destruct u']. by injection Huv as <- <-.
      * intros [|? u'] e v Huv; [|by destruct u']. by injection Huv as <- <-.
Qed.

Lemma between_lines (ls : list str) pv :
  Forall no_newline ls ->
  rule_from (R_between mark tag) pv (unlines ls)
  = unlines (map (rule_out (R_between mark tag)) ls)
  /\ Forall no_newline (map (rule_out (R_between mark tag)) ls).
Proof.
  intros Hls. revert pv. induction Hls as [|l ls Hl Hls IH]; intros pv.
  - split; [|constructor]. apply rule_from_nil, between_nil.
  - unfold unlines. cbn [map concat]. fold (unlines ls).
    fold (unlines (map (rule_out (R_between mark tag)) ls)).
    rewrite <- !app_assoc. cbn [app].
    destruct (between_line l (unlines ls) pv None Hl) as [-> Hnl].
    destruct (IH (Some NL)) as [-> Hnls].
    split; [by rewrite rule_out_from|]. by constructor.
Qed.
End Lines.

Lemma between_rule_lines mark tag (ls : list str) :
  template_ok (between mark) (wrap_in tag) = true ->
  lit mark <> [] -> no_newline (lit mark) -> no_newline (lit tag) ->
  Forall no_newline ls ->
  apply_regex (R_between mark tag) (unlines ls)
  = Some (unlines (map (rule_out (R_between mark tag)) ls))
  /\ Forall no_newline (map (rule_out (R_between mark tag)) ls).
Proof.
  intros Hok H1 H2 H3 Hls. rewrite apply_rule, rule_out_from by done.
  destruct (between_lines mark tag H1 H2 H3 ls None Hls) as [-> H]. done.
Qed.

Ltac mark_facts := first [done | repeat constructor; done].

Lemma inline_lines (ls : list str) :
  Forall no_newline ls ->
  replace_with [R_bold; R_italic; R_italic_alt; R_strike] (unlines ls)
  = Some (unlines (map inline_line ls))
  /\ Forall no_newline (map inline_line ls).
Proof.
  intros H0.
  destruct (between_rule_lines "**" "b" ls) as [E1 H1]; [mark_facts..|done|].
  destruct (between_rule_lines "*" "i" _ ltac:(done) ltac:(done)
              ltac:(mark_facts) ltac:(mark_facts) H1) as [E2 H2].
  destruct (between_rule_lines "_" "i" _ ltac:(done) ltac:(done)
              ltac:(mark_facts) ltac:(mark_facts) H2) as [E3 H3].
  destruct (between_rule_lines "~~" "s" _ ltac:(done) ltac:(done)
              ltac:(mark_facts) ltac:(mark_facts) H3) as [E4 H4].
  rewrite !map_map in *.
  rewrite replace_with_cons. change R_bold with (R_between "**" "b").
  rewrite E1. cbn [mbind option_bind].
  rewrite replace_with_cons. change R_italic with (R_between "*" "i").
  rewrite E2. cbn [mbind option_bind].
  rewrite replace_with_cons. change R_italic_alt with (R_between "_" "i").
  rewrite E3. cbn [mbind option_bind].
  rewrite replace_with_cons. change R_strike with (R_between "~~" "s").
  rewrite E4. cbn [mbind option_bind]. done.
Qed.

(** X10.  Rules 5 to 8 never match across the end of a line: what they make
    of a text that ends with a newline is, line by line, what they make of
    each line alone. *)
Theorem inline_rules_line_by_line (ls : list str) :
  Forall no_newline ls ->
  replace_with [R_bold; R_italic; R_italic_alt; R_strike] (unlines ls)
  = Some (unlines (map inline_line ls)).
Proof. intros H. by destruct (inline_lines ls H). Qed.

Lemma inline_rules_line_by_line_witness :
  replace_with [R_bold; R_italic; R_italic_alt; R_strike]
    (unlines [lit "a **b"; lit "c** d"; lit "~~e~~ *f*"])
  = Some (unlines (map inline_line [lit "a **b"; lit "c** d"; lit "~~e~~ *f*"])).
Proof. apply inline_rules_line_by_line. repeat constructor; done. Defined.

Lemma between_absent_out mark tag m (mk s : str) :
  template_ok (between mark) (wrap_in tag) = true ->
  lit mark = m :: mk -> Forall (fun c => c <> m) s ->
  rule_out (R_between mark tag) s = s.
Proof.
  intros Hok Hm Hs. pose proof (between_absent mark tag m mk s Hok Hm Hs) as H.
  unfold R_between. rewrite apply_rule in H by done. by injection H.
Qed.

Lemma absent_mark (m : char) (s : str) :
  is_inline_mark m = true -> Forall (fun c => is_inline_mark c = false) s ->
  Forall (fun c => c <> m) s.
Proof.
  intros Hm Hs. eapply Forall_impl; [exact Hs|]. intros c Hc ->. congruence.
Qed.

(** Rules 5 to 8 leave a line without [*], [_] and [~] as it is. *)
Lemma inline_line_plain (l : str) :
  Forall (fun c => is_inline_mark c = false) l -> inline_line l = l.
Proof.
  intros Hl. unfold inline_line.
  change R_bold with (R_between "**" "b"). change R_italic with (R_between "*" "i").
  change R_italic_alt with (R_between "_" "i"). change R_strike with (R_between "~~" "s").
  rewrite (between_absent_out "**" "b" 42 [42]) by (done || by apply absent_mark).
  rewrite (between_absent_out "*" "i" 42 []) by (done || by apply absent_mark).
  rewrite (between_absent_out "_" "i" 95 []) by (done || by apply absent_mark).
  by rewrite (between_absent_out "~~" "s" 126 [126]) by (done || by apply absent_mark).
Qed.

Lemma format_lines (a z l : str) (ls : list (nat * str)) :
  all_space a -> all_space z -> Forall text_line (l :: map snd ls) ->
  trimmed (join_lines (l :: map snd ls)) ->
  occurs [32; 32] (join_lines (l :: map snd ls)) = false ->
  Forall heading_or_text_line (l :: map snd ls) ->
  _replace_file_marks (a ++ l ++ gapped ls ++ z)
  = Some (concat (map (fun l => paragraph_line (heading_line (inline_line l)))
                      (l :: map snd ls))).
Proof.
  intros Ha Hz Hls Ht Hsp Hok.
  unfold _replace_file_marks, _REPLACE_REGEXES.
  change [R_newlines; R_spaces; R_strip; R_final_newline; R_bold; R_italic;
          R_italic_alt; R_strike; R_heading; R_stanza; R_paragraph]
    with ([R_newlines; R_spaces; R_strip; R_final_newline]
          ++ [R_bold; R_italic; R_italic_alt; R_strike]
          ++ [R_heading; R_stanza; R_paragraph]).
  rewrite replace_with_app, rules_1_4_lines by done. cbn [mbind option_bind].
  set (lines := l :: map snd ls) in *.
  assert (Forall no_newline lines) as Hnl.
  { eapply Forall_impl; [exact Hls|]. by intros ? [_ ?]. }
  destruct (inline_lines lines Hnl) as [E Hin].
  rewrite replace_with_app, E. cbn [mbind option_bind].
  rewrite replace_with_cons, apply_heading, heading_from_lines; [|done|].
  2:{ apply Forall_map. eapply Forall_impl; [exact Hok|]. by intros x (Hx & _). }
  cbn [mbind option_bind].
  assert (Forall (fun x => no_newline x /\ last x <> Some 47)
            (map heading_line (map inline_line lines))) as Hh.
  { rewrite map_map. apply Forall_map. rewrite Forall_forall. intros x Hx.
    rewrite Forall_map, Forall_forall in Hin. rewrite Forall_forall in Hok.
    destruct (Hok x Hx) as (_ & Hs). apply heading_line_ok; [by apply Hin|done]. }
  rewrite replace_with_cons, stanza_plain. cbn [mbind option_bind].
  2:{ apply no_slash_lines; (eapply Forall_impl; [exact Hh|]); by intros ? [? ?]. }
  rewrite replace_with_cons, apply_paragraph. cbn [mbind option_bind replace_with foldl].
  f_equal. rewrite <- (app_nil_r (unlines _)). rewrite paragraph_from_lines.
  - by rewrite app_nil_r, !map_map.
  - eapply Forall_impl; [exact Hh|]. by intros ? [? ?].
  - constructor.
  - done.
Qed.

(** X11.  A body of non-empty lines, with empty lines between them or not
    and whitespace around the whole; the first line does not start and the
    last does not end with whitespace, no two spaces stand in a row, and
    after rules 5 to 8 no line ends with [/] or has a [#] with nothing but
    whitespace after it.  The result is made line by line.  Rules 5 to 8 replace the
    inline marks of the line; a line with a [#] becomes a heading from the
    [#] on; the line is then wrapped as [<p>line</p>], losing its newline,
    unless by now it starts with [<] or ends with [>]. *)
Theorem format_body_line_by_line (a z l : str) (ls : list (nat * str)) :
  all_space a -> all_space z -> Forall text_line (l :: map snd ls) ->
  trimmed (join_lines (l :: map snd ls)) ->
  occurs [32; 32] (join_lines (l :: map snd ls)) = false ->
  Forall heading_or_text_line (l :: map snd ls) ->
  _replace_file_marks (a ++ l ++ gapped ls ++ z)
  = Some (concat (map (fun l => paragraph_line (heading_line (inline_line l)))
                      (l :: map snd ls))).
Proof. apply format_lines. Qed.

Lemma format_body_line_by_line_witness :
  _replace_file_marks
    ([NL] ++ lit "**Hello** world"
     ++ gapped [(1%nat, lit "# Title"); (0%nat, lit "a _b_ c")] ++ [NL])
  = Some (concat (map (fun l => paragraph_line (heading_line (inline_line l)))
                      [lit "**Hello** world"; lit "# Title"; lit "a _b_ c"])).
Proof.
  apply (format_body_line_by_line [NL] [NL] (lit "**Hello** world")
           [(1%nat, lit "# Title"); (0%nat, lit "a _b_ c")]).
  - by repeat constructor.
  - by repeat constructor.
  - repeat constructor; done.
  - split; intros c H; vm_compute in H; injection H as <-; reflexivity.
  - reflexivity.
  - repeat constructor; by vm_compute.
Defined.

(** X12.  The same body without [*], [_] and [~]: a line with a [#] comes
    back as what stood before the [#] and a heading [<h1>..</h1>] around
    what follows it; every other line that neither starts with [<] nor ends
    with [>] comes back as [<p>line</p>], without its newline; lines that
    start with [<] or end with [>] are kept. *)
Theorem format_body_text_lines (a z l : str) (ls : list (nat * str)) :
  all_space a -> all_space z -> Forall text_line (l :: map snd ls) ->
  trimmed (join_lines (l :: map snd ls)) ->
  occurs [32; 32] (join_lines (l :: map snd ls)) = false ->
  Forall heading_or_text (l :: map snd ls) ->
  _replace_file_marks (a ++ l ++ gapped ls ++ z)
  = Some (concat (map (fun l => paragraph_line (heading_line l)) (l :: map snd ls))).
Proof.
  intros Ha Hz Hls Ht Hsp Hok. rewrite format_lines; try done.
  - f_equal. f_equal. apply map_ext_Forall.
    eapply Forall_impl; [exact Hok|]. intros x (Hx & _). cbv beta.
    by rewrite inline_line_plain.
  - eapply Forall_impl; [exact Hok|]. intros x (Hx & H1 & H2).
    unfold heading_or_text_line. by rewrite inline_line_plain.
Qed.

Lemma format_body_text_lines_witness :
  _replace_file_marks
    ([NL] ++ lit "# Title"
     ++ gapped [(1%nat, lit "Hello world"); (0%nat, lit "<hr>")] ++ [NL; NL])
  = Some (concat (map (fun l => paragraph_line (heading_line l))
                      [lit "# Title"; lit "Hello world"; lit "<hr>"])).
Proof.
  apply (format_body_text_lines [NL] [NL; NL] (lit "# Title")
           [(1%nat, lit "Hello world"); (0%nat, lit "<hr>")]).
  - by repeat constructor.
  - by repeat constructor.
  - repeat constructor; done.
  - split; intros c H; vm_compute in H; injection H as <-; reflexivity.
  - reflexivity.
  - repeat constructor; by vm_compute.
Defined.

(** ** One pair of marks on a line *)

Lemma starts_self (p t : str) : starts p (p ++ t) = true.
Proof. induction p as [|c p IH]; [done|]. simpl. by rewrite N.eqb_refl. Qed.

Lemma between_hit mark pv m (mk g post : str) :
  lit mark = m :: mk -> Forall (fun c => c <> m) g -> no_newline g ->
  match_here NOFLAG (between mark) false pv (lit mark ++ g ++ lit mark ++ post)
  = Some (Found (length (lit mark ++ g ++ lit mark)) [(1%nat, g)]).
Proof.
  intros Hm Hg Hnl. unfold match_here, between. cbn [cat run]. rewrite run_Lits.
  rewrite starts_self, drop_app_length. cbn [lazy_star one_char rest run].
  rewrite rep_lazy_app; [|by apply no_newline_dot|].
  2:{ intros a1 c a2 ->. cbn [prev rest pos caps]. rewrite run_Lits, Hm. simpl.
      apply Forall_app in Hg as [_ Hg]. inversion Hg; subst.
      by destruct (N.eqb_spec m c) as [->|]. }
  apply rep_lazy_here. cbn [prev rest pos caps]. rewrite run_Lits, starts_self.
  cbn [pos caps andb]. f_equal. f_equal.
  - rewrite !length_app. lia.
  - replace (0 + length (lit mark) + length g - (0 + length (lit mark)))%nat
      with (length g) by lia.
    by rewrite take_app_length.
Qed.

Lemma between_once mark tag m (mk pre g post : str) :
  template_ok (between mark) (wrap_in tag) = true ->
  lit mark = m :: mk ->
  Forall (fun c => c <> m) pre -> Forall (fun c => c <> m) g ->
  Forall (fun c => c <> m) post -> no_newline g ->
  rule_out (R_between mark tag) (pre ++ lit mark ++ g ++ lit mark ++ post)
  = pre ++ open_tag tag ++ g ++ close_tag tag ++ post.
Proof.
  intros Hok Hm Hpre Hg Hpost Hnl. rewrite rule_out_from.
  assert (forall pv c v, c <> m ->
            match_here NOFLAG (between mark) false pv (c :: v) = None) as Hnone.
  { intros pv c v Hc. apply between_none. rewrite Hm. simpl.
    by destruct (N.eqb_spec m c) as [->|]. }
  rewrite rule_from_plain.
  2:{ intros u c v ->. apply Hnone.
      apply Forall_app in Hpre as [_ Hpre]. by inversion Hpre. }
  f_equal.
  replace (lit mark ++ g ++ lit mark ++ post)
    with ((lit mark ++ g ++ lit mark) ++ post) by by rewrite <- !app_assoc.
  rewrite (rule_from_hit (R_between mark tag) _ _ _ [(1%nat, g)]).
  - cbn [R_between replace_pattern]. rewrite expand_wrap_in. unfold open_tag, close_tag.
    rewrite <- !app_assoc. do 3 f_equal.
    apply rule_from_none.
    + intros u c v ->. apply Hnone.
      apply Forall_app in Hpost as [_ Hpost]. by inversion Hpost.
    + apply between_none. by rewrite Hm.
  - rewrite Hm. done.
  - rewrite <- !app_assoc. by apply (between_hit mark _ m mk).
Qed.

Lemma occurs_absent (p : str) m (mk s : str) :
  p = m :: mk -> Forall (fun c => c <> m) s -> occurs p s = false.
Proof.
  intros -> Hs. induction Hs as [|c s Hc Hs IH]; [done|].
  cbn [occurs starts]. rewrite IH. by destruct (N.eqb_spec m c) as [->|].
Qed.

Lemma occurs_skip m (a rest : str) :
  Forall (fun c => c <> m) a -> occurs [m; m] (a ++ rest) = occurs [m; m] rest.
Proof.
  intros Ha. induction Ha as [|c a Hc Ha IH]; [done|].
  cbn [app occurs starts]. rewrite IH. by destruct (N.eqb_spec m c) as [->|].
Qed.

Lemma occurs_single m (rest : str) :
  match rest with [] => True | c :: _ => c <> m end ->
  occurs [m; m] (m :: rest) = occurs [m; m] rest.
Proof.
  intros H. cbn [occurs starts]. rewrite N.eqb_refl.
  destruct rest as [|c rest]; [done|]. by destruct (N.eqb_spec m c) as [->|].
Qed.

(** A line with one pair of single stars has no two stars in a row. *)
Lemma bold_passes_italic (pre g post : str) :
  g <> [] ->
  Forall (fun c => c <> 42) pre -> Forall (fun c => c <> 42) g ->
  Forall (fun c => c <> 42) post ->
  rule_out (R_between "**" "b") (pre ++ lit "*" ++ g ++ lit "*" ++ post)
  = pre ++ lit "*" ++ g ++ lit "*" ++ post.
Proof.
  intros Hg0 Hpre Hg Hpost. rewrite rule_out_from. apply rule_from_none.
  2:{ by apply between_none. }
  intros u c v E. apply between_none.
  destruct (starts (lit "**") (c :: v)) eqn:Es; [exfalso|done].
  assert (occurs [42; 42] (pre ++ lit "*" ++ g ++ lit "*" ++ post) = true) as Ho.
  { rewrite E. by apply occurs_app. }
  change (lit "*") with [42] in Ho. cbn [app] in Ho.
  rewrite occurs_skip, occurs_single, occurs_skip, occurs_single in Ho; try done.
  - by rewrite (occurs_absent [42; 42] 42 [42] post) in Ho.
  - destruct post; [done|]. by inversion Hpost.
  - destruct g; [done|]. by inversion Hg.
Qed.

(** X13.  One pair of marks on a line: with text between the marks, and no
    [*], [_] or [~] elsewhere on the line, rules 5 to 8 put the opening tag
    for the first mark and the closing tag for the second, [<b>] for [**],
    [<i>] for [*] and for [_], [<s>] for [~~]. *)
Theorem inline_marks_once (k : inline) (pre g post : str) :
  g <> [] -> no_newline g ->
  Forall (fun c => is_inline_mark c = false) pre ->
  Forall (fun c => is_inline_mark c = false) g ->
  Forall (fun c => is_inline_mark c = false) post ->
  inline_line (pre ++ lit (mark_of k) ++ g ++ lit (mark_of k) ++ post)
  = pre ++ open_tag (tag_of k) ++ g ++ close_tag (tag_of k) ++ post.
Proof.
  intros Hg0 Hnl Hpre Hg Hpost. unfold inline_line.
  change R_bold with (R_between "**" "b"). change R_italic with (R_between "*" "i").
  change R_italic_alt with (R_between "_" "i"). change R_strike with (R_between "~~" "s").
  assert (forall m, is_inline_mark m = true ->
            Forall (fun c => c <> m) pre /\ Forall (fun c => c <> m) g
            /\ Forall (fun c => c <> m) post) as H.
  { intros m Hm. repeat split; by apply absent_mark. }
  destruct (H 42 eq_refl) as (A1 & A2 & A3).
  destruct (H 95 eq_refl) as (B1 & B2 & B3).
  destruct (H 126 eq_refl) as (C1 & C2 & C3).
  destruct k; cbn [mark_of tag_of].
  - rewrite (between_once "**" "b" 42 [42]) by done.
    rewrite (between_absent_out "*" "i" 42 []); [|done|done|].
    2:{ unfold open_tag, close_tag. repeat (apply Forall_app; split); try done;
          repeat constructor; done. }
    rewrite (between_absent_out "_" "i" 95 []); [|done|done|].
    2:{ unfold open_tag, close_tag. repeat (apply Forall_app; split); try done;
          repeat constructor; done. }
    rewrite (between_absent_out "~~" "s" 126 [126]); [done|done|done|].
    unfold open_tag, close_tag. repeat (apply Forall_app; split); try done;
      repeat constructor; done.
  - rewrite bold_passes_italic by done.
    rewrite (between_once "*" "i" 42 []) by done.
    rewrite (between_absent_out "_" "i" 95 []); [|done|done|].
    2:{ unfold open_tag, close_tag. repeat (apply Forall_app; split); try done;
          repeat constructor; done. }
    rewrite (between_absent_out "~~" "s" 126 [126]); [done|done|done|].
    unfold open_tag, close_tag. repeat (apply Forall_app; split); try done;
      repeat constructor; done.
  - rewrite (between_absent_out "**" "b" 42 [42]); [|done|done|].
    2:{ repeat (apply Forall_app; split); try done; repeat constructor; done. }
    rewrite (between_absent_out "*" "i" 42 []); [|done|done|].
    2:{ repeat (apply Forall_app; split); try done; repeat constructor; done. }
    rewrite (between_once "_" "i" 95 []) by done.
    rewrite (between_absent_out "~~" "s" 126 [126]); [done|done|done|].
    unfold open_tag, close_tag. repeat (apply Forall_app; split); try done;
      repeat constructor; done.
  - rewrite (between_absent_out "**" "b" 42 [42]); [|done|done|].
    2:{ repeat (apply Forall_app; split); try done; repeat constructor; done. }
    rewrite (between_absent_out "*" "i" 42 []); [|done|done|].
    2:{ repeat (apply Forall_app; split); try done; repeat constructor; done. }
    rewrite (between_absent_out "_" "i" 95 []); [|done|done|].
    2:{ repeat (apply Forall_app; split); try done; repeat constructor; done. }
    by rewrite (between_once "~~" "s" 126 [126]) by done.
Qed.

Lemma inline_marks_once_witness :
  inline_line (lit "so " ++ lit (mark_of Italic) ++ lit "very" ++ lit (mark_of Italic)
               ++ lit " good")
  = lit "so " ++ open_tag (tag_of Italic) ++ lit "very" ++ close_tag (tag_of Italic)
    ++ lit " good".
Proof. apply inline_marks_once; try done; repeat constructor; done. Defined.

(** ** Stanzas *)

Lemma dot_any (s : str) : Forall (fun c => DOTALL fMS || negb (c =? NL) = true) s.
Proof. by apply Forall_forall. Qed.

Lemma stanza_hit pv (I T : str) :
  pv = None \/ pv = Some NL ->
  occurs [47; NL] (I ++ [NL]) = false ->
  match_here fMS (match_pattern R_stanza) false pv (stanza_text I ++ NL :: T)
  = Some (Found (length (stanza_text I)) [(1%nat, I)]).
Proof.
  intros Hpv Hocc. unfold match_here, R_stanza. cbn [match_pattern cat].
  rewrite run_bol by (by destruct Hpv as [-> | ->]).
  cbn [run]. rewrite run_Lits.
  change (lit "/" ++ [NL]) with [47; NL]. unfold stanza_text.
  change (lit "/" ++ [NL] ++ I ++ NL :: lit "/") with ([47; NL] ++ I ++ [NL; 47]).
  rewrite <- !app_assoc, starts_self, drop_app_length.
  cbn [lazy_star one_char rest run].
  rewrite rep_lazy_app; [|apply dot_any|].
  2:{ intros a1 c a2 E. cbn [prev rest pos caps]. rewrite run_Lits.
      change (NL :: lit "/") with [NL; 47].
      destruct (starts [NL; 47] (c :: a2 ++ [NL; 47] ++ NL :: T)) eqn:Es; [|done].
      simpl in Es. destruct (N.eqb_spec NL c) as [<-|]; [|done].
      destruct a2 as [|d a2]; [done|]. simpl in Es.
      destruct (N.eqb_spec 47 d) as [<-|]; [|done].
      rewrite E in Hocc. rewrite <- app_assoc in Hocc.
      apply occurs_app_r in Hocc. cbn [app occurs starts] in Hocc.
      apply orb_false_iff in Hocc as [_ Hocc]. rewrite N.eqb_refl in Hocc.
      unfold at_eol. cbn [rest].
      destruct a2 as [|e a2]; cbn [app drop length] in *.
      - by rewrite N.eqb_refl in Hocc.
      - destruct (N.eqb_spec e NL) as [->|]; [|done].
        by rewrite N.eqb_refl in Hocc. }
  apply rep_lazy_here. cbn [prev rest pos caps]. rewrite run_Lits.
  change (NL :: lit "/") with [NL; 47]. rewrite starts_self, drop_app_length.
  unfold at_eol. cbn [rest pos caps prev MULTILINE fMS andb orb]. rewrite N.eqb_refl.
  cbn [andb]. f_equal. f_equal.
  - rewrite !length_app. simpl. lia.
  - cbn [length]. replace (0 + 2 + length I - (0 + 2))%nat with (length I) by lia.
    by rewrite take_app_length.
Qed.

Lemma stanza_rule (I : str) :
  occurs [47; NL] (I ++ [NL]) = false ->
  apply_regex R_stanza (stanza_text I ++ [NL])
  = Some (lit "<div class=stanza>" ++ [NL] ++ I ++ NL :: lit "</div>" ++ [NL]).
Proof.
  intros Hocc. rewrite apply_rule, rule_out_from by done. f_equal.
  rewrite (rule_from_hit R_stanza _ _ _ [(1%nat, I)]).
  - rewrite rule_from_none.
    + unfold expand. cbn [R_stanza replace_pattern map concat group_of Nat.eqb default].
      rewrite app_nil_r. by rewrite <- !app_assoc.
    + intros [|? u'] c v E; [|by destruct u']. injection E as <- <-.
      by apply stanza_none.
    + by apply stanza_none.
  - done.
  - apply stanza_hit; [by left|done].
Qed.

Lemma last_join (ls : list str) (x : str) :
  x <> [] -> last (join_lines (ls ++ [x])) = last x.
Proof.
  intros Hx. induction ls as [|l ls IH]; [done|].
  cbn [app]. revert IH. destruct (ls ++ [x]) as [|y ys] eqn:E; [by destruct ls|].
  intros IH.
  change (join_lines (l :: y :: ys)) with (l ++ NL :: join_lines (y :: ys)).
  rewrite last_suffix. destruct (join_lines (y :: ys)) as [|c t] eqn:Ej.
  - by destruct x using rev_ind; [|rewrite last_snoc in IH].
  - by rewrite (last_cons_cons NL c t).
Qed.

Lemma unlines_snoc (ls : list str) (x : str) :
  unlines (ls ++ [x]) = unlines ls ++ x ++ [NL].
Proof. unfold unlines. by rewrite map_app, concat_app; simpl; rewrite app_nil_r. Qed.

Lemma wrap_unlines (x y : str) (L : list str) :
  L <> [] ->
  unlines (x :: L ++ [y]) = x ++ [NL] ++ join_lines L ++ NL :: y ++ [NL].
Proof.
  intros HL. destruct L as [|l L]; [done|].
  change (unlines (x :: (l :: L) ++ [y])) with ((x ++ [NL]) ++ unlines ((l :: L) ++ [y])).
  rewrite unlines_snoc, <- join_unlines. by rewrite <- !app_assoc.
Qed.

(** X14.  A stanza as the whole body: a line [/], then one or more
    non-empty lines, then a line [/], with empty lines between them or not;
    no two spaces stand in a row, and after rules 5 to 8 no line between
    the two [/] ends with [/] or has a [#] with nothing but whitespace
    after it.  The
    result is the line [<div class=stanza>], then each line between the
    two [/] as [format_body] makes it line by line, then the line
    [</div>]. *)
Theorem stanza_body_lines (a z : str) (mid : list (nat * str)) (k : nat) :
  all_space a -> all_space z -> mid <> [] ->
  Forall text_line (map snd mid) ->
  occurs [32; 32] (join_lines (lit "/" :: map snd (mid ++ [(k, lit "/")]))) = false ->
  Forall heading_or_text_line (map snd mid) ->
  _replace_file_marks (a ++ lit "/" ++ gapped (mid ++ [(k, lit "/")]) ++ z)
  = Some (lit "<div class=stanza>" ++ [NL]
          ++ concat (map (fun l => paragraph_line (heading_line (inline_line l)))
                         (map snd mid))
          ++ lit "</div>" ++ [NL]).
Proof.
  intros Ha Hz Hmid Hls Hsp Hok.
  unfold _replace_file_marks, _REPLACE_REGEXES.
  change [R_newlines; R_spaces; R_strip; R_final_newline; R_bold; R_italic;
          R_italic_alt; R_strike; R_heading; R_stanza; R_paragraph]
    with ([R_newlines; R_spaces; R_strip; R_final_newline]
          ++ [R_bold; R_italic; R_italic_alt; R_strike]
          ++ [R_heading; R_stanza; R_paragraph]).
  set (inner := map snd mid) in *.
  assert (map snd (mid ++ [(k, lit "/")]) = inner ++ [lit "/"]) as Hm
    by by rewrite map_app.
  rewrite Hm in Hsp.
  assert (inner <> []) as Hin0 by (unfold inner; by destruct mid).
  assert (Forall no_newline inner) as Hnl.
  { eapply Forall_impl; [exact Hls|]. by intros ? [_ ?]. }
  rewrite replace_with_app, rules_1_4_lines; try done; rewrite ?Hm.
  2:{ constructor; [by split; [|repeat constructor]|].
      apply Forall_app. split; [done|]. by repeat constructor. }
  2:{ split.
      - destruct (inner ++ [lit "/"]) eqn:E; [by destruct inner|]. by intros c [= <-].
      - change (lit "/" :: inner ++ [lit "/"]) with ((lit "/" :: inner) ++ [lit "/"]).
        rewrite last_join by done. by intros d [= <-]. }
  cbn [mbind option_bind].
  destruct (inline_lines (lit "/" :: inner ++ [lit "/"])) as [E Hin].
  { constructor; [by repeat constructor|]. apply Forall_app. split; [done|].
    by repeat constructor. }
  rewrite replace_with_app, E. cbn [mbind option_bind]. clear E.
  cbn [map] in *. rewrite map_app in *. cbn [map] in *.
  change (inline_line (lit "/")) with (lit "/") in *.
  apply Forall_cons in Hin as [_ Hin]. apply Forall_app in Hin as [Hin _].
  rewrite replace_with_cons, apply_heading, heading_from_lines; cycle 1.
  { constructor; [by repeat constructor|]. apply Forall_app. split; [done|].
    by repeat constructor. }
  { constructor; [done|]. apply Forall_app. split; [|by repeat constructor].
    apply Forall_map. eapply Forall_impl; [exact Hok|]. by intros x (Hx & _). }
  cbn [mbind option_bind map]. rewrite map_app. cbn [map].
  change (heading_line (lit "/")) with (lit "/").
  set (L := map heading_line (map inline_line inner)).
  assert (Forall (fun x => no_newline x /\ last x <> Some 47) L) as Hh.
  { unfold L. rewrite map_map. apply Forall_map. rewrite Forall_forall. intros x Hx.
    rewrite Forall_map, Forall_forall in Hin. rewrite Forall_forall in Hok.
    destruct (Hok x Hx) as (_ & Hs). apply heading_line_ok; [by apply Hin|done]. }
  assert (L <> []) as HL0 by (unfold L, inner; by destruct mid).
  rewrite (wrap_unlines (lit "/") (lit "/")) by done.
  replace (lit "/" ++ [NL] ++ join_lines L ++ NL :: lit "/" ++ [NL])
    with (stanza_text (join_lines L) ++ [NL])
    by (unfold stanza_text; by rewrite <- !app_assoc).
  rewrite replace_with_cons, stanza_rule. cbn [mbind option_bind].
  2:{ destruct L as [|l0 L']; [done|]. rewrite join_unlines.
      apply no_slash_lines; (eapply Forall_impl; [exact Hh|]); by intros ? [? ?]. }
  rewrite replace_with_cons, apply_paragraph. cbn [mbind option_bind replace_with foldl].
  f_equal.
  rewrite <- (wrap_unlines (lit "<div class=stanza>") (lit "</div>")) by done.
  rewrite <- (app_nil_r (unlines _)). rewrite paragraph_from_lines.
  - rewrite app_nil_r. cbn [map concat]. rewrite map_app, concat_app. cbn [map concat].
    unfold L. rewrite !map_map. rewrite app_nil_r. done.
  - constructor; [by repeat constructor|]. apply Forall_app. split.
    + eapply Forall_impl; [exact Hh|]. by intros ? [? ?].
    + by repeat constructor.
  - constructor.
  - done.
  - exact Hsp.
Qed.

Lemma stanza_body_lines_witness :
  _replace_file_marks
    ([] ++ lit "/" ++ gapped ([(0%nat, lit "roses are red"); (1%nat, lit "**b** x")]
                              ++ [(0%nat, lit "/")]) ++ [NL])
  = Some (lit "<div class=stanza>" ++ [NL]
          ++ concat (map (fun l => paragraph_line (heading_line (inline_line l)))
                         (map snd [(0%nat, lit "roses are red"); (1%nat, lit "**b** x")]))
          ++ lit "</div>" ++ [NL]).
Proof.
  apply (stanza_body_lines [] [NL]
           [(0%nat, lit "roses are red"); (1%nat, lit "**b** x")] 0).
  - constructor.
  - by repeat constructor.
  - done.
  - repeat constructor; done.
  - reflexivity.
  - repeat constructor; by vm_compute.
Defined.


(** ** From the input file to the output file *)

(** X15.  A document with a metadata block of entries and a body of lines
    of text: what [execute] writes is the template in which each
    placeholder is replaced from the entries of the block, and [$body$] by
    the lines of the body as [_replace_file_marks] makes them, one by
    one. *)
Theorem execute_core_document ua (w a z l tpl : str) (es : list meta_entry)
    (ls : list (nat * str)) :
  all_space w -> no_newline w ->
  es <> [] -> Forall entry_ok es ->
  occurs closing (block_text es ++ NL :: lit "--") = false ->
  all_space a -> all_space z -> Forall text_line (l :: map snd ls) ->
  trimmed (join_lines (l :: map snd ls)) ->
  occurs [32; 32] (join_lines (l :: map snd ls)) = false ->
  Forall heading_or_text_line (l :: map snd ls) ->
  execute_core ua
    (lit "---" ++ w ++ NL :: block_text es ++ closing ++ a ++ l ++ gapped ls ++ z) tpl
  = Some (_merge_with_template
            (concat (map (fun l => paragraph_line (heading_line (inline_line l)))
                         (l :: map snd ls)))
            tpl (entries_map es)).
Proof.
  intros Hw Hnl Hes Hok Hocc Ha Hz Hls Ht Hsp Hl. unfold execute_core.
  rewrite block_here_entries by done. cbn [mbind option_bind].
  by rewrite format_lines by done.
Qed.

Lemma execute_core_document_witness :
  execute_core (fun _ => false)
    (lit "---" ++ [] ++ NL ::
       block_text [MetaEntry (lit "title") [] (lit " ") (lit "My Page") []]
       ++ closing ++ [NL] ++ lit "# Hello" ++ gapped [(1%nat, lit "some *text*")] ++ [NL])
    (lit "<title>$title$</title>$body$")
  = Some (_merge_with_template
            (concat (map (fun l => paragraph_line (heading_line (inline_line l)))
                         [lit "# Hello"; lit "some *text*"]))
            (lit "<title>$title$</title>$body$")
            (entries_map [MetaEntry (lit "title") [] (lit " ") (lit "My Page") []])).
Proof.
  apply (execute_core_document (fun _ => false) [] [NL] [NL] (lit "# Hello")
           (lit "<title>$title$</title>$body$")
           [MetaEntry (lit "title") [] (lit " ") (lit "My Page") []]
           [(1%nat, lit "some *text*")]).
  - constructor.
  - constructor.
  - done.
  - repeat constructor; try done;
      intros c H; vm_compute in H; injection H as <-; reflexivity.
  - reflexivity.
  - by repeat constructor.
  - by repeat constructor.
  - repeat constructor; done.
  - split; intros c H; vm_compute in H; injection H as <-; reflexivity.
  - reflexivity.
  - repeat constructor; by vm_compute.
Defined.

(** ** The keys and values of the metadata *)

Lemma hits_from_match f r pv (s : str) w cs :
  Hit w cs ∈ (hits_here f r pv s).1 ->
  exists ma m, match_here f r ma pv s = Some m /\ mcaps m = cs.
Proof.
  unfold hits_here. destruct (match_here f r false pv s) as [[k cs1]|] eqn:E1; simpl;
    [destruct k as [|n]; simpl|].
  - destruct (match_here f r true pv s) as [m2|] eqn:E2; simpl; intros H.
    + apply elem_of_cons in H as [H|H]; [injection H as _ ->; by eexists false, _|].
      apply elem_of_cons in H as [H|H]; [|by apply elem_of_nil in H].
      injection H as _ ->. by eexists true, _.
    + apply elem_of_cons in H as [H|H]; [|by apply elem_of_nil in H].
      injection H as _ ->. by eexists false, _.
  - intros H. apply elem_of_cons in H as [H|H]; [|by apply elem_of_nil in H].
    injection H as _ ->. by eexists false, _.
  - intros H. by apply elem_of_nil in H.
Qed.

(** Every match in a scan is a match of the pattern at some place. *)
Lemma scan_hit_elem f r (s : str) pv skip w cs :
  Hit w cs ∈ scan f r pv s skip ->
  exists ma pv' s' m, match_here f r ma pv' s' = Some m /\ mcaps m = cs.
Proof.
  revert pv skip. induction s as [|d s IH]; intros pv skip H.
  - destruct skip; cbn [scan] in H; [|by apply elem_of_nil in H].
    pose proof (hits_from_match f r pv [] w cs) as Hm.
    destruct (hits_here f r pv []) as [hs n]. simpl in Hm.
    destruct (Hm H) as (ma & m & ? & ?). by exists ma, pv, [], m.
  - destruct skip as [|n]; cbn [scan] in H.
    + pose proof (hits_from_match f r pv (d :: s) w cs) as Hm.
      destruct (hits_here f r pv (d :: s)) as [hs n]. simpl in Hm.
      apply elem_of_app in H as [H|H].
      * destruct (Hm H) as (ma & m & ? & ?). by exists ma, pv, (d :: s), m.
      * destruct n as [|n].
        -- apply elem_of_cons in H as [H|H]; [done|]. by eapply IH.
        -- by eapply IH.
    + by eapply IH.
Qed.

Section PlusLoops.
Context {R : Type} (p : char -> bool) (k : mstate -> option R).

Lemma rep_greedy_plus_sound (r : str) pv n cs x :
  rep_greedy p 1 k r (MState pv r n cs) = Some x ->
  exists c u v, r = c :: u ++ v /\ p c = true /\ Forall (fun c => p c = true) u
    /\ k (MState (lastc (Some c) u) v (S n + length u) cs) = Some x.
Proof.
  destruct r as [|c r]; [done|]. rewrite rep_greedy_S.
  destruct (p c) eqn:Hc; [|done]. unfold advance. cbn [pos caps].
  intros H. apply rep_greedy_sound in H as (u & v & -> & Hu & Hk).
  by exists c, u, v.
Qed.

Lemma rep_lazy_plus_sound (r : str) pv n cs x :
  rep_lazy p 1 k r (MState pv r n cs) = Some x ->
  exists c u v, r = c :: u ++ v /\ p c = true /\ Forall (fun c => p c = true) u
    /\ k (MState (lastc (Some c) u) v (S n + length u) cs) = Some x.
Proof.
  destruct r as [|c r]; [done|]. cbn [rep_lazy Nat.pred].
  destruct (p c) eqn:Hc; [|done]. unfold advance. cbn [pos caps].
  intros H. apply rep_lazy_first in H as (u & v & -> & Hu & Hk & _).
  by exists c, u, v.
Qed.
End PlusLoops.

Lemma take_prefix (a b : str) n : n = length a -> take n (a ++ b) = a.
Proof. intros ->. apply take_app_length. Qed.

Lemma entry_sound ua ma pv (s : str) m :
  match_here fM (entry_pattern ua) ma pv s = Some m ->
  exists k v, mcaps m = [(2%nat, v); (1%nat, k)]
    /\ k <> [] /\ Forall (fun c => key_char ua c = true) k
    /\ v <> [] /\ no_newline v.
Proof.
  unfold match_here, entry_pattern. cbn [cat]. cbn [run star plus lazy_plus ws one_char].
  destruct (at_bol fM _); [|done]. cbn [rest].
  intros H. apply rep_greedy_sound in H as (u0 & v0 & -> & _ & H).
  cbn [rest pos caps prev] in H.
  apply rep_greedy_plus_sound in H as (c & k & v1 & -> & Hc & Hk & H).
  cbn [rest pos caps prev] in H.
  apply rep_greedy_sound in H as (u2 & v2 & -> & _ & H).
  cbn [rest pos caps prev] in H.
  cbn [run Lit1 one_char rest] in H.
  destruct v2 as [|colon v2]; [done|]. destruct (58 =? colon); [|done].
  unfold advance in H. cbn [rest pos caps prev] in H.
  apply rep_greedy_sound in H as (u3 & v3 & -> & _ & H).
  cbn [rest pos caps prev] in H.
  apply rep_lazy_plus_sound in H as (d & g & v4 & -> & Hd & Hg & H).
  cbn [rest pos caps prev] in H.
  apply rep_greedy_sound in H as (u5 & v5 & -> & _ & H).
  cbn [rest pos caps prev] in H.
  destruct (at_eol fM _); [|done].
  destruct (ma && _); [done|]. injection H as <-. cbn [mcaps].
  exists (c :: k), (d :: g). split; [|split; [done|split; [|split; [done|]]]].
  - f_equal; [|f_equal]; f_equal.
    + apply (take_prefix (d :: g) (u5 ++ v5)). simpl. lia.
    + apply (take_prefix (c :: k) (u2 ++ colon :: u3 ++ d :: g ++ u5 ++ v5)).
      simpl. lia.
  - by constructor.
  - assert (forall x, DOTALL fM || negb (x =? NL) = true -> x <> NL) as Hx.
    { intros x Hx ->. by rewrite N.eqb_refl in Hx. }
    constructor; [by apply Hx|]. eapply Forall_impl; [exact Hg|]. exact Hx.
Qed.

Lemma findall_entry_items ua (s : str) (v : pyval) :
  v ∈ re_findall fM (entry_pattern ua) s ->
  exists k x, v = PTuple [k; x]
    /\ k <> [] /\ Forall (fun c => key_char ua c = true) k
    /\ x <> [] /\ no_newline x.
Proof.
  unfold re_findall. intros H. apply list_elem_of_omap in H as (p & Hp & Hv).
  destruct p as [c|w cs]; [done|]. injection Hv as <-.
  apply scan_hit_elem in Hp as (ma & pv' & s' & m & Hm & <-).
  apply entry_sound in Hm as (k & x & -> & Hk).
  by exists k, x.
Qed.

Lemma foldl_insert_lookup (kvs : list (str * str)) (m : gmap str str)
    (key val : str) :
  foldl (fun m kv => <[kv.1 := kv.2]> m) m kvs !! key = Some val ->
  (key, val) ∈ kvs \/ m !! key = Some val.
Proof.
  revert m. induction kvs as [|[k' v'] kvs IH]; intros m H; [by right|].
  cbn [foldl] in H. apply IH in H as [H|H].
  - left. by right.
  - cbn [fst snd] in H. apply lookup_insert_Some in H as [[-> ->]|[_ H]].
    + left. by left.
    + by right.
Qed.

Lemma py_dict_lookup (l : list pyval) (md : gmap str str) (key val : str) :
  py_dict l = Some md -> md !! key = Some val ->
  exists v, v ∈ l /\ pair_of v = Some (key, val).
Proof.
  unfold py_dict. destruct (mapM pair_of l) as [kvs|] eqn:E; [|done].
  cbn [mbind option_bind]. intros [= <-] H.
  apply foldl_insert_lookup in H as [H|H]; [|by rewrite lookup_empty in H].
  apply mapM_Some in E. 
  apply list_elem_of_lookup in H as [i Hi].
  destruct (Forall2_lookup_r _ _ _ _ _ E Hi) as (v & Hv & Hp).
  exists v. split; [|done]. by apply list_elem_of_lookup_2 in Hv.
Qed.

(** X16.  Whatever the input, every key of the mapping [_extract_metadata]
    returns is a non-empty run of word characters and hyphens, and every
    value is non-empty and holds no newline. *)
Theorem extract_metadata_keys (ua : char -> bool) (content rest : str)
    (md : gmap str str) (key val : str) :
  _extract_metadata ua content = Some (md, rest) ->
  md !! key = Some val ->
  (key <> [] /\ Forall (fun c => key_char ua c = true) key)
  /\ (val <> [] /\ no_newline val).
Proof.
  unfold _extract_metadata.
  destruct (re_search _ _ content) as [[start m]|].
  - destruct (py_dict _) as [md'|] eqn:E; [|done]. cbn [mbind option_bind].
    intros [= <- <-] H.
    destruct (py_dict_lookup _ _ _ _ E H) as (v & Hv & Hp).
    apply findall_entry_items in Hv as (k & x & -> & Hk).
    injection Hp as <- <-. tauto.
  - intros [= <- <-] H. by rewrite lookup_empty in H.
Qed.

Lemma extract_metadata_keys_witness :
  (lit "title" <> [] /\ Forall (fun c => key_char (fun _ => false) c = true) (lit "title"))
  /\ (lit "T" <> [] /\ no_newline (lit "T")).
Proof.
  apply (extract_metadata_keys (fun _ => false)
           (lit "---" ++ NL :: lit "title: T" ++ NL :: lit "---" ++ NL :: lit "Body")
           (NL :: lit "Body")
           (entries_map [MetaEntry (lit "title") [] (lit " ") (lit "T") []])
           (lit "title") (lit "T")).
  - by vm_compute.
  - by vm_compute.
Defined.

